(** * Lexicon editor: entry model, ordering, validation, codecs and merge

    A shallow embedding of the business logic of the component [App] of
    the lexicon editor (the TypeScript text in [src/Dockerfile]), and the
    properties of its specification settled against it.

    Strings are JavaScript strings: finite sequences of UTF-16 code units.
    The built-ins of the runtime that the code calls are modelled in module
    [JS]. Two of them depend on the Unicode data of the host,
    [toLowerCase] and [localeCompare]: they are the fields of the class
    [JsRuntime], the definitions and theorems hold for every runtime, and
    the closed examples are evaluated on the runtime [BasicLatin].

    Component state is passed explicitly: a handler takes the state of the
    render it was created in and returns the state after its writes. A
    handler that throws, or that would leave a hole in an array, returns
    [None].

    Part I is the embedding, the statements of the specification and the
    example data; Part II has the proofs. *)

From Stdlib Require Import List Bool Arith ZArith NArith Lia String Ascii.
From Stdlib Require Import Sorting.Sorted Sorting.Permutation.
Import ListNotations.
Local Open Scope list_scope.

Abbreviation length := List.length.

(* ================================================================== *)
(** * Part I. The embedding                                            *)
(* ================================================================== *)

(** ** JavaScript strings *)

Definition jsstring := list N.

Module JS.

Definition TAB : N := 9.
Definition LF : N := 10.
Definition CR : N := 13.
Definition SPACE : N := 32.
Definition QUOTE : N := 34.
Definition HASH : N := 35.
Definition AMP : N := 38.
Definition COMMA : N := 44.
Definition PIPE : N := 124.
Definition BOM : N := 65279.

(** [===] on strings. *)
Fixpoint eqb (a b : jsstring) : bool :=
  match a, b with
  | [], [] => true
  | x :: a', y :: b' => N.eqb x y && eqb a' b'
  | _, _ => false
  end.

(** [===] on values that are a string or [undefined]. *)
Definition opt_eqb (a b : option jsstring) : bool :=
  match a, b with
  | None, None => true
  | Some x, Some y => eqb x y
  | _, _ => false
  end.

(** [JSON.stringify(a) === JSON.stringify(b)] on arrays of strings:
    the serialisation of an array of strings determines the array. *)
Fixpoint list_eqb (a b : list jsstring) : bool :=
  match a, b with
  | [], [] => true
  | x :: a', y :: b' => eqb x y && list_eqb a' b'
  | _, _ => false
  end.

(** Truthiness of a string: every string but the empty one. *)
Definition truthy (s : jsstring) : bool :=
  match s with [] => false | _ :: _ => true end.

(** Truthiness of a value that is a string or [undefined]. *)
Definition opt_truthy (o : option jsstring) : bool :=
  match o with Some s => truthy s | None => false end.

(** [o || ''] for [o] a string or [undefined]. *)
Definition orEmpty (o : option jsstring) : jsstring :=
  match o with Some s => s | None => [] end.

(** [s || undefined]. *)
Definition orUndefined (s : jsstring) : option jsstring :=
  if truthy s then Some s else None.

(** [a || b] for two values that are a string or [undefined]. *)
Definition opt_or (a b : option jsstring) : option jsstring :=
  if opt_truthy a then a else b.

(** [Array.prototype.includes] on an array of strings. *)
Definition includes (l : list jsstring) (s : jsstring) : bool :=
  existsb (eqb s) l.

(** [String.prototype.includes] for a one code unit needle. *)
Definition includesUnit (s : jsstring) (c : N) : bool :=
  existsb (N.eqb c) s.

(** [Array.prototype.indexOf] on an array of strings; [None] is -1. *)
Fixpoint indexOf (l : list jsstring) (s : jsstring) : option nat :=
  match l with
  | [] => None
  | x :: r => if eqb x s then Some 0%nat
              else option_map S (indexOf r s)
  end.

(** WhiteSpace and LineTerminator code points of ECMAScript: what
    [String.prototype.trim] strips. *)
Definition isWhiteSpace (c : N) : bool :=
  ((9 <=? c) && (c <=? 13) || (c =? 32) || (c =? 160) || (c =? 5760)
   || (8192 <=? c) && (c <=? 8202) || (c =? 8232) || (c =? 8233)
   || (c =? 8239) || (c =? 8287) || (c =? 12288) || (c =? 65279))%N.

Fixpoint trimStart (s : jsstring) : jsstring :=
  match s with
  | [] => []
  | c :: r => if isWhiteSpace c then trimStart r else s
  end.

Definition trimEnd (s : jsstring) : jsstring :=
  rev (trimStart (rev s)).

Definition trim (s : jsstring) : jsstring := trimEnd (trimStart s).

(** [s.startsWith(c)] for a one code unit prefix. *)
Definition startsWithUnit (s : jsstring) (c : N) : bool :=
  match s with x :: _ => N.eqb x c | [] => false end.

(** [s.split(sep)] for a one code unit separator: never the empty
    array, [''.split(sep)] is [['']]. *)
Fixpoint split (sep : N) (s : jsstring) : list jsstring :=
  match s with
  | [] => [[]]
  | c :: r =>
      if N.eqb c sep then [] :: split sep r
      else match split sep r with
           | h :: t => (c :: h) :: t
           | [] => [[c]]
           end
  end.

(** [l.join(sep)] for a one code unit separator. *)
Fixpoint join (sep : N) (l : list jsstring) : jsstring :=
  match l with
  | [] => []
  | [x] => x
  | x :: r => x ++ sep :: join sep r
  end.

(** Lexicographic order on code units: the order of [<] on strings and
    of [Array.prototype.sort] without a comparator. *)
Fixpoint leb (a b : jsstring) : bool :=
  match a, b with
  | [], _ => true
  | _ :: _, [] => false
  | x :: a', y :: b' =>
      if N.ltb x y then true
      else if N.eqb x y then leb a' b' else false
  end.

Fixpoint insertSorted (x : jsstring) (l : list jsstring) : list jsstring :=
  match l with
  | [] => [x]
  | y :: r => if leb x y then x :: l else y :: insertSorted x r
  end.

(** [Array.prototype.sort()] on an array of strings. The order is total,
    so the sorted array does not depend on the algorithm. *)
Definition sort (l : list jsstring) : list jsstring :=
  fold_right insertSorted [] l.

(** [arr.splice(i, 0, x)]: the start index is clamped to the length. *)
Definition splice_insert {A} (l : list A) (i : nat) (x : A) : list A :=
  firstn i l ++ x :: skipn i l.

(** [arr.filter((_, idx) => idx !== i)]. *)
Fixpoint removeAt {A} (l : list A) (i : nat) : list A :=
  match l, i with
  | [], _ => []
  | _ :: r, O => r
  | x :: r, S j => x :: removeAt r j
  end.

(** [arr[i] = v]. Writing at the length appends; writing beyond it
    would leave holes in the array, which a list of entries cannot
    represent: [None]. *)
Definition array_set {A} (l : list A) (i : nat) (v : A) : option (list A) :=
  if (i <? length l)%nat then Some (firstn i l ++ v :: skipn (S i) l)
  else if (i =? length l)%nat then Some (l ++ [v])
  else None.

(** Decoding of a UTF-8 literal of this file into UTF-16 code units. *)
Definition surrogates (cp : N) : jsstring :=
  if (cp <? 65536)%N then [cp]
  else [55296 + (cp - 65536) / 1024; 56320 + (cp - 65536) mod 1024]%N.

Fixpoint utf16_of_utf8 (bs : list N) : jsstring :=
  match bs with
  | [] => []
  | b0 :: r0 =>
      if (b0 <? 192)%N then b0 :: utf16_of_utf8 r0
      else match r0 with
      | [] => [b0]
      | b1 :: r1 =>
          if (b0 <? 224)%N
          then ((b0 - 192) * 64 + (b1 - 128))%N :: utf16_of_utf8 r1
          else match r1 with
          | [] => [b0; b1]
          | b2 :: r2 =>
              if (b0 <? 240)%N
              then ((b0 - 224) * 4096 + (b1 - 128) * 64 + (b2 - 128))%N
                     :: utf16_of_utf8 r2
              else match r2 with
              | [] => [b0; b1; b2]
              | b3 :: r3 =>
                  surrogates ((b0 - 240) * 262144 + (b1 - 128) * 4096
                              + (b2 - 128) * 64 + (b3 - 128))%N
                    ++ utf16_of_utf8 r3
              end
          end
      end
  end.

Definition lit (s : string) : jsstring :=
  utf16_of_utf8 (map (fun a => N_of_ascii a) (list_ascii_of_string s)).

End JS.

Notation "'js' s" := (JS.lit s%string) (at level 1, s at level 0, only parsing).

(** The built-ins that depend on the host's Unicode data. *)
Class JsRuntime := {
  toLowerCase : jsstring -> jsstring;
  localeCompare : jsstring -> jsstring -> Z
}.

(** What the collation of [localeCompare] guarantees: its sign is a total
    preorder on strings. *)
Class JsCollation (R : JsRuntime) : Prop := {
  localeCompare_total : forall a b,
    (0 <= localeCompare a b)%Z -> (localeCompare b a <= 0)%Z;
  localeCompare_trans : forall a b c,
    (localeCompare a b <= 0)%Z -> (localeCompare b c <= 0)%Z ->
    (localeCompare a c <= 0)%Z
}.

(** A runtime to evaluate examples with: lower-casing of the Basic Latin
    letters, comparison by code units. On strings of Basic Latin letters
    and of caseless characters the lower-casing is the one of ECMAScript. *)
Module BasicLatin.

Definition lowerUnit (c : N) : N :=
  if ((65 <=? c) && (c <=? 90))%N then (c + 32)%N else c.

Definition lower (s : jsstring) : jsstring := map lowerUnit s.

Fixpoint compare (a b : jsstring) : Z :=
  match a, b with
  | [], [] => 0
  | [], _ :: _ => -1
  | _ :: _, [] => 1
  | x :: a', y :: b' =>
      if N.ltb x y then -1
      else if N.ltb y x then 1 else compare a' b'
  end.

Definition runtime : JsRuntime := Build_JsRuntime lower compare.

End BasicLatin.

(** ** The entry model (interfaces [LexiconEntry] and [MergeConflict]) *)

Record LexiconEntry := {
  graphemes : list jsstring;
  alias : option jsstring;
  aliasSayAsType : option jsstring;
  phoneme : option jsstring;
  phonemeSayAsType : option jsstring;
  isNew : option bool
}.

Inductive ConflictType := additional_alias | conflict.

Inductive Resolution := master | merge | both.

Record MergeConflict := {
  type : ConflictType;
  masterEntry : LexiconEntry;
  mergeEntry : LexiconEntry;
  masterIndex : nat;
  mergeIndex : nat;
  commonGraphemes : list jsstring;
  resolution : option Resolution
}.

Definition NEW_ENTRY : jsstring := js "*** NEW ENTRY ***".

(** The members of the character class [VALID_IPA_CHARS_REGEX]: the ranges
    [a-z] and [A-Z] and the listed code units. *)
Definition VALID_IPA_CHARS : list N :=
  [593; 592; 594; 230; 595; 665; 946; 596; 597; 231; 599; 598; 240; 676;
   675; 600; 602; 603; 604; 605; 606; 607; 644; 609; 608; 610; 667; 614;
   615; 295; 613; 668; 616; 618; 669; 621; 620; 619; 622; 671; 625; 623;
   624; 331; 627; 626; 628; 248; 629; 632; 339; 630; 664; 633; 634; 638;
   635; 640; 641; 637; 642; 643; 648; 679; 952; 649; 650; 651; 11377; 652;
   611; 612; 653; 967; 654; 655; 657; 656; 658; 660; 673; 661; 674; 448;
   449; 450; 451; 712; 716; 720; 721; 774; 778; 771; 770; 768; 769; 779;
   783; 780; 772; 773; 776; 775; 781; 782; 777; 32; 46; 688; 690; 695;
   696; 736; 740; 8319; 737; 7496; 7511; 7495; 7503; 7501; 7584; 7615;
   7499; 7590; 7591; 7592; 7593; 7594; 7595; 7596; 7597; 7598; 7599; 7600;
   7601; 7602; 7603; 7604; 7605; 7606; 7607; 7608; 7609; 7610; 7611; 7612;
   7613; 7614; 62; 60]%N.

Definition validIpaChar (c : N) : bool :=
  ((97 <=? c) && (c <=? 122) || (65 <=? c) && (c <=? 90))%N
  || existsb (N.eqb c) VALID_IPA_CHARS.

(** [new RegExp('^' + VALID_IPA_CHARS_REGEX.source + '+$').test(s)]: one or
    more code units, each of the class, and nothing else. *)
Definition ipaPattern_test (s : jsstring) : bool :=
  JS.truthy s && forallb validIpaChar s.

(** The errors that [processMergeFile] records in [mergeDetailedErrors]:
    for an entry, by the message that its [try] block throws
    ([TypeError]: an access to a property of [undefined]); for the file,
    a parse error, no [lexicon] element, another language. *)
Inductive EntryError :=
| TypeError
| InvalidGraphemeFormat
| NoGraphemes
| EmptyGraphemes
| InvalidAliasFormat
| InvalidPhonemeFormat
| NoPronunciation
| ProblematicCharacters
| ControlCharacters
| LongGraphemes.

Inductive DetailedError :=
| xml_parse
| invalid_lexicon
| language_mismatch
| invalid_entry (index : nat) (e : EntryError).

Section Editor.

Context {R : JsRuntime}.

(** ** Ordering engine *)

(** [e.graphemes[0]?.toLowerCase() || '']. *)
Definition firstGraphemeKey (e : LexiconEntry) : jsstring :=
  match graphemes e with
  | [] => []
  | g :: _ => toLowerCase g
  end.

(** The loop of [findInsertionIndex], from index [i] on. *)
Fixpoint findInsertionIndex_from (i : nat) (entries : list LexiconEntry)
    (newGrapheme : jsstring) : nat :=
  match entries with
  | [] => i
  | e :: rest =>
      if (localeCompare newGrapheme (firstGraphemeKey e) <? 0)%Z then i
      else findInsertionIndex_from (S i) rest newGrapheme
  end.

Definition findInsertionIndex (entries : list LexiconEntry)
    (newEntry : LexiconEntry) : nat :=
  findInsertionIndex_from 0 entries (firstGraphemeKey newEntry).

(** The entry list and the selection, the part of the component state
    that the entry handlers read and write. *)
Record Selection := {
  sel_entries : list LexiconEntry;
  selectedIndex : option nat
}.

Definition blankEntry : LexiconEntry :=
  {| graphemes := [NEW_ENTRY]; alias := Some []; aliasSayAsType := Some [];
     phoneme := Some []; phonemeSayAsType := Some []; isNew := Some true |}.

Definition handleNewEntry (st : Selection) : Selection :=
  let insertIndex := findInsertionIndex (sel_entries st) blankEntry in
  {| sel_entries := JS.splice_insert (sel_entries st) insertIndex blankEntry;
     selectedIndex := Some insertIndex |}.

(** [updatedEntry.graphemes[gIdx] = value] on the copy of the graphemes;
    a write beyond the length is outside the model (the handler is wired
    to the input box of an existing grapheme). *)
Definition withGrapheme (e : LexiconEntry) (gIdx : nat) (value : jsstring)
    : option LexiconEntry :=
  match JS.array_set (graphemes e) gIdx value with
  | Some gs =>
      Some {| graphemes := gs; alias := alias e;
              aliasSayAsType := aliasSayAsType e; phoneme := phoneme e;
              phonemeSayAsType := phonemeSayAsType e; isNew := isNew e |}
  | None => None
  end.

(** [entries.map((entry, idx) => idx === i ? x : entry)]. *)
Fixpoint replaceAt {A} (l : list A) (i : nat) (x : A) : list A :=
  match l, i with
  | [], _ => []
  | _ :: r, O => x :: r
  | y :: r, S j => y :: replaceAt r j x
  end.

(** [handleGraphemeChange]; [None] where the selected index or the
    grapheme index names nothing. *)
Definition handleGraphemeChange (st : Selection) (gIdx : nat)
    (value : jsstring) : option Selection :=
  match selectedIndex st with
  | None => Some st
  | Some sel =>
      match nth_error (sel_entries st) sel with
      | None => None
      | Some cur =>
          match withGrapheme cur gIdx value with
          | None => None
          | Some updatedEntry =>
              if (gIdx =? 0)%nat && JS.truthy (JS.trim value)
                 && negb (JS.eqb value NEW_ENTRY)
              then
                let entriesWithoutCurrent :=
                  JS.removeAt (sel_entries st) sel in
                let insertIndex :=
                  findInsertionIndex entriesWithoutCurrent updatedEntry in
                Some {| sel_entries :=
                          JS.splice_insert entriesWithoutCurrent insertIndex
                                           updatedEntry;
                        selectedIndex := Some insertIndex |}
              else
                Some {| sel_entries :=
                          replaceAt (sel_entries st) sel updatedEntry;
                        selectedIndex := Some sel |}
          end
      end
  end.

(** ** Validation *)

(** [String(v).trim()] of a field, [''] for [null] and [undefined]. *)
Definition trimmedField (o : option jsstring) : jsstring :=
  match o with Some s => JS.trim s | None => [] end.

Definition hasValidGrapheme (e : LexiconEntry) : bool :=
  existsb (fun g => JS.truthy (JS.trim g) && negb (JS.eqb g NEW_ENTRY))
          (graphemes e).

(** [validateEntry]. The index and the saved entries only feed the
    console log; the messages depend on the entry alone. *)
Definition validateEntry (entry : LexiconEntry) (entryIndex : nat)
    : list string :=
  let hasAlias := JS.truthy (trimmedField (alias entry)) in
  let hasPhoneme := JS.truthy (trimmedField (phoneme entry)) in
  (if hasValidGrapheme entry then []
   else ["Must have at least one grapheme"%string])
  ++ (if negb hasAlias && negb hasPhoneme
      then ["Must have either an alias or phoneme"%string] else [])
  ++ (if hasPhoneme && JS.opt_truthy (phoneme entry)
         && negb (ipaPattern_test (JS.orEmpty (phoneme entry)))
      then ["Phoneme contains invalid characters (imported entries may need manual correction)"%string]
      else []).

(** ** Merge engine *)

Definition lowerGraphemes (e : LexiconEntry) : list jsstring :=
  map toLowerCase (graphemes e).

(** [x?.toLowerCase()]. *)
Definition optLower (o : option jsstring) : option jsstring :=
  option_map toLowerCase o.

Definition arePhoneticallyIdentical (entry1 entry2 : LexiconEntry) : bool :=
  JS.list_eqb (JS.sort (lowerGraphemes entry1))
              (JS.sort (lowerGraphemes entry2))
  && JS.opt_eqb (phoneme entry1) (phoneme entry2).

Definition areIdentical (entry1 entry2 : LexiconEntry) : bool :=
  JS.list_eqb (JS.sort (lowerGraphemes entry1))
              (JS.sort (lowerGraphemes entry2))
  && JS.opt_eqb (optLower (alias entry1)) (optLower (alias entry2))
  && JS.opt_eqb (phoneme entry1) (phoneme entry2).

(** [masterEntry.graphemes.some(mg =>
      mergeGraphemes.includes(mg.toLowerCase()))]. *)
Definition sharesGrapheme (mergeGraphemes : list jsstring)
    (masterEntry : LexiconEntry) : bool :=
  existsb (fun mg => JS.includes mergeGraphemes (toLowerCase mg))
          (graphemes masterEntry).

(** The entries of an array with their positions. Every element of the
    entry list is an object of its own, so [indexOf] of an element is
    its position. *)
Definition indexed {A} (l : list A) : list (nat * A) :=
  combine (seq 0 (length l)) l.

(** The body of the inner [forEach] of [analyzeConflicts]: what one
    matching master entry contributes. *)
Definition conflictWith (mergeIndex : nat) (mergeEntry : LexiconEntry)
    (im : nat * LexiconEntry) : list MergeConflict :=
  let '(masterIndex, masterEntry) := im in
  let mergeGraphemes := lowerGraphemes mergeEntry in
  let common :=
    filter (fun mg => JS.includes mergeGraphemes (toLowerCase mg))
           (graphemes masterEntry) in
  if areIdentical masterEntry mergeEntry then []
  else if arePhoneticallyIdentical masterEntry mergeEntry then
    [{| type := additional_alias; masterEntry := masterEntry;
        mergeEntry := mergeEntry; masterIndex := masterIndex;
        mergeIndex := mergeIndex; commonGraphemes := common;
        resolution := None |}]
  else
    let isAdditionalAlias :=
      JS.opt_eqb (phoneme masterEntry) (phoneme mergeEntry)
      && negb (JS.opt_eqb (optLower (alias masterEntry))
                          (optLower (alias mergeEntry))) in
    [{| type := if isAdditionalAlias then additional_alias else conflict;
        masterEntry := masterEntry; mergeEntry := mergeEntry;
        masterIndex := masterIndex; mergeIndex := mergeIndex;
        commonGraphemes := common; resolution := None |}].

(** The body of the outer [forEach] of [analyzeConflicts]. *)
Definition conflictsOfEntry (masterEntries : list LexiconEntry)
    (ie : nat * LexiconEntry) : list MergeConflict :=
  let '(mergeIndex, mergeEntry) := ie in
  let matchingMasterEntries :=
    filter (fun im => sharesGrapheme (lowerGraphemes mergeEntry) (snd im))
           (indexed masterEntries) in
  flat_map (conflictWith mergeIndex mergeEntry) matchingMasterEntries.

(** The conflict list that [analyzeConflicts] builds. *)
Definition conflictsOf (masterEntries mergeEntries : list LexiconEntry)
    : list MergeConflict :=
  flat_map (conflictsOfEntry masterEntries) (indexed mergeEntries).

Record MergeSummary := {
  newEntries : nat;
  conflictsResolved : nat;
  identicalSkipped : Z;
  totalProcessed : nat;
  errorsFound : nat
}.

(** The merge part of the component state. *)
Record MergeState := {
  entries : list LexiconEntry;
  mergeFileContent : list LexiconEntry;
  mergeConflicts : list MergeConflict;
  showConflictResolution : bool;
  showMergeModal : bool;
  mergeDetailedErrors : list DetailedError;
  mergeSummary : option MergeSummary
}.

(** [{ ...e, isNew: true }]. *)
Definition markNew (e : LexiconEntry) : LexiconEntry :=
  {| graphemes := graphemes e; alias := alias e;
     aliasSayAsType := aliasSayAsType e; phoneme := phoneme e;
     phonemeSayAsType := phonemeSayAsType e; isNew := Some true |}.

(** [arr.sort((a, b) => key(a).localeCompare(key(b)))]: the sort of
    ECMAScript is stable, and a stable sort by a consistent comparator
    has one result; it is computed here by insertion. *)
Fixpoint insertEntry (x : LexiconEntry) (l : list LexiconEntry)
    : list LexiconEntry :=
  match l with
  | [] => [x]
  | y :: r =>
      if (localeCompare (firstGraphemeKey x) (firstGraphemeKey y) <=? 0)%Z
      then x :: l else y :: insertEntry x r
  end.

Definition sortEntries (l : list LexiconEntry) : list LexiconEntry :=
  fold_right insertEntry [] l.

(** One step of the [forEach] of [performMerge]: the working copy of the
    master list and the two counters. *)
Definition performMerge_step (acc : list LexiconEntry * nat * nat)
    (mergeEntry : LexiconEntry) : list LexiconEntry * nat * nat :=
  let '(masterEntries, newEntriesAdded, skipped) := acc in
  let mergeGraphemes := lowerGraphemes mergeEntry in
  if negb (existsb (sharesGrapheme mergeGraphemes) masterEntries) then
    (masterEntries ++ [markNew mergeEntry], S newEntriesAdded, skipped)
  else
    match find (sharesGrapheme mergeGraphemes) masterEntries with
    | Some matchingEntry =>
        if areIdentical matchingEntry mergeEntry
        then (masterEntries, newEntriesAdded, S skipped)
        else acc
    | None => acc
    end.

Definition performMerge (st : MergeState) (mergeEntries : list LexiconEntry)
    : MergeState :=
  let '(masterEntries, newEntriesAdded, skipped) :=
    fold_left performMerge_step mergeEntries (entries st, 0, 0) in
  {| entries := sortEntries masterEntries;
     mergeFileContent := [];
     mergeConflicts := [];
     showConflictResolution := showConflictResolution st;
     showMergeModal := false;
     mergeDetailedErrors := mergeDetailedErrors st;
     mergeSummary :=
       Some {| newEntries := newEntriesAdded; conflictsResolved := 0;
               identicalSkipped := Z.of_nat skipped;
               totalProcessed := length mergeEntries;
               errorsFound := length (mergeDetailedErrors st) |} |}.

Definition analyzeConflicts (st : MergeState)
    (mergeEntries : list LexiconEntry) : MergeState :=
  let conflicts := conflictsOf (entries st) mergeEntries in
  match conflicts with
  | _ :: _ =>
      {| entries := entries st;
         mergeFileContent := mergeFileContent st;
         mergeConflicts := conflicts;
         showConflictResolution := true;
         showMergeModal := false;
         mergeDetailedErrors := mergeDetailedErrors st;
         mergeSummary := mergeSummary st |}
  | [] => performMerge st mergeEntries
  end.

(** *** Resolution of conflicts *)

Definition withResolution (c : MergeConflict) (r : option Resolution)
    : MergeConflict :=
  {| type := type c; masterEntry := masterEntry c;
     mergeEntry := mergeEntry c; masterIndex := masterIndex c;
     mergeIndex := mergeIndex c; commonGraphemes := commonGraphemes c;
     resolution := r |}.

Definition withConflicts (st : MergeState) (cs : list MergeConflict)
    : MergeState :=
  {| entries := entries st; mergeFileContent := mergeFileContent st;
     mergeConflicts := cs;
     showConflictResolution := showConflictResolution st;
     showMergeModal := showMergeModal st;
     mergeDetailedErrors := mergeDetailedErrors st;
     mergeSummary := mergeSummary st |}.

(** [handleConflictResolution]; the write to a conflict that does not
    exist throws: [None]. *)
Definition handleConflictResolution (st : MergeState) (conflictIndex : nat)
    (r : Resolution) : option MergeState :=
  match nth_error (mergeConflicts st) conflictIndex with
  | Some c =>
      Some (withConflicts st
              (replaceAt (mergeConflicts st) conflictIndex
                         (withResolution c (Some r))))
  | None => None
  end.

Definition resolveAllConflicts (st : MergeState) (r : Resolution)
    : MergeState :=
  withConflicts st
    (map (fun c => withResolution c (Some r)) (mergeConflicts st)).

Definition resolveAllOfType (t : ConflictType) (st : MergeState)
    (r : Resolution) : MergeState :=
  withConflicts st
    (map (fun c =>
            withResolution c
              (match type c, t with
               | additional_alias, additional_alias
               | conflict, conflict => Some r
               | _, _ => resolution c
               end))
         (mergeConflicts st)).

Definition resolveAllAdditionalAliases := resolveAllOfType additional_alias.
Definition resolveAllConflictsOnly := resolveAllOfType conflict.

(** The entry that resolution [both] writes. *)
Definition combineBoth (masterEntry mergeEntry : LexiconEntry)
    : LexiconEntry :=
  let masterGraphemesLower := lowerGraphemes masterEntry in
  let uniqueMergeGraphemes :=
    filter (fun g => negb (JS.includes masterGraphemesLower (toLowerCase g)))
           (graphemes mergeEntry) in
  {| graphemes := graphemes masterEntry ++ uniqueMergeGraphemes;
     alias := JS.opt_or (alias mergeEntry) (alias masterEntry);
     aliasSayAsType := None;
     phoneme := JS.opt_or (phoneme mergeEntry) (phoneme masterEntry);
     phonemeSayAsType := None;
     isNew := Some true |}.

(** One step of the first [forEach] of [finalizeMerge]: the working copy
    [resolvedEntries] and the counter [conflictsResolved]. *)
Definition applyResolution (acc : option (list LexiconEntry * nat))
    (c : MergeConflict) : option (list LexiconEntry * nat) :=
  match acc with
  | None => None
  | Some (resolvedEntries, conflictsResolved) =>
      match resolution c with
      | Some merge =>
          option_map (fun l => (l, S conflictsResolved))
            (JS.array_set resolvedEntries (masterIndex c)
                          (markNew (mergeEntry c)))
      | Some both =>
          option_map (fun l => (l, S conflictsResolved))
            (JS.array_set resolvedEntries (masterIndex c)
                          (combineBoth (masterEntry c) (mergeEntry c)))
      | Some master => Some (resolvedEntries, S conflictsResolved)
      | None => acc
      end
  end.

(** One step of the second [forEach] of [finalizeMerge]. *)
Definition addUnmatched (st : MergeState)
    (acc : list LexiconEntry * nat) (incoming : LexiconEntry)
    : list LexiconEntry * nat :=
  let '(resolvedEntries, newEntriesAdded) := acc in
  let mergeGraphemes := lowerGraphemes incoming in
  let hasConflict :=
    existsb (fun c => sharesGrapheme mergeGraphemes (mergeEntry c))
            (mergeConflicts st) in
  if negb hasConflict
     && negb (existsb (sharesGrapheme mergeGraphemes) (entries st))
  then (resolvedEntries ++ [markNew incoming], S newEntriesAdded)
  else acc.

(** [finalizeMerge]; [None] where a conflict names a position beyond the
    entry list (see [JS.array_set]). *)
Definition finalizeMerge (st : MergeState) : option MergeState :=
  match fold_left applyResolution (mergeConflicts st)
                  (Some (entries st, 0)) with
  | None => None
  | Some (resolved, conflictsResolved) =>
      let '(resolvedEntries, newEntriesAdded) :=
        fold_left (addUnmatched st) (mergeFileContent st) (resolved, 0) in
      Some {| entries := sortEntries resolvedEntries;
              mergeFileContent := [];
              mergeConflicts := [];
              showConflictResolution := false;
              showMergeModal := showMergeModal st;
              mergeDetailedErrors := mergeDetailedErrors st;
              mergeSummary :=
                Some {| newEntries := newEntriesAdded;
                        conflictsResolved := conflictsResolved;
                        identicalSkipped :=
                          (Z.of_nat (length (mergeFileContent st))
                           - Z.of_nat (length (mergeConflicts st))
                           - Z.of_nat newEntriesAdded)%Z;
                        totalProcessed := length (mergeFileContent st);
                        errorsFound := 0 |} |}
  end.

(** The [disabled] attribute of the Complete Merge button. *)
Definition completeMergeDisabled (st : MergeState) : bool :=
  existsb (fun c => match resolution c with None => true | Some _ => false end)
          (mergeConflicts st).

(** A click on the Complete Merge button: a disabled button dispatches
    no click, the handler [finalizeMerge] does not run and the state
    stays as it is. *)
Definition clickCompleteMerge (st : MergeState) : option MergeState :=
  if completeMergeDisabled st then Some st else finalizeMerge st.

(** *** Reading the merge file *)

(** The values that the XML parser hands to [processMergeFile]. Of a
    number or a boolean only the truthiness is read. *)
#[local] Set Warnings "-register-all".
Inductive JsVal :=
| VUndefined
| VString (s : jsstring)
| VOther (truthy : bool)
| VObject (props : list (jsstring * JsVal))
| VArray (items : list JsVal).
#[local] Set Warnings "register-all".

Definition truthyVal (v : JsVal) : bool :=
  match v with
  | VUndefined => false
  | VString s => JS.truthy s
  | VOther b => b
  | VObject _ | VArray _ => true
  end.

(** [a || b]. *)
Definition orVal (a b : JsVal) : JsVal := if truthyVal a then a else b.

(** [v[name]] for a name that is no array index and no built-in
    property; the access throws on [undefined]. *)
Definition getProp (v : JsVal) (name : jsstring) : EntryError + JsVal :=
  match v with
  | VUndefined => inl TypeError
  | VObject props =>
      inr (match find (fun p => JS.eqb (fst p) name) props with
           | Some p => snd p
           | None => VUndefined
           end)
  | _ => inr VUndefined
  end.

Definition bind {E A B} (x : E + A) (f : A -> E + B) : E + B :=
  match x with inl e => inl e | inr a => f a end.

Notation "x <- c ;; k" := (bind c (fun x => k))
  (at level 61, c at next level, right associativity).

Definition check {E} (ok : bool) (e : E) : E + unit :=
  if ok then inr tt else inl e.

(** [Array.prototype.map] with a callback that may throw. *)
Fixpoint mapM {E A B} (f : A -> E + B) (l : list A) : E + list B :=
  match l with
  | [] => inr []
  | x :: r => y <- f x ;; ys <- mapM f r ;; inr (y :: ys)
  end.

Definition asString (wrong : EntryError) (v : JsVal)
    : EntryError + jsstring :=
  match v with
  | VString s => inr s
  | _ => inl wrong
  end.

(** [g['#text'] || g], which has to be a string. *)
Definition graphemeText (g : JsVal) : EntryError + jsstring :=
  t <- getProp g (js "#text") ;;
  asString InvalidGraphemeFormat (orVal t g).

(** [v['#text'] || v || ''], which has to be a string. *)
Definition fieldText (wrong : EntryError) (v : JsVal)
    : EntryError + jsstring :=
  t <- getProp v (js "#text") ;;
  asString wrong (orVal (orVal t v) (VString [])).

Definition isControlUnit (c : N) : bool := ((c <=? 31) || (c =? 127))%N.

(** The [try] block of [processMergeFile] for one lexeme. *)
Definition parseMergeEntry (lex : JsVal) : EntryError + LexiconEntry :=
  gv <- getProp lex (js "grapheme") ;;
  gs <- match gv with
        | VArray items => mapM graphemeText items
        | _ => if truthyVal gv
               then (t <- graphemeText gv ;; inr [t])
               else inr []
        end ;;
  _ <- check (negb (length gs =? 0)%nat) NoGraphemes ;;
  _ <- check (forallb (fun g => JS.truthy g && JS.truthy (JS.trim g)) gs)
             EmptyGraphemes ;;
  av <- getProp lex (js "alias") ;;
  al <- (if truthyVal av then fieldText InvalidAliasFormat av else inr []) ;;
  pv <- getProp lex (js "phoneme") ;;
  ph <- (if truthyVal pv then fieldText InvalidPhonemeFormat pv else inr []) ;;
  _ <- check (JS.truthy al || JS.truthy ph) NoPronunciation ;;
  _ <- check (negb (existsb (fun c => (c =? JS.QUOTE)%N || (c =? JS.AMP)%N)
                            (List.concat gs)))
             ProblematicCharacters ;;
  _ <- check (negb (existsb (existsb isControlUnit) gs)) ControlCharacters ;;
  _ <- check (negb (existsb (fun g => (100 <? length g)%nat) gs))
             LongGraphemes ;;
  inr {| graphemes := gs; alias := Some al; aliasSayAsType := None;
         phoneme := Some ph; phonemeSayAsType := None; isNew := None |}.

(** The [forEach] over the lexemes: the parsed entries and the detailed
    errors, both in file order. *)
Fixpoint parseMergeEntries (index : nat) (lexes : list JsVal)
    : list LexiconEntry * list DetailedError :=
  match lexes with
  | [] => ([], [])
  | lex :: rest =>
      let '(parsed, errs) := parseMergeEntries (S index) rest in
      match parseMergeEntry lex with
      | inr e => (e :: parsed, errs)
      | inl err => (parsed, invalid_entry index err :: errs)
      end
  end.

(** [Array.isArray(v) ? v : v ? [v] : []]. *)
Definition asArray (v : JsVal) : list JsVal :=
  match v with
  | VArray items => items
  | _ => if truthyVal v then [v] else []
  end.

Definition withErrors (st : MergeState) (errs : list DetailedError)
    : MergeState :=
  {| entries := entries st; mergeFileContent := mergeFileContent st;
     mergeConflicts := mergeConflicts st;
     showConflictResolution := showConflictResolution st;
     showMergeModal := showMergeModal st;
     mergeDetailedErrors := errs;
     mergeSummary := mergeSummary st |}.

Definition withFileContent (st : MergeState) (l : list LexiconEntry)
    : MergeState :=
  {| entries := entries st; mergeFileContent := l;
     mergeConflicts := mergeConflicts st;
     showConflictResolution := showConflictResolution st;
     showMergeModal := showMergeModal st;
     mergeDetailedErrors := mergeDetailedErrors st;
     mergeSummary := mergeSummary st |}.

Definition propOr (v : EntryError + JsVal) : JsVal :=
  match v with inr x => x | inl _ => VUndefined end.

(** [processMergeFile] from the result of the XML parser on: [xml] is
    [None] where the parser throws. The handlers it calls read the state
    of the render they were created in, [st]; its own writes to
    [mergeFileContent] and [mergeDetailedErrors] come on top. *)
Definition processMergeFile (st : MergeState) (newLexiconLang : jsstring)
    (xml : option JsVal) : MergeState :=
  match xml with
  | None => withErrors st [xml_parse]
  | Some x =>
      let lexicon := propOr (getProp x (js "lexicon")) in
      if negb (truthyVal x) || negb (truthyVal lexicon)
      then withErrors st [invalid_lexicon]
      else
        let mergeFileLang :=
          orVal (orVal (propOr (getProp lexicon (js "@_xml:lang")))
                       (propOr (getProp lexicon (js "@_lang"))))
                (VString (js "en-US")) in
        if negb (match mergeFileLang with
                 | VString l => JS.eqb l newLexiconLang
                 | _ => false
                 end)
        then withErrors st [language_mismatch]
        else
          let allEntries :=
            asArray (propOr (getProp lexicon (js "entry")))
            ++ asArray (propOr (getProp lexicon (js "lexeme"))) in
          let '(parsed, errs) := parseMergeEntries 0 allEntries in
          match errs, parsed with
          | [], _ :: _ =>
              withErrors (analyzeConflicts (withFileContent st parsed) parsed)
                         errs
          | _, _ => withErrors (withFileContent st parsed) errs
          end
  end.

End Editor.

(** ** The CSV and TSV codecs *)

Definition expectedHeaders : list jsstring :=
  [js "grapheme"; js "alias"; js "alias_say_as"; js "phoneme";
   js "phoneme_say_as"].

(** The four cells that the rows of an entry share, after the grapheme. *)
Definition otherCells (e : LexiconEntry) : list jsstring :=
  [JS.orEmpty (alias e); JS.orEmpty (aliasSayAsType e);
   JS.orEmpty (phoneme e); JS.orEmpty (phonemeSayAsType e)].

Definition buildTSV (entries : list LexiconEntry) : jsstring :=
  let header := JS.join JS.TAB expectedHeaders in
  let rows :=
    header ::
    flat_map (fun entry =>
                map (fun grapheme =>
                       JS.join JS.TAB (grapheme :: otherCells entry))
                    (graphemes entry))
             entries in
  JS.join JS.LF rows.

(** The [replace] of [escapeCSV]: every quote becomes two quotes. *)
Definition doubleQuotes (value : jsstring) : jsstring :=
  flat_map (fun c => if (c =? JS.QUOTE)%N then [JS.QUOTE; JS.QUOTE] else [c])
           value.

Definition escapeCSV (value : jsstring) : jsstring :=
  if negb (JS.truthy value) then []
  else if JS.includesUnit value JS.COMMA || JS.includesUnit value JS.QUOTE
          || JS.includesUnit value JS.LF || JS.includesUnit value JS.CR
  then JS.QUOTE :: doubleQuotes value ++ [JS.QUOTE]
  else value.

Definition buildCSV (entries : list LexiconEntry) : jsstring :=
  let header := JS.join JS.COMMA expectedHeaders in
  let rows :=
    header ::
    flat_map (fun entry =>
                map (fun grapheme =>
                       JS.join JS.COMMA
                               (map escapeCSV (grapheme :: otherCells entry)))
                    (graphemes entry))
             entries in
  JS.join JS.LF rows.

(** The [while] loop of [parseCSVLine] on the rest of the line. *)
Fixpoint parseCSVLine_loop (line : jsstring) (current : jsstring)
    (inQuotes : bool) (result : list jsstring) : list jsstring :=
  match line with
  | [] => result ++ [current]
  | char :: rest =>
      if (char =? JS.QUOTE)%N then
        match rest with
        | nextChar :: rest' =>
            if inQuotes && (nextChar =? JS.QUOTE)%N
            then parseCSVLine_loop rest' (current ++ [JS.QUOTE]) inQuotes result
            else parseCSVLine_loop rest current (negb inQuotes) result
        | [] => parseCSVLine_loop rest current (negb inQuotes) result
        end
      else if (char =? JS.COMMA)%N && negb inQuotes
      then parseCSVLine_loop rest [] inQuotes (result ++ [current])
      else parseCSVLine_loop rest (current ++ [char]) inQuotes result
  end.

Definition parseCSVLine (line : jsstring) : list jsstring :=
  parseCSVLine_loop line [] false [].

Inductive ParseError := TooFewRows | WrongHeaders.

(** The [Map] from entry key to entry, in insertion order. *)
Definition EntryMap := list (jsstring * LexiconEntry).

Definition map_has (m : EntryMap) (key : jsstring) : bool :=
  existsb (fun kv => JS.eqb (fst kv) key) m.

Definition pushGrapheme (e : LexiconEntry) (g : jsstring) : LexiconEntry :=
  {| graphemes := graphemes e ++ [g]; alias := alias e;
     aliasSayAsType := aliasSayAsType e; phoneme := phoneme e;
     phonemeSayAsType := phonemeSayAsType e; isNew := isNew e |}.

(** [entryMap.get(key)!.graphemes.push(g)] for a key of the map. *)
Fixpoint map_push (m : EntryMap) (key : jsstring) (g : jsstring) : EntryMap :=
  match m with
  | [] => []
  | (k, e) :: r =>
      if JS.eqb k key then (k, pushGrapheme e g) :: r
      else (k, e) :: map_push r key g
  end.

(** [columns[i]?.trim() || '']; the index is the one of a header, which
    the header check has found. *)
Definition cell (columns : list jsstring) (i : option nat) : jsstring :=
  match i with
  | Some n => match nth_error columns n with
              | Some c => JS.trim c
              | None => []
              end
  | None => []
  end.

Definition entryKey (al alSayAs ph phSayAs : jsstring) : jsstring :=
  JS.join JS.PIPE [al; alSayAs; ph; phSayAs].

(** The body of the [forEach] over the data lines. *)
Definition addRow (splitLine : jsstring -> list jsstring)
    (headers : list jsstring) (entryMap : EntryMap) (line : jsstring)
    : EntryMap :=
  let columns := splitLine line in
  let grapheme := cell columns (JS.indexOf headers (js "grapheme")) in
  let al := cell columns (JS.indexOf headers (js "alias")) in
  let alSayAs := cell columns (JS.indexOf headers (js "alias_say_as")) in
  let ph := cell columns (JS.indexOf headers (js "phoneme")) in
  let phSayAs := cell columns (JS.indexOf headers (js "phoneme_say_as")) in
  if negb (JS.truthy grapheme) then entryMap
  else
    let key := entryKey al alSayAs ph phSayAs in
    let entryMap' :=
      if map_has entryMap key then entryMap
      else entryMap ++
           [(key, {| graphemes := []; alias := JS.orUndefined al;
                     aliasSayAsType := JS.orUndefined alSayAs;
                     phoneme := JS.orUndefined ph;
                     phonemeSayAsType := JS.orUndefined phSayAs;
                     isNew := None |})] in
    map_push entryMap' key grapheme.

(** A line that the decoders keep: not blank, and no [#] comment. *)
Definition isDataLine (line : jsstring) : bool :=
  negb (JS.startsWithUnit (JS.trim line) JS.HASH) && JS.truthy (JS.trim line).

(** [parseTSV] and [parseCSV] are one text in the source, but for the
    splitter of a line. *)
Definition parseRows (splitLine : jsstring -> list jsstring)
    (content : jsstring) : ParseError + list LexiconEntry :=
  let cleanContent :=
    if JS.startsWithUnit content JS.BOM then tl content else content in
  let lines := JS.split JS.LF cleanContent in
  let dataLines := filter isDataLine lines in
  match dataLines with
  | headerLine :: ((_ :: _) as rows) =>
      let headers := splitLine headerLine in
      if negb (forallb (JS.includes headers) expectedHeaders)
      then inl WrongHeaders
      else inr (map snd (fold_left (addRow splitLine headers) rows []))
  | _ => inl TooFewRows
  end.

Definition parseTSV : jsstring -> ParseError + list LexiconEntry :=
  parseRows (JS.split JS.TAB).

Definition parseCSV : jsstring -> ParseError + list LexiconEntry :=
  parseRows parseCSVLine.

(** ** The statements of the specification *)

Section Statements.

Context {R : JsRuntime}.

(** Non-decreasing case-insensitive first-grapheme order. *)
Definition entryLe (a b : LexiconEntry) : Prop :=
  (localeCompare (firstGraphemeKey a) (firstGraphemeKey b) <= 0)%Z.

Definition ordered (l : list LexiconEntry) : Prop := Sorted entryLe l.

(** The index of the ordering engine as the specification words it: the
    first index whose entry's key is greater than or equal to the new
    key, or the length. *)
Fixpoint firstIndexGeq_from (i : nat) (entries : list LexiconEntry)
    (newGrapheme : jsstring) : nat :=
  match entries with
  | [] => i
  | e :: rest =>
      if (0 <=? localeCompare (firstGraphemeKey e) newGrapheme)%Z then i
      else firstIndexGeq_from (S i) rest newGrapheme
  end.

Definition firstIndexGeq (entries : list LexiconEntry)
    (newEntry : LexiconEntry) : nat :=
  firstIndexGeq_from 0 entries (firstGraphemeKey newEntry).

(** Two entries share a grapheme, case-insensitively. *)
Definition overlap (m e : LexiconEntry) : Prop :=
  exists mg g, In mg (graphemes m) /\ In g (graphemes e)
               /\ toLowerCase mg = toLowerCase g.

(** A master list that merges with itself without conflict: every entry
    has a grapheme, and entries that share a grapheme are identical. *)
Definition selfConsistent (l : list LexiconEntry) : Prop :=
  Forall (fun e => graphemes e <> []) l
  /\ forall m e, In m l -> In e l -> overlap m e -> areIdentical m e = true.

(** The graphemes of resolution [both] as the specification words
    them: the master's, then the incoming ones that no master grapheme
    equals case-insensitively. *)
Definition unionGraphemes (m e : LexiconEntry) : list jsstring :=
  graphemes m
  ++ filter (fun g =>
               forallb (fun mg => negb (JS.eqb (toLowerCase mg)
                                               (toLowerCase g)))
                       (graphemes m))
            (graphemes e).

End Statements.

(** The incoming value of a field where it is non-empty, else the
    master's. *)
Definition incomingOrMaster (incoming masterValue : option jsstring)
    : option jsstring :=
  match incoming with
  | Some (_ :: _) => incoming
  | _ => masterValue
  end.

Definition noSayAs (e : LexiconEntry) : Prop :=
  aliasSayAsType e = None /\ phonemeSayAsType e = None.

(** The three conditions of validation as the specification words them:
    the third one is on the phoneme as it is. *)
Definition hasRealGrapheme (e : LexiconEntry) : Prop :=
  exists g, In g (graphemes e) /\ JS.trim g <> [] /\ g <> NEW_ENTRY.

Definition hasContent (e : LexiconEntry) : Prop :=
  trimmedField (alias e) <> [] \/ trimmedField (phoneme e) <> [].

Definition statedValid (e : LexiconEntry) : Prop :=
  hasRealGrapheme e /\ hasContent e
  /\ (JS.orEmpty (phoneme e) <> [] ->
      Forall (fun c => validIpaChar c = true) (JS.orEmpty (phoneme e))).

(** The same, the third condition on the phoneme after trimming. *)
Definition valid (e : LexiconEntry) : Prop :=
  hasRealGrapheme e /\ hasContent e
  /\ (trimmedField (phoneme e) <> [] ->
      Forall (fun c => validIpaChar c = true) (JS.orEmpty (phoneme e))).

(** The same five fields, an absent field and an empty one being one. *)
Definition sameFields (e d : LexiconEntry) : Prop :=
  graphemes d = graphemes e
  /\ JS.orEmpty (alias d) = JS.orEmpty (alias e)
  /\ JS.orEmpty (aliasSayAsType d) = JS.orEmpty (aliasSayAsType e)
  /\ JS.orEmpty (phoneme d) = JS.orEmpty (phoneme e)
  /\ JS.orEmpty (phonemeSayAsType d) = JS.orEmpty (phonemeSayAsType e).

(** The content invariant of the data model. *)
Definition contentInvariant (e : LexiconEntry) : Prop :=
  graphemes e <> []
  /\ (JS.orEmpty (alias e) <> [] \/ JS.orEmpty (phoneme e) <> []).

(** A cell that a TSV row carries as it is: no surrounding white space,
    no line feed, no tab. *)
Definition tsvCell (s : jsstring) : Prop :=
  JS.trim s = s /\ JS.includesUnit s JS.LF = false
  /\ JS.includesUnit s JS.TAB = false.

(** A cell that a CSV row carries as it is: commas and quotes are
    escaped, a line feed is not. *)
Definition csvCell (s : jsstring) : Prop :=
  JS.trim s = s /\ JS.includesUnit s JS.LF = false.

(** An entry whose rows decode cell by cell. *)
Definition exportable (cellOk : jsstring -> Prop) (e : LexiconEntry) : Prop :=
  graphemes e <> []
  /\ Forall (fun g => cellOk g /\ g <> []
                      /\ JS.startsWithUnit g JS.HASH = false)
            (graphemes e)
  /\ Forall cellOk (otherCells e).

(** The key under which the decoders group the rows of an entry. *)
Definition rowKey (e : LexiconEntry) : jsstring :=
  JS.join JS.PIPE (otherCells e).

(** What the decoders make of the rows of an exportable entry. *)
Definition decoded (e : LexiconEntry) : LexiconEntry :=
  {| graphemes := graphemes e;
     alias := JS.orUndefined (JS.orEmpty (alias e));
     aliasSayAsType := JS.orUndefined (JS.orEmpty (aliasSayAsType e));
     phoneme := JS.orUndefined (JS.orEmpty (phoneme e));
     phonemeSayAsType := JS.orUndefined (JS.orEmpty (phonemeSayAsType e));
     isNew := None |}.

(** The rows of an entry and the text of a list, for a way [mkRow] to
    write a row from its cells: [buildTSV] and [buildCSV] are the two
    instances. *)
Definition rowsOf (mkRow : list jsstring -> jsstring) (e : LexiconEntry)
    : list jsstring :=
  map (fun g => mkRow (g :: otherCells e)) (graphemes e).

Definition encodeWith (mkRow : list jsstring -> jsstring)
    (es : list LexiconEntry) : jsstring :=
  JS.join JS.LF (mkRow expectedHeaders :: flat_map (rowsOf mkRow) es).

Definition csvRow (cells : list jsstring) : jsstring :=
  JS.join JS.COMMA (map escapeCSV cells).

(** The entry that the decoders create for the key of [e]. *)
Definition created (e : LexiconEntry) (gs : list jsstring) : LexiconEntry :=
  {| graphemes := gs;
     alias := JS.orUndefined (JS.orEmpty (alias e));
     aliasSayAsType := JS.orUndefined (JS.orEmpty (aliasSayAsType e));
     phoneme := JS.orUndefined (JS.orEmpty (phoneme e));
     phonemeSayAsType := JS.orUndefined (JS.orEmpty (phonemeSayAsType e));
     isNew := None |}.

(** A field of a decoded entry: absent, or not empty and trimmed. *)
Definition trimmedOrAbsent (o : option jsstring) : Prop :=
  match o with
  | None => True
  | Some s => s <> [] /\ JS.trim s = s
  end.

Definition wellDecoded (e : LexiconEntry) : Prop :=
  graphemes e <> []
  /\ Forall (fun g => g <> [] /\ JS.trim g = g) (graphemes e)
  /\ trimmedOrAbsent (alias e) /\ trimmedOrAbsent (aliasSayAsType e)
  /\ trimmedOrAbsent (phoneme e) /\ trimmedOrAbsent (phonemeSayAsType e).

(** ** Example data *)

Module Examples.

Definition word (g ph : jsstring) : LexiconEntry :=
  {| graphemes := [g]; alias := None; aliasSayAsType := None;
     phoneme := Some ph; phonemeSayAsType := None; isNew := None |}.

(** The entry with another alias: a field that is absent, or a string,
    the empty one for none. *)
Definition aliased (a : option jsstring) (e : LexiconEntry) : LexiconEntry :=
  {| graphemes := graphemes e; alias := a;
     aliasSayAsType := aliasSayAsType e; phoneme := phoneme e;
     phonemeSayAsType := phonemeSayAsType e; isNew := isNew e |}.

Definition emptyState (l : list LexiconEntry) : MergeState :=
  {| entries := l; mergeFileContent := []; mergeConflicts := [];
     showConflictResolution := false; showMergeModal := true;
     mergeDetailedErrors := []; mergeSummary := None |}.

Definition cat := word (js "cat") (js "kæt").
Definition Cat := word (js "Cat") (js "kæt").
Definition cat_kat := word (js "cat") (js "kat").

(** Two homographs. *)
Definition read_present := word (js "read") (js "riːd").
Definition read_past := word (js "read") (js "rɛd").

(** Two spellings of one pronunciation, as two entries. *)
Definition dog := word (js "dog") (js "dɒg").
Definition hound := word (js "hound") (js "dɒg").

(** What the decoders make of the rows of [dog] and [hound]. *)
Definition dog_hound : LexiconEntry :=
{| graphemes := [js "dog"; js "hound"]; alias := None;
   aliasSayAsType := None; phoneme := Some (js "dɒg");
   phonemeSayAsType := None; isNew := None |}.

(** An entry with an alias and a phoneme that is one tab. *)
Definition tabbed : LexiconEntry :=
  {| graphemes := [js "a"]; alias := Some (js "x"); aliasSayAsType := None;
     phoneme := Some [JS.TAB]; phonemeSayAsType := None; isNew := None |}.

(** A master entry with a say-as tag, and a lexeme of a merge file as the
    XML parser hands it over. *)
Definition cat_tagged : LexiconEntry :=
{| graphemes := [js "cat"]; alias := None; aliasSayAsType := None;
   phoneme := Some (js "kæt"); phonemeSayAsType := Some (js "characters");
   isNew := None |}.

Definition lexeme_cat_kat : JsVal :=
VObject [(js "grapheme", VString (js "cat"));
         (js "phoneme", VString (js "kat"))].

(** A CSV file with a blank alias cell, and a row whose grapheme cell is
    blank. *)
Definition csv_with_blanks : jsstring :=
JS.join JS.LF [JS.join JS.COMMA expectedHeaders;
               js " cat ,   ,,kat,";
               js "  ,x,,y,"].

Definition pendingConflict : MergeConflict :=
  {| type := conflict; masterEntry := cat; mergeEntry := cat_kat;
     masterIndex := 0; mergeIndex := 0; commonGraphemes := [js "cat"];
     resolution := None |}.

Definition pendingState : MergeState :=
  {| entries := [cat]; mergeFileContent := [cat_kat];
     mergeConflicts := [pendingConflict];
     showConflictResolution := true; showMergeModal := false;
     mergeDetailedErrors := []; mergeSummary := None |}.

End Examples.

(** ** The validation errors and the handlers of the entry panel *)

(** The object [validationErrors], from the index of an entry to its
    messages. The keys of an object that are array indices are
    enumerated in ascending order, and an assignment to a key that is
    there replaces its value. *)
Definition ErrorMap := list (nat * list string).

(** [m[k]]; [None] is [undefined]. *)
Fixpoint obj_get (m : ErrorMap) (k : nat) : option (list string) :=
  match m with
  | [] => None
  | (k', v) :: r => if (k' =? k)%nat then Some v else obj_get r k
  end.

(** [m[k] = v]. *)
Fixpoint obj_set (m : ErrorMap) (k : nat) (v : list string) : ErrorMap :=
  match m with
  | [] => [(k, v)]
  | (k', v') :: r =>
      if (k <? k')%nat then (k, v) :: m
      else if (k =? k')%nat then (k, v) :: r
      else (k', v') :: obj_set r k v
  end.

(** [delete m[k]]. *)
Definition obj_delete (m : ErrorMap) (k : nat) : ErrorMap :=
  filter (fun kv => negb (fst kv =? k)%nat) m.

(** [Object.keys(m)], the keys parsed back with [parseInt]. *)
Definition obj_keys (m : ErrorMap) : list nat := map fst m.

(** The state update of [updateValidationErrors]. *)
Definition updateValidationErrors (prev : ErrorMap) (entryIndex : nat)
    (entry : LexiconEntry) : ErrorMap :=
  let errors := validateEntry entry entryIndex in
  if (0 <? length errors)%nat then obj_set prev entryIndex errors
  else obj_delete prev entryIndex.

(** The entry list and the selection, with the validation errors and the
    warning under the phoneme box ([true]: the warning that invalid
    characters were removed is set). *)
Record Editor := {
  selection : Selection;
  validationErrors : ErrorMap;
  phonemeInputWarning : bool
}.

(** The state update of [handleDeleteEntry] on the validation errors:
    the errors before the deleted index stay, the ones after it move
    down by one. Every key that [Object.keys] lists has a value. *)
Definition shiftedErrors (prev : ErrorMap) (selectedIndex : nat) : ErrorMap :=
  fold_left
    (fun newErrors index =>
       match obj_get prev index with
       | Some errs =>
           if (index <? selectedIndex)%nat then obj_set newErrors index errs
           else if (selectedIndex <? index)%nat
                then obj_set newErrors (index - 1) errs
                else newErrors
       | None => newErrors
       end)
    (obj_keys prev) [].

Definition handleDeleteEntry (st : Editor) : Editor :=
  match selectedIndex (selection st) with
  | None => st
  | Some sel =>
      {| selection :=
           {| sel_entries := JS.removeAt (sel_entries (selection st)) sel;
              selectedIndex := None |};
         validationErrors := shiftedErrors (validationErrors st) sel;
         phonemeInputWarning := phonemeInputWarning st |}
  end.




Definition withPhoneme (e : LexiconEntry) (value : jsstring) : LexiconEntry :=
  {| graphemes := graphemes e; alias := alias e;
     aliasSayAsType := aliasSayAsType e; phoneme := Some value;
     phonemeSayAsType := phonemeSayAsType e; isNew := isNew e |}.


(** What the handlers of the fields of the selected entry share: the
    entry is replaced by its update, and, where the handler calls
    [updateValidationErrors], validated under its index. Without a
    selection the handler returns at once; [None] where the selected
    index names no entry. *)
Definition writeSelected (st : Editor)
    (update : LexiconEntry -> LexiconEntry) (revalidate : bool)
    : option Editor :=
  match selectedIndex (selection st) with
  | None => Some st
  | Some sel =>
      match nth_error (sel_entries (selection st)) sel with
      | None => None
      | Some cur =>
          let updatedEntry := update cur in
          Some {| selection :=
                    {| sel_entries :=
                         replaceAt (sel_entries (selection st)) sel
                                   updatedEntry;
                       selectedIndex := Some sel |};
                  validationErrors :=
                    if revalidate
                    then updateValidationErrors (validationErrors st) sel
                                                updatedEntry
                    else validationErrors st;
                  phonemeInputWarning := phonemeInputWarning st |}
      end
  end.






(** [filterPhonemeInput]: the global match of the class lists its code
    units in the value, one by one; [filtered] and [hasInvalidChars]. *)
Definition filterPhonemeInput (value : jsstring) : jsstring * bool :=
  let filtered := filter validIpaChar value in
  (filtered, negb (length filtered =? length value)%nat).

Definition handlePhonemeChange (st : Editor) (value : jsstring)
    : option Editor :=
  let '(filtered, hasInvalidChars) := filterPhonemeInput value in
  match selectedIndex (selection st) with
  | None => Some st
  | Some _ =>
      option_map
        (fun st' =>
           {| selection := selection st';
              validationErrors := validationErrors st';
              phonemeInputWarning :=
                if hasInvalidChars then true else phonemeInputWarning st' |})
        (writeSelected st (fun e => withPhoneme e filtered) true)
  end.

(** The message of the third rule of [validateEntry]. *)
Definition invalidPhonemeMessage : string :=
  "Phoneme contains invalid characters (imported entries may need manual correction)".

(** The index that a position of the list had before the entry at
    [sel] was deleted. *)
Definition indexBeforeDelete (sel j : nat) : nat :=
  if (j <? sel)%nat then j else S j.

(** ** The merge preview *)

(** [l.join(sep)] for any separator. *)
Fixpoint joinWith (sep : jsstring) (l : list jsstring) : jsstring :=
  match l with
  | [] => []
  | [x] => x
  | x :: r => x ++ sep ++ joinWith sep r
  end.

(** The decimal digits of [n], most significant first, before [acc]. *)
Fixpoint digits (fuel n : nat) (acc : jsstring) : jsstring :=
  match fuel with
  | O => acc
  | S fuel' =>
      let acc' := N.of_nat (48 + n mod 10) :: acc in
      if (n <? 10)%nat then acc' else digits fuel' (n / 10) acc'
  end.

(** [String(n)] for a natural number, as a template literal has it. *)
Definition ofNumber (n : nat) : jsstring := digits (S n) n [].

Inductive IssueType := issue_conflict | issue_duplicate | issue_error.

Record PotentialIssue := {
  issueType : IssueType;
  message : jsstring;
  issueEntry : option LexiconEntry
}.

(** The value that [analyzeMergePreview] writes to [mergePreview]. *)
Record MergePreview := {
  preview_newEntries : nat;
  preview_conflicts : nat;
  autoMerged : nat;
  preview_identicalSkipped : nat;
  preview_errors : nat;
  potentialIssues : list PotentialIssue
}.

(** The graphemes of an entry between quotes, joined by a comma and a
    space. *)
Definition quotedGraphemes (e : LexiconEntry) : jsstring :=
  JS.QUOTE :: joinWith (js ", ") (graphemes e) ++ [JS.QUOTE].

Section Preview.

Context {R : JsRuntime}.

(** The body of the inner [forEach] of [analyzeMergePreview]: the
    counters [conflicts] and [identicalSkipped] and the issues. *)
Definition previewPair (mergeEntry : LexiconEntry)
    (acc : nat * nat * list PotentialIssue) (masterEntry : LexiconEntry)
    : nat * nat * list PotentialIssue :=
  let '(conflicts, identicalSkipped, issues) := acc in
  if areIdentical masterEntry mergeEntry
  then (conflicts, S identicalSkipped, issues)
  else if arePhoneticallyIdentical masterEntry mergeEntry then
    (S conflicts, identicalSkipped,
     issues ++
     [{| issueType := issue_conflict;
         message := js "Case difference: " ++ quotedGraphemes mergeEntry
                    ++ js " vs existing " ++ quotedGraphemes masterEntry
                    ++ js " (same phoneme)";
         issueEntry := Some mergeEntry |}])
  else
    let isAdditionalAlias :=
      JS.opt_eqb (phoneme masterEntry) (phoneme mergeEntry)
      && negb (JS.opt_eqb (optLower (alias masterEntry))
                          (optLower (alias mergeEntry))) in
    (S conflicts, identicalSkipped,
     issues ++
     [{| issueType := issue_conflict;
         message := js "Conflict: " ++ quotedGraphemes mergeEntry
                    ++ js " vs existing " ++ quotedGraphemes masterEntry
                    ++ js " ("
                    ++ (if isAdditionalAlias then js "different aliases"
                        else js "different phonemes")
                    ++ js ")";
         issueEntry := Some mergeEntry |}]).

(** The body of the outer [forEach] of [analyzeMergePreview]. *)
Definition previewEntry (masterEntries : list LexiconEntry)
    (acc : nat * nat * nat * list PotentialIssue) (mergeEntry : LexiconEntry)
    : nat * nat * nat * list PotentialIssue :=
  let '(newEntries, conflicts, identicalSkipped, issues) := acc in
  let mergeGraphemes := lowerGraphemes mergeEntry in
  let matchingMasterEntries :=
    filter (sharesGrapheme mergeGraphemes) masterEntries in
  if (0 <? length matchingMasterEntries)%nat then
    let '(conflicts', identicalSkipped', issues') :=
      fold_left (previewPair mergeEntry) matchingMasterEntries
                (conflicts, identicalSkipped, issues) in
    (newEntries, conflicts', identicalSkipped', issues')
  else (S newEntries, conflicts, identicalSkipped, issues).

(** [analyzeMergePreview]; the errors are the detailed errors of the
    render that the handler was created in. *)
Definition analyzeMergePreview (st : MergeState)
    (mergeEntries : list LexiconEntry) : MergePreview :=
  let '(newEntries, conflicts, identicalSkipped, issues) :=
    fold_left (previewEntry (entries st)) mergeEntries
              (0%nat, 0%nat, 0%nat, []) in
  let errors := length (mergeDetailedErrors st) in
  {| preview_newEntries := newEntries;
     preview_conflicts := conflicts;
     autoMerged := 0;
     preview_identicalSkipped := identicalSkipped;
     preview_errors := errors;
     potentialIssues :=
       issues ++
       (if (0 <? errors)%nat
        then [{| issueType := issue_error;
                 message := js "🚫 BLOCKING: " ++ ofNumber errors
                            ++ js " entries have errors - merge cannot proceed until fixed";
                 issueEntry := None |}]
        else []) |}.

(** An incoming entry that shares no grapheme with an entry of the
    list. *)
Definition unmatched (masterEntries : list LexiconEntry)
    (mergeEntry : LexiconEntry) : bool :=
  negb (existsb (sharesGrapheme (lowerGraphemes mergeEntry)) masterEntries).

(** The incoming entries that [finalizeMerge] appends: the ones that
    share no grapheme with an incoming entry of a conflict, nor with a
    master entry. *)
Definition appended (st : MergeState) (e : LexiconEntry) : bool :=
  negb (existsb (fun c => sharesGrapheme (lowerGraphemes e) (mergeEntry c))
                (mergeConflicts st))
  && unmatched (entries st) e.

End Preview.

(** A conflict that has its resolution. *)
Definition resolved (c : MergeConflict) : bool :=
  match resolution c with Some _ => true | None => false end.

(** A grapheme that [processMergeFile] accepts: not blank, of at most a
    hundred code units, without a quote, an ampersand or a control
    character. *)
Definition cleanGrapheme (g : jsstring) : Prop :=
  JS.trim g <> [] /\ (length g <= 100)%nat
  /\ Forall (fun c => c <> JS.QUOTE /\ c <> JS.AMP /\ isControlUnit c = false)
            g.

(** ** Export, and what the decoders make of an export *)

(** The last [n] elements, and all but the last [n]: [s.slice(-n)] and
    [s.slice(0, -n)] on a string of at least [n] code units. *)
Definition lastn {A} (n : nat) (l : list A) : list A :=
  skipn (length l - n) l.

Definition dropLast {A} (n : nat) (l : list A) : list A :=
  firstn (length l - n) l.

(** [s.endsWith(suffix)]. *)
Definition endsWith (s suffix : jsstring) : bool :=
  (length suffix <=? length s)%nat
  && JS.eqb (lastn (length suffix) s) suffix.

(** The canonical form of a code unit under the flag [i] of a regular
    expression without the flag [u]: the upper case letter for a Basic
    Latin letter; no other code unit is matched by a Basic Latin
    letter. *)
Definition canonicalUnit (c : N) : N :=
  if ((97 <=? c) && (c <=? 122))%N then (c - 32)%N else c.

(** A match of [/suffix$/i] for a suffix of Basic Latin characters. *)
Definition endsWithIgnoreCase (s suffix : jsstring) : bool :=
  (length suffix <=? length s)%nat
  && JS.eqb (map canonicalUnit (lastn (length suffix) s))
            (map canonicalUnit suffix).

(** [name.replace(/\.(xml|tsv)$/i, '')]. *)
Definition stripExportSuffix (name : jsstring) : jsstring :=
  if endsWithIgnoreCase name (js ".xml") || endsWithIgnoreCase name (js ".tsv")
  then dropLast 4 name else name.

Inductive ExportFormat := format_xml | format_tsv.

(** The file that [handleExportFormat] hands to the browser: the text
    that is encoded into it, its MIME type and its name. *)
Record Download := {
  download_content : jsstring;
  download_type : jsstring;
  download_name : jsstring
}.

(** [handleExportFormat]; [xml] is the text that [buildXML] returns. *)
Definition handleExportFormat (format : ExportFormat) (xml : jsstring)
    (entries : list LexiconEntry) (currentFile : jsstring) : Download :=
  let '(content, mimeType, extension) :=
    match format with
    | format_xml => (xml, js "text/xml", js ".xml")
    | format_tsv => (buildCSV entries, js "text/csv; charset=utf-8", js ".csv")
    end in
  {| download_content := JS.BOM :: content;
     download_type := mimeType;
     download_name := stripExportSuffix currentFile ++ extension |}.

(** What the decoders make of the rows of one more entry: where the map
    has the key of the entry, the entry under the key takes the
    graphemes; else a new entry is appended for them. *)
Definition absorb (m : EntryMap) (e : LexiconEntry) : EntryMap :=
  fold_left (fun m' g => map_push m' (rowKey e) g) (graphemes e)
            (if map_has m (rowKey e) then m
             else m ++ [(rowKey e, created e [])]).

(** A list of entries with the entries of one key merged into the first
    of them. *)
Definition regrouped (es : list LexiconEntry) : list LexiconEntry :=
  map snd (fold_left absorb es []).

(** The graphemes of a list of entries, in order. *)
Definition allGraphemes (es : list LexiconEntry) : list jsstring :=
  flat_map graphemes es.

(** A line of a file that holds no line feed and does not start with a
    byte-order mark. *)
Definition plainLine (line : jsstring) : Prop :=
  JS.includesUnit line JS.LF = false
  /\ JS.startsWithUnit line JS.BOM = false.

(** ** The lexicon file: new, save, save as, duplicate *)

(** The entry panel with the entries as they were saved last, the name
    of the current file, the language of the lexicon and the list of
    lexicon files. *)
Record Workspace := {
  editor : Editor;
  savedEntries : list LexiconEntry;
  currentFile : jsstring;
  newLexiconLang : jsstring;
  blobList : list jsstring
}.

Definition ws_entries (ws : Workspace) : list LexiconEntry :=
  sel_entries (selection (editor ws)).

Definition isOnlyPlaceholder (entries : list LexiconEntry) : bool :=
  match entries with
  | [e] =>
      match graphemes e with
      | [g] => JS.eqb g NEW_ENTRY && negb (JS.opt_truthy (alias e))
               && negb (JS.opt_truthy (phoneme e))
      | _ => false
      end
  | _ => false
  end.

Definition isEmptyLexicon (entries : list LexiconEntry) : bool :=
  (length entries =? 0)%nat || isOnlyPlaceholder entries.

(** A code unit of the class [[a-zA-Z0-9-_]]. *)
Definition nameUnit (c : N) : bool :=
  ((97 <=? c) && (c <=? 122) || (65 <=? c) && (c <=? 90)
   || (48 <=? c) && (c <=? 57) || (c =? 45) || (c =? 95))%N.

(** [/^[a-zA-Z0-9-_]+\.xml$/.test(name)]. *)
Definition validLexiconName (name : jsstring) : bool :=
  endsWith name (js ".xml")
  && JS.truthy (dropLast 4 name) && forallb nameUnit (dropLast 4 name).

(** The entry that [handleCreateNewLexicon] starts a lexicon with. *)
Definition placeholderEntry : LexiconEntry :=
  {| graphemes := [NEW_ENTRY]; alias := Some []; aliasSayAsType := None;
     phoneme := Some []; phonemeSayAsType := None; isNew := Some true |}.

(** [prev.includes(name) ? prev : [name, ...prev]]. *)
Definition withBlob (name : jsstring) (prev : list jsstring) : list jsstring :=
  if JS.includes prev name then prev else name :: prev.

(** The messages that [handleCreateNewLexicon] writes to
    [newLexiconError]: to enter a name, to select a language, and that
    the name must contain only letters, numbers, hyphens and
    underscores. *)
Inductive NewLexiconError := enter_a_name | select_a_language | invalid_name.

(** [{ graphemes, alias, aliasSayAsType, phoneme, phonemeSayAsType }] of
    an entry: the entry without its [isNew] mark. *)
Definition cleanedEntry (e : LexiconEntry) : LexiconEntry :=
  {| graphemes := graphemes e; alias := alias e;
     aliasSayAsType := aliasSayAsType e; phoneme := phoneme e;
     phonemeSayAsType := phonemeSayAsType e; isNew := None |}.

(** [{ graphemes: [...graphemes], alias, phoneme }] of an entry. *)
Definition duplicatedEntry (e : LexiconEntry) : LexiconEntry :=
  {| graphemes := graphemes e; alias := alias e; aliasSayAsType := None;
     phoneme := phoneme e; phonemeSayAsType := None; isNew := None |}.

(** One element of [errorDetails] in [handleSaveLexicon]. *)
Record ErrorDetail := {
  detail_index : nat;
  detail_grapheme : jsstring;
  detail_errors : string
}.

(** [errorDetails.sort((a, b) => a.index - b.index)]; the sort is
    stable. *)
Fixpoint insertDetail (d : ErrorDetail) (l : list ErrorDetail)
    : list ErrorDetail :=
  match l with
  | [] => [d]
  | x :: r => if (detail_index d <=? detail_index x)%nat then d :: l
              else x :: insertDetail d r
  end.

Definition sortDetails (l : list ErrorDetail) : list ErrorDetail :=
  fold_right insertDetail [] l.

(** [entry?.graphemes?.[0] || `Entry ${entryIndex + 1}`]. *)
Definition detailLabel (entries : list LexiconEntry) (entryIndex : nat)
    : jsstring :=
  let fallback := js "Entry " ++ ofNumber (entryIndex + 1) in
  match nth_error entries entryIndex with
  | Some entry =>
      match graphemes entry with
      | g :: _ => if JS.truthy g then g else fallback
      | [] => fallback
      end
  | None => fallback
  end.

Definition errorDetailsOf (entries : list LexiconEntry) (errs : ErrorMap)
    : list ErrorDetail :=
  sortDetails
    (map (fun ie =>
            {| detail_index := fst ie;
               detail_grapheme := detailLabel entries (fst ie);
               detail_errors := String.concat ", " (snd ie) |})
         errs).

(** [`"${e.grapheme}": ${e.errors}`]. *)
Definition renderDetail (d : ErrorDetail) : jsstring :=
  JS.QUOTE :: detail_grapheme d ++ [JS.QUOTE] ++ js ": "
  ++ JS.lit (detail_errors d).

Definition cannotSaveMessage (errorCount : nat) (details : list ErrorDetail)
    : jsstring :=
  js "Cannot save: " ++ ofNumber errorCount ++ js " "
  ++ (if (errorCount =? 1)%nat then js "entry" else js "entries")
  ++ js " with validation errors. "
  ++ (if (length details <=? 3)%nat
      then joinWith (js "; ") (map renderDetail details)
      else joinWith (js "; ") (map renderDetail (firstn 3 details))
           ++ js "; and " ++ ofNumber (length details - 3)
           ++ js " more. See selected entry for details.").

(** What [handleSaveLexicon] does besides its writes to the workspace:
    it opens the Save As dialog, or shows an error toast without
    calling [saveLexicon], or calls it and shows the success toast or
    the error toast of a failed call. *)
Inductive SaveOutcome :=
| save_as_opened
| save_refused (message : jsstring)
| save_done (message : jsstring)
| save_failed (message : jsstring).

Definition withSelectedIndex (ws : Workspace) (i : option nat) : Workspace :=
  {| editor :=
       {| selection := {| sel_entries := ws_entries ws; selectedIndex := i |};
          validationErrors := validationErrors (editor ws);
          phonemeInputWarning := phonemeInputWarning (editor ws) |};
     savedEntries := savedEntries ws; currentFile := currentFile ws;
     newLexiconLang := newLexiconLang ws; blobList := blobList ws |}.

Definition withCurrentFile (ws : Workspace) (name : jsstring) : Workspace :=
  {| editor := editor ws; savedEntries := savedEntries ws;
     currentFile := name; newLexiconLang := newLexiconLang ws;
     blobList := blobList ws |}.

(** [handleSaveLexicon]; [failure] is the message of the error that the
    call of [saveLexicon] throws, [None] where it returns. The first
    element of [errorDetails] is there where the object of the
    validation errors has a key. *)
Definition handleSaveLexicon (ws : Workspace) (failure : option jsstring)
    : Workspace * SaveOutcome :=
  let errs := validationErrors (editor ws) in
  if negb (JS.truthy (currentFile ws)) then (ws, save_as_opened)
  else if isOnlyPlaceholder (ws_entries ws)
  then (ws, save_refused (js "Cannot save: Add at least one real entry."))
  else if (0 <? length (obj_keys errs))%nat then
    let errorCount := length (obj_keys errs) in
    let errorDetails := errorDetailsOf (ws_entries ws) errs in
    let firstErrorIndex :=
      match errorDetails with d :: _ => detail_index d | [] => 0%nat end in
    (withSelectedIndex ws (Some firstErrorIndex),
     save_refused (cannotSaveMessage errorCount errorDetails))
  else
    match failure with
    | None =>
        let cleanedEntries := map cleanedEntry (ws_entries ws) in
        ({| editor :=
              {| selection :=
                   {| sel_entries := cleanedEntries;
                      selectedIndex := selectedIndex (selection (editor ws)) |};
                 validationErrors := [];
                 phonemeInputWarning := false |};
            savedEntries := cleanedEntries; currentFile := currentFile ws;
            newLexiconLang := newLexiconLang ws; blobList := blobList ws |},
         save_done (js "Lexicon saved successfully"))
    | Some message =>
        (ws, save_failed (js "Error saving lexicon: "
                          ++ (if JS.truthy message then message
                              else js "Unknown error")))
    end.

(** [saveLexicon] was called. *)
Definition attempted (o : SaveOutcome) : bool :=
  match o with
  | save_done _ | save_failed _ => true
  | save_as_opened | save_refused _ => false
  end.

(** What [handleSaveAsConfirm] does besides its write to the current
    file: it reports an empty name or a name with a slash, or closes the
    dialog for the name of the current file, or opens the overwrite
    dialog for the name of an existing file, or saves under the name. *)
Inductive SaveAsOutcome :=
| name_empty
| name_has_slash
| same_file
| ask_overwrite (name : jsstring)
| saved_as (name : jsstring).

Definition SLASH : N := 47.
Definition BACKSLASH : N := 92.

Section Files.

Context {R : JsRuntime}.

(** [handleCreateNewLexicon] on the name that the dialog holds; an
    error leaves the workspace as it is. *)
Definition handleCreateNewLexicon (ws : Workspace)
    (newLexiconName : jsstring) : NewLexiconError + Workspace :=
  if negb (JS.truthy (JS.trim newLexiconName)) then inl enter_a_name
  else if negb (JS.truthy (newLexiconLang ws)) then inl select_a_language
  else
    let trimmed := JS.trim newLexiconName in
    let finalName :=
      if negb (endsWith (toLowerCase trimmed) (js ".xml"))
      then trimmed ++ js ".xml" else trimmed in
    if negb (validLexiconName finalName) then inl invalid_name
    else
      inr {| editor :=
               {| selection :=
                    {| sel_entries := [placeholderEntry];
                       selectedIndex := None |};
                  validationErrors := [];
                  phonemeInputWarning := false |};
             savedEntries := [];
             currentFile := finalName;
             newLexiconLang := newLexiconLang ws;
             blobList := withBlob finalName (blobList ws) |}.

(** The name that [handleSaveAsConfirm] saves under. *)
Definition saveAsName (saveAsFilename : jsstring) : jsstring :=
  let newFilename := JS.trim saveAsFilename in
  if negb (endsWith (toLowerCase newFilename) (js ".xml"))
  then newFilename ++ js ".xml"
  else dropLast 4 newFilename ++ js ".xml".

(** [handleSaveAsConfirm] on the name of the dialog; [existingFiles] is
    the list that [listLexiconFiles] returns, and the call of
    [saveLexicon] returns. *)
Definition handleSaveAsConfirm (ws : Workspace) (saveAsFilename : jsstring)
    (existingFiles : list jsstring) : Workspace * SaveAsOutcome :=
  if negb (JS.truthy (JS.trim saveAsFilename)) then (ws, name_empty)
  else
    let newFilename := saveAsName saveAsFilename in
    if JS.includesUnit newFilename SLASH
       || JS.includesUnit newFilename BACKSLASH
    then (ws, name_has_slash)
    else if JS.eqb newFilename (currentFile ws) then (ws, same_file)
    else if JS.includes existingFiles newFilename
    then (ws, ask_overwrite newFilename)
    else (withCurrentFile ws newFilename, saved_as newFilename).

End Files.

(** [name.replace(/\.xml$/i, '')]. *)
Definition stripXmlSuffix (name : jsstring) : jsstring :=
  if endsWithIgnoreCase name (js ".xml") then dropLast 4 name else name.

(** [handleDuplicateLexicon]; with unsaved changes it only asks to save
    them first, and without a current file it does nothing. *)
Definition handleDuplicateLexicon (ws : Workspace) (hasUnsavedChanges : bool)
    : Workspace :=
  if hasUnsavedChanges then ws
  else if negb (JS.truthy (currentFile ws)) then ws
  else
    let newName :=
      js "duplicate-of-" ++ stripXmlSuffix (currentFile ws) ++ js ".xml" in
    {| editor :=
         {| selection :=
              {| sel_entries := map duplicatedEntry (ws_entries ws);
                 selectedIndex := None |};
            validationErrors := [];
            phonemeInputWarning := false |};
       savedEntries := [];
       currentFile := newName;
       newLexiconLang := newLexiconLang ws;
       blobList := withBlob newName (blobList ws) |}.

(** ** Search *)

(** [s.startsWith(p)] and [s.includes(q)]. *)
Fixpoint startsWith (s p : jsstring) : bool :=
  match p, s with
  | [], _ => true
  | _ :: _, [] => false
  | x :: p', y :: s' => N.eqb x y && startsWith s' p'
  end.

Fixpoint includesString (s q : jsstring) : bool :=
  startsWith s q
  || match s with
     | [] => false
     | _ :: r => includesString r q
     end.

Section Search.

Context {R : JsRuntime}.

(** The filter of [filteredEntries] on one entry. *)
Definition matchesQuery (searchQuery : jsstring) (entry : LexiconEntry)
    : bool :=
  let q := toLowerCase searchQuery in
  existsb (fun g => includesString (toLowerCase g) q) (graphemes entry)
  || JS.opt_truthy (alias entry)
     && includesString (toLowerCase (JS.orEmpty (alias entry))) q
  || JS.opt_truthy (phoneme entry)
     && includesString (toLowerCase (JS.orEmpty (phoneme entry))) q.

(** [filteredEntries]: the entries to list, each with its index in the
    entry list. *)
Definition filteredEntries (entries : list LexiconEntry)
    (searchQuery : jsstring) : list (LexiconEntry * nat) :=
  let all := map (fun ie => (snd ie, fst ie)) (indexed entries) in
  if negb (JS.truthy (JS.trim searchQuery)) then all
  else filter (fun hit => matchesQuery searchQuery (fst hit)) all.

End Search.

(** ** The backend: old backups and the environment *)

(** A blob of the listing of [cleanupOldBackups]: its name, and its
    time of last modification in milliseconds. *)
Record BackupBlob := {
  backup_name : jsstring;
  lastModified : Z
}.

Definition MAX_BACKUPS : nat := 20.

(** [backupBlobs.sort((a, b) => new Date(b.lastModified) -
    new Date(a.lastModified))]: newest first; the sort is stable. *)
Fixpoint insertBackup (x : BackupBlob) (l : list BackupBlob)
    : list BackupBlob :=
  match l with
  | [] => [x]
  | y :: r => if (lastModified y - lastModified x <=? 0)%Z then x :: l
              else y :: insertBackup x r
  end.

Definition sortBackups (l : list BackupBlob) : list BackupBlob :=
  fold_right insertBackup [] l.

(** Newest first. *)
Definition newerFirst (a b : BackupBlob) : Prop :=
  (lastModified b <= lastModified a)%Z.

(** The backups that [cleanupOldBackups] asks the container to delete,
    for the listing of the blobs under [backups/]. *)
Definition backupsToDelete (backupBlobs : list BackupBlob)
    : list BackupBlob :=
  if (MAX_BACKUPS <? length backupBlobs)%nat
  then skipn MAX_BACKUPS (sortBackups backupBlobs)
  else [].

(** The backups that are left after [cleanupOldBackups]; [deleteFails]
    tells the blobs whose deletion throws, which the loop passes
    over. *)
Definition cleanupOldBackups (backupBlobs : list BackupBlob)
    (deleteFails : BackupBlob -> bool) : list BackupBlob :=
  if (MAX_BACKUPS <? length backupBlobs)%nat
  then firstn MAX_BACKUPS (sortBackups backupBlobs)
       ++ filter deleteFails (skipn MAX_BACKUPS (sortBackups backupBlobs))
  else backupBlobs.

(** The variables of [process.env] that [env-detector.js] reads. *)
Record ProcessEnv := {
  KUBERNETES_SERVICE_HOST : option jsstring;
  KUBERNETES_PORT : option jsstring;
  VERCEL : option jsstring;
  VERCEL_ENV : option jsstring;
  NODE_ENV : option jsstring;
  HOSTNAME : option jsstring;
  azure_storage_key : option jsstring;
  azure_tts_key : option jsstring;
  elevenlabs_tts_key : option jsstring
}.

Inductive Environment := kubernetes | vercel | localhost | unknown.

Definition detectEnvironment (env : ProcessEnv) : Environment :=
  if JS.opt_truthy (KUBERNETES_SERVICE_HOST env)
     || JS.opt_truthy (KUBERNETES_PORT env)
  then kubernetes
  else if JS.opt_truthy (VERCEL env) || JS.opt_truthy (VERCEL_ENV env)
  then vercel
  else if negb (JS.opt_eqb (NODE_ENV env) (Some (js "production")))
          || JS.opt_eqb (HOSTNAME env) (Some (js "localhost"))
          || negb (JS.opt_truthy (KUBERNETES_SERVICE_HOST env))
  then localhost
  else unknown.

(** [v || null] for a variable of the environment. *)
Definition orNull (v : option jsstring) : option jsstring :=
  if JS.opt_truthy v then v else None.

Record ApiKeys := {
  azureStorageKey : option jsstring;
  ttsApiKey : option jsstring;
  elevenlabsTtsKey : option jsstring;
  source : Environment
}.

(** [getApiKeys] of [env-detector.js]; [None] is [null]. *)
Definition getApiKeys (env : ProcessEnv) : option ApiKeys :=
  let environment := detectEnvironment env in
  let azureStorageKey := orNull (azure_storage_key env) in
  let azureTtsKey := orNull (azure_tts_key env) in
  let elevenlabsTtsKey := orNull (elevenlabs_tts_key env) in
  if JS.opt_truthy azureStorageKey || JS.opt_truthy azureTtsKey
     || JS.opt_truthy elevenlabsTtsKey
  then Some {| azureStorageKey := azureStorageKey;
               ttsApiKey := azureTtsKey;
               elevenlabsTtsKey := elevenlabsTtsKey;
               source := environment |}
  else None.

(** A key that is set: a string that is not empty. *)
Definition keySet (v : option jsstring) : Prop :=
  exists s, v = Some s /\ s <> [].

(** ** Further example data *)

Module Samples.

Definition noPronunciation : list string :=
  ["Must have either an alias or phoneme"%string].

Definition noGrapheme : list string :=
  ["Must have at least one grapheme"%string].

(** The entry panel on "cat", "dog" and "hound", "dog" selected, with
    errors kept for the first and the last entry. *)
Definition panel : Editor :=
  {| selection :=
       {| sel_entries := [Examples.cat; Examples.dog; Examples.hound];
          selectedIndex := Some 1%nat |};
     validationErrors := [(0%nat, noGrapheme); (2%nat, noPronunciation)];
     phonemeInputWarning := false |}.

(** The lexicon [animals.xml] with the panel above. *)
Definition workspace : Workspace :=
  {| editor := panel;
     savedEntries := [Examples.cat; Examples.dog; Examples.hound];
     currentFile := js "animals.xml";
     newLexiconLang := js "en-US";
     blobList := [js "animals.xml"] |}.

(** A CSV file with a comment line and a blank line. *)
Definition csv_with_comment : list jsstring :=
  [JS.join JS.COMMA expectedHeaders; js "# animals"; js "";
   js "cat,,,kat,"].

End Samples.

(* ================================================================== *)
(** * Part II. Properties                                              *)
(* ================================================================== *)

(** ** Strings *)

Lemma eqb_refl (a : jsstring) : JS.eqb a a = true.
Proof.
  induction a as [|x a IH]; simpl; [reflexivity|].
  now rewrite N.eqb_refl, IH.
Qed.

Lemma eqb_eq (a b : jsstring) : JS.eqb a b = true <-> a = b.
Proof.
  split; [|intros ->; apply eqb_refl].
  revert b; induction a as [|x a IH]; intros [|y b]; simpl; try discriminate;
    [reflexivity|].
  intros H; apply andb_true_iff in H as [Hx Hr].
  apply N.eqb_eq in Hx; subst; f_equal; auto.
Qed.

Lemma eqb_neq (a b : jsstring) : JS.eqb a b = false <-> a <> b.
Proof.
  rewrite <- eqb_eq. destruct (JS.eqb a b); split; congruence.
Qed.

Lemma list_eqb_refl (l : list jsstring) : JS.list_eqb l l = true.
Proof.
  induction l as [|x l IH]; simpl; [reflexivity|].
  now rewrite eqb_refl, IH.
Qed.

Lemma opt_eqb_refl (o : option jsstring) : JS.opt_eqb o o = true.
Proof. destruct o; simpl; [apply eqb_refl|reflexivity]. Qed.

Lemma truthy_nonempty (s : jsstring) : JS.truthy s = true <-> s <> [].
Proof. destruct s; simpl; split; congruence. Qed.

Lemma truthy_false (s : jsstring) : JS.truthy s = false <-> s = [].
Proof. destruct s; simpl; split; congruence. Qed.

Lemma includes_In (l : list jsstring) (s : jsstring) :
  JS.includes l s = true <-> In s l.
Proof.
  unfold JS.includes. rewrite existsb_exists. split.
  - intros [x [Hin Heq]]. apply eqb_eq in Heq. now subst.
  - intros Hin. exists s. split; [assumption|apply eqb_refl].
Qed.

(** ** Ordering engine *)

Section Ordering.

Context {R : JsRuntime}.

Lemma findInsertionIndex_from_shift i entries k :
  findInsertionIndex_from i entries k
  = (i + findInsertionIndex_from 0 entries k)%nat.
Proof.
  revert i; induction entries as [|e rest IH]; intros i; simpl.
  - lia.
  - destruct (localeCompare k (firstGraphemeKey e) <? 0)%Z; [lia|].
    rewrite (IH (S i)), (IH 1%nat). lia.
Qed.

Lemma findInsertionIndex_cons e rest x :
  findInsertionIndex (e :: rest) x
  = if (localeCompare (firstGraphemeKey x) (firstGraphemeKey e) <? 0)%Z
    then 0%nat else S (findInsertionIndex rest x).
Proof.
  unfold findInsertionIndex; simpl.
  destruct (_ <? 0)%Z; [reflexivity|].
  now rewrite findInsertionIndex_from_shift.
Qed.

(** C5, as the code has it. The index that [findInsertionIndex] returns
    is the first one whose entry's lowercased first grapheme is strictly
    greater than the new entry's ([localeCompare] of the new key with it
    is negative), or the length of the list where there is none: the
    index is in range, no entry before it is strictly greater, and the
    entry at it, if any, is. *)
Theorem findInsertionIndex_first_greater entries newEntry :
  let i := findInsertionIndex entries newEntry in
  let newGrapheme := firstGraphemeKey newEntry in
  (i <= length entries)%nat
  /\ (forall j e, (j < i)%nat -> nth_error entries j = Some e ->
        (0 <= localeCompare newGrapheme (firstGraphemeKey e))%Z)
  /\ ((i < length entries)%nat ->
        exists e, nth_error entries i = Some e
          /\ (localeCompare newGrapheme (firstGraphemeKey e) < 0)%Z).
Proof.
  induction entries as [|e rest IH]; cbn zeta.
  - unfold findInsertionIndex; simpl.
    split; [lia|]. split; [intros j e Hj; lia|lia].
  - rewrite findInsertionIndex_cons.
    destruct (Z.ltb_spec (localeCompare (firstGraphemeKey newEntry)
                                        (firstGraphemeKey e)) 0) as [Hlt|Hge].
    + simpl. split; [lia|]. split; [intros j e' Hj; lia|].
      intros _. exists e. now split.
    + cbn zeta in IH. destruct IH as (Hle & Hbefore & Hat).
      simpl. split; [lia|]. split.
      * intros [|j] e' Hj Hnth; simpl in Hnth.
        -- now inversion Hnth; subst.
        -- apply (Hbefore j e'); [lia|assumption].
      * intros Hi. apply Hat. lia.
Qed.

(** The counterexample to C5 as stated, on any runtime: an entry whose
    key equals the new key is passed over. *)
Lemma findInsertionIndex_passes_equal e x :
  localeCompare (firstGraphemeKey x) (firstGraphemeKey e) = 0%Z ->
  localeCompare (firstGraphemeKey e) (firstGraphemeKey x) = 0%Z ->
  findInsertionIndex [e] x = 1%nat /\ firstIndexGeq [e] x = 0%nat.
Proof.
  intros H1 H2. unfold findInsertionIndex, firstIndexGeq; simpl.
  now rewrite H1, H2.
Qed.

(** *** The sort invariant *)

Context {C : JsCollation R}.

Lemma entryLe_trans a b c : entryLe a b -> entryLe b c -> entryLe a c.
Proof. unfold entryLe. apply localeCompare_trans. Qed.

Lemma not_before_le x e :
  (localeCompare (firstGraphemeKey x) (firstGraphemeKey e) <? 0)%Z = false ->
  entryLe e x.
Proof.
  intros H. apply Z.ltb_ge in H. now apply localeCompare_total.
Qed.

Lemma before_le x e :
  (localeCompare (firstGraphemeKey x) (firstGraphemeKey e) <? 0)%Z = true ->
  entryLe x e.
Proof. intros H. apply Z.ltb_lt in H. unfold entryLe. lia. Qed.

Lemma HdRel_splice e rest i x :
  entryLe e x -> HdRel entryLe e rest ->
  HdRel entryLe e (JS.splice_insert rest i x).
Proof.
  intros Hex Hhd. unfold JS.splice_insert.
  destruct i as [|i]; simpl; [now constructor|].
  destruct rest as [|y rest]; simpl; [now constructor|].
  inversion Hhd; subst. now constructor.
Qed.

Lemma splice_keeps_order entries x :
  ordered entries ->
  ordered (JS.splice_insert entries (findInsertionIndex entries x) x).
Proof.
  unfold ordered. induction entries as [|e rest IH]; intros Hs.
  - unfold findInsertionIndex, JS.splice_insert; simpl.
    repeat constructor.
  - rewrite findInsertionIndex_cons.
    destruct (localeCompare (firstGraphemeKey x) (firstGraphemeKey e) <? 0)%Z
      eqn:Hcmp.
    + unfold JS.splice_insert; simpl.
      constructor; [assumption|]. constructor. now apply before_le.
    + inversion Hs as [|? ? Hrest Hhd]; subst.
      change (JS.splice_insert (e :: rest) (S (findInsertionIndex rest x)) x)
        with (e :: JS.splice_insert rest (findInsertionIndex rest x) x).
      constructor; [now apply IH|].
      apply HdRel_splice; [now apply not_before_le|assumption].
Qed.

Lemma HdRel_weaken e l :
  Sorted entryLe l -> HdRel entryLe e l ->
  forall y, In y l -> entryLe e y.
Proof.
  intros Hs Hhd y Hin.
  apply Sorted_StronglySorted in Hs; [|exact entryLe_trans].
  destruct l as [|z l]; [contradiction|].
  inversion Hhd; subst. inversion Hs; subst.
  destruct Hin as [->|Hin]; [assumption|].
  eapply entryLe_trans; [eassumption|].
  now apply (proj1 (Forall_forall _ _) H3).
Qed.

Lemma removeAt_In {A} (l : list A) i y : In y (JS.removeAt l i) -> In y l.
Proof.
  revert i; induction l as [|x l IH]; intros [|i]; simpl; auto.
  intros [->|H]; [now left|right; eauto].
Qed.

Lemma removeAt_keeps_order entries i :
  ordered entries -> ordered (JS.removeAt entries i).
Proof.
  unfold ordered. revert i.
  induction entries as [|e rest IH]; intros [|i] Hs; simpl; auto.
  - now inversion Hs.
  - inversion Hs as [|? ? Hrest Hhd]; subst.
    constructor; [now apply IH|].
    destruct (JS.removeAt rest i) as [|y r] eqn:Hrm; constructor.
    apply (HdRel_weaken _ _ Hrest Hhd).
    apply (@removeAt_In _ rest i). rewrite Hrm. now left.
Qed.

(** C6. Inserting an entry into an ordered list at the index that
    [findInsertionIndex] computes leaves the list ordered
    (non-decreasing case-insensitive first-grapheme order); so do
    [handleNewEntry], and [handleGraphemeChange] where it renames the
    first grapheme to a value that is not blank and not the placeholder,
    which removes the entry and inserts it again. *)
Theorem insertion_keeps_order :
  (forall entries x,
      ordered entries ->
      ordered (JS.splice_insert entries (findInsertionIndex entries x) x))
  /\ (forall st,
      ordered (sel_entries st) -> ordered (sel_entries (handleNewEntry st)))
  /\ (forall st value st',
      ordered (sel_entries st) ->
      JS.trim value <> [] -> value <> NEW_ENTRY ->
      handleGraphemeChange st 0 value = Some st' ->
      ordered (sel_entries st')).
Proof.
  split; [exact splice_keeps_order|]. split.
  - intros st Hs. unfold handleNewEntry; simpl.
    now apply splice_keeps_order.
  - intros st value st' Hs Hblank Hnew.
    unfold handleGraphemeChange.
    destruct (selectedIndex st) as [sel|]; [|now intros [= <-]].
    destruct (nth_error (sel_entries st) sel) as [cur|]; [|discriminate].
    destruct (withGrapheme cur 0 value) as [updated|]; [|discriminate].
    apply truthy_nonempty in Hblank. apply eqb_neq in Hnew.
    rewrite Hblank, Hnew. simpl.
    intros [= <-]. simpl.
    apply splice_keeps_order. now apply removeAt_keeps_order.
Qed.

End Ordering.

(** A closed instance of the counterexample to C5: with the entry "cat"
    in the list, the new entry "cat" goes to index 1, after it, where the
    first index whose key is greater than or equal is 0. *)
Lemma findInsertionIndex_not_first_geq :
  @findInsertionIndex BasicLatin.runtime [Examples.cat] Examples.cat = 1%nat
  /\ @firstIndexGeq BasicLatin.runtime [Examples.cat] Examples.cat = 0%nat.
Proof. apply findInsertionIndex_passes_equal; reflexivity. Qed.

(** ** The example runtime is a collation *)

Lemma compare_antisym a b :
  BasicLatin.compare b a = (- BasicLatin.compare a b)%Z.
Proof.
  revert b; induction a as [|x a IH]; intros [|y b]; simpl; try reflexivity.
  destruct (N.ltb_spec x y), (N.ltb_spec y x); try lia; auto.
Qed.

Lemma compare_trans a b c :
  (BasicLatin.compare a b <= 0)%Z -> (BasicLatin.compare b c <= 0)%Z ->
  (BasicLatin.compare a c <= 0)%Z.
Proof.
  revert b c; induction a as [|x a IH]; intros [|y b] [|z c]; simpl;
    try lia.
  destruct (N.ltb_spec x y), (N.ltb_spec y x), (N.ltb_spec y z),
    (N.ltb_spec z y), (N.ltb_spec x z), (N.ltb_spec z x);
    try lia; intros; eauto.
Qed.

Lemma BasicLatin_collation : JsCollation BasicLatin.runtime.
Proof.
  split; simpl.
  - intros a b H. rewrite (compare_antisym a b). lia.
  - exact compare_trans.
Qed.

Lemma insertion_keeps_order_witness :
  let entries := [Examples.cat; Examples.dog] in
  @ordered BasicLatin.runtime entries
  /\ @ordered BasicLatin.runtime
       (JS.splice_insert entries
          (@findInsertionIndex BasicLatin.runtime entries Examples.cat_kat)
          Examples.cat_kat).
Proof.
  cbn zeta.
  assert (H : @ordered BasicLatin.runtime [Examples.cat; Examples.dog]).
  { repeat constructor. unfold entryLe. vm_compute. discriminate. }
  split; [exact H|].
  exact (proj1 (@insertion_keeps_order BasicLatin.runtime BasicLatin_collation)
               [Examples.cat; Examples.dog] Examples.cat_kat H).
Defined.

(** ** Validation *)

Lemma trim_nil_of_nil s : JS.trim s <> [] -> s <> [].
Proof. intros H ->. now apply H. Qed.

Lemma hasValidGrapheme_spec e :
  hasValidGrapheme e = true <-> hasRealGrapheme e.
Proof.
  unfold hasValidGrapheme, hasRealGrapheme. rewrite existsb_exists.
  split; intros [g [Hin H]]; exists g; split; try assumption.
  - apply andb_true_iff in H as [Ht Hn].
    apply truthy_nonempty in Ht. apply negb_true_iff, eqb_neq in Hn.
    now split.
  - destruct H as [Ht Hn]. apply andb_true_iff. split.
    + now apply truthy_nonempty.
    + now apply negb_true_iff, eqb_neq.
Qed.

Lemma content_rule_spec e :
  negb (JS.truthy (trimmedField (alias e)))
  && negb (JS.truthy (trimmedField (phoneme e))) = false
  <-> hasContent e.
Proof.
  unfold hasContent. rewrite <- !truthy_nonempty.
  destruct (JS.truthy (trimmedField (alias e))),
    (JS.truthy (trimmedField (phoneme e))); simpl; intuition congruence.
Qed.

Lemma phoneme_rule_spec e :
  JS.truthy (trimmedField (phoneme e)) && JS.opt_truthy (phoneme e)
  && negb (ipaPattern_test (JS.orEmpty (phoneme e))) = false
  <-> (trimmedField (phoneme e) <> [] ->
       Forall (fun c => validIpaChar c = true) (JS.orEmpty (phoneme e))).
Proof.
  rewrite <- truthy_nonempty, Forall_forall, <- forallb_forall.
  destruct (phoneme e) as [s|]; simpl; [|intuition congruence].
  destruct (JS.truthy (JS.trim s)) eqn:Ht; simpl; [|intuition congruence].
  assert (Hs : JS.truthy s = true).
  { apply truthy_nonempty, trim_nil_of_nil. now apply truthy_nonempty. }
  unfold ipaPattern_test. rewrite Hs. simpl.
  destruct (forallb validIpaChar s); simpl; intuition congruence.
Qed.

Lemma app_nil_iff {A} (a b : list A) : a ++ b = [] <-> a = [] /\ b = [].
Proof.
  split; [apply app_eq_nil|]. now intros [-> ->].
Qed.

(** C7, as the code has it. [validateEntry] returns no message if and only
    if the entry has a grapheme that is not blank after trimming and is not
    the placeholder, has an alias or a phoneme that is not blank after
    trimming, and, where the phoneme is not blank after trimming, all the
    code units of the phoneme are of the IPA class. *)
Theorem validateEntry_empty_iff entry entryIndex :
  validateEntry entry entryIndex = [] <-> valid entry.
Proof.
  unfold validateEntry, valid.
  rewrite !app_nil_iff, <- hasValidGrapheme_spec, <- content_rule_spec,
    <- phoneme_rule_spec.
  destruct (hasValidGrapheme entry);
    destruct (negb (JS.truthy (trimmedField (alias entry)))
              && negb (JS.truthy (trimmedField (phoneme entry))));
    destruct (JS.truthy (trimmedField (phoneme entry))
              && JS.opt_truthy (phoneme entry)
              && negb (ipaPattern_test (JS.orEmpty (phoneme entry))));
    intuition congruence.
Qed.

(** The counterexample to C7 as stated: an entry with an alias whose
    phoneme is one tab passes [validateEntry], and its phoneme is not empty
    and has a code unit that is not of the class. *)
Lemma validateEntry_blank_phoneme :
  validateEntry Examples.tabbed 0 = [] /\ ~ statedValid Examples.tabbed.
Proof.
  split; [reflexivity|].
  intros (_ & _ & H).
  assert (Hne : JS.orEmpty (phoneme Examples.tabbed) <> []) by discriminate.
  specialize (H Hne). inversion H as [|? ? Hc _]; subst.
  vm_compute in Hc. discriminate.
Qed.

(** ** Merge engine *)

Lemma eqb_sym a b : JS.eqb a b = JS.eqb b a.
Proof.
  destruct (JS.eqb a b) eqn:H.
  - apply eqb_eq in H. subst. symmetry. apply eqb_refl.
  - symmetry. apply eqb_neq. apply eqb_neq in H. congruence.
Qed.

Lemma flat_map_nil {A B} (f : A -> list B) l :
  (forall x, In x l -> f x = []) -> flat_map f l = [].
Proof.
  induction l as [|x l IH]; intros H; simpl; [reflexivity|].
  rewrite (H x (or_introl eq_refl)). apply IH.
  intros y Hy. apply H. now right.
Qed.

Lemma indexed_from_In {A} (l : list A) s i x :
  In (i, x) (combine (seq s (length l)) l) ->
  (s <= i)%nat /\ nth_error l (i - s) = Some x.
Proof.
  revert s; induction l as [|y l IH]; intros s; simpl; [contradiction|].
  intros [H|H].
  - inversion H; subst. rewrite Nat.sub_diag. now split.
  - apply IH in H as [Hle Hnth]. split; [lia|].
    replace (i - s)%nat with (S (i - S s)) by lia. exact Hnth.
Qed.

Lemma indexed_In {A} (l : list A) i x :
  In (i, x) (indexed l) -> nth_error l i = Some x.
Proof.
  intros H. apply indexed_from_In in H as [_ H].
  now rewrite Nat.sub_0_r in H.
Qed.

Lemma array_set_in_range {A} (l : list A) i v :
  (i < length l)%nat ->
  exists l', JS.array_set l i v = Some l'
    /\ length l' = length l
    /\ nth_error l' i = Some v
    /\ forall j, j <> i -> nth_error l' j = nth_error l j.
Proof.
  intros Hi. unfold JS.array_set.
  destruct (Nat.ltb_spec i (length l)); [|lia].
  eexists; split; [reflexivity|].
  assert (Hf : length (firstn i l) = i) by (rewrite length_firstn; lia).
  split; [|split].
  - rewrite length_app, length_cons, Hf, length_skipn. lia.
  - rewrite nth_error_app2 by lia. rewrite Hf, Nat.sub_diag. reflexivity.
  - intros j Hj. destruct (Nat.lt_ge_cases j i) as [Hlt|Hge].
    + rewrite nth_error_app1 by lia. rewrite nth_error_firstn.
      destruct (Nat.ltb_spec j i); [reflexivity|lia].
    + rewrite nth_error_app2 by lia. rewrite Hf.
      destruct (j - i)%nat as [|k] eqn:Hk; [lia|].
      change (nth_error (v :: skipn (S i) l) (S k))
        with (nth_error (skipn (S i) l) k).
      rewrite nth_error_skipn. f_equal. lia.
Qed.

Section Merge.

Context {R : JsRuntime}.

Lemma sharesGrapheme_overlap e m :
  sharesGrapheme (lowerGraphemes e) m = true <-> overlap m e.
Proof.
  unfold sharesGrapheme, overlap, lowerGraphemes.
  rewrite existsb_exists. split.
  - intros [mg [Hin Hinc]]. apply includes_In, in_map_iff in Hinc.
    destruct Hinc as [g [Heq Hg]]. exists mg, g. auto.
  - intros [mg [g (Hmg & Hg & Heq)]]. exists mg. split; [assumption|].
    apply includes_In, in_map_iff. exists g. auto.
Qed.

Lemma overlap_self e : graphemes e <> [] -> overlap e e.
Proof.
  destruct (graphemes e) as [|g gs] eqn:Hg; [congruence|]. intros _.
  exists g, g. rewrite Hg. simpl; auto.
Qed.

Lemma areIdentical_refl e : areIdentical e e = true.
Proof.
  unfold areIdentical.
  now rewrite list_eqb_refl, !opt_eqb_refl.
Qed.

(** What a conflict record of [analyzeConflicts] holds: the entry at its
    position of the master list, an entry of the incoming list, and no
    resolution yet. *)
Lemma conflictsOf_In masterEntries mergeEntries c :
  In c (conflictsOf masterEntries mergeEntries) ->
  nth_error masterEntries (masterIndex c) = Some (masterEntry c)
  /\ nth_error mergeEntries (mergeIndex c) = Some (mergeEntry c)
  /\ resolution c = None
  /\ overlap (masterEntry c) (mergeEntry c)
  /\ areIdentical (masterEntry c) (mergeEntry c) = false.
Proof.
  unfold conflictsOf. rewrite in_flat_map.
  intros [[j e] [Hje Hc]]. unfold conflictsOfEntry in Hc.
  rewrite in_flat_map in Hc. destruct Hc as [[i m] [Him Hc]].
  apply filter_In in Him as [Him Hsh]. simpl in Hsh.
  apply indexed_In in Hje. apply indexed_In in Him.
  apply sharesGrapheme_overlap in Hsh.
  unfold conflictWith in Hc.
  destruct (areIdentical m e) eqn:Hid; [contradiction|].
  destruct (arePhoneticallyIdentical m e);
    destruct Hc as [<-|[]]; simpl; auto.
Qed.

Lemma conflictsOf_self_nil l : selfConsistent l -> conflictsOf l l = [].
Proof.
  intros [_ Hid]. unfold conflictsOf. apply flat_map_nil.
  intros [j e] Hje. unfold conflictsOfEntry. apply flat_map_nil.
  intros [i m] Him. apply filter_In in Him as [Him Hsh]. simpl in Hsh.
  apply indexed_In, nth_error_In in Hje.
  apply indexed_In, nth_error_In in Him.
  apply sharesGrapheme_overlap in Hsh.
  unfold conflictWith. now rewrite (Hid m e Him Hje Hsh).
Qed.

Lemma performMerge_self l rest k :
  selfConsistent l -> (forall e, In e rest -> In e l) ->
  fold_left performMerge_step rest (l, 0%nat, k)
  = (l, 0%nat, (k + length rest)%nat).
Proof.
  intros [Hne Hid]. revert k.
  induction rest as [|e rest IH]; intros k Hsub; simpl.
  - f_equal. lia.
  - assert (He : In e l) by (apply Hsub; now left).
    assert (Hex : existsb (sharesGrapheme (lowerGraphemes e)) l = true).
    { apply existsb_exists. exists e. split; [assumption|].
      apply sharesGrapheme_overlap, overlap_self.
      exact (proj1 (Forall_forall _ _) Hne e He). }
    rewrite Hex. simpl.
    destruct (find (sharesGrapheme (lowerGraphemes e)) l) as [m|] eqn:Hf.
    + apply find_some in Hf as [Hm Hsh].
      apply sharesGrapheme_overlap in Hsh.
      rewrite (Hid m e Hm He Hsh).
      rewrite IH by (intros; apply Hsub; now right).
      f_equal. lia.
    + apply existsb_exists in Hex as [m [Hm Hsh]].
      now rewrite (find_none _ _ Hf m Hm) in Hsh.
Qed.

(** C3, as the code has it. For a master list in which every entry has a
    grapheme and entries that share a grapheme case-insensitively are
    identical, the merge of the list with itself finds no conflict,
    adds no entry and counts every incoming entry as identical and
    skipped. *)
Theorem merge_idempotent st :
  selfConsistent (entries st) ->
  conflictsOf (entries st) (entries st) = []
  /\ mergeConflicts (analyzeConflicts st (entries st)) = []
  /\ exists summary,
       mergeSummary (analyzeConflicts st (entries st)) = Some summary
       /\ newEntries summary = 0%nat
       /\ identicalSkipped summary = Z.of_nat (length (entries st))
       /\ totalProcessed summary = length (entries st).
Proof.
  intros Hsc. pose proof (conflictsOf_self_nil _ Hsc) as Hnil.
  split; [assumption|].
  unfold analyzeConflicts. rewrite Hnil. unfold performMerge.
  rewrite performMerge_self by auto. simpl.
  split; [reflexivity|]. eexists. split; [reflexivity|]. simpl. auto.
Qed.

(** C2. While a conflict of the pending list has no resolution, the
    Complete Merge button is disabled: a click on it does not run
    [finalizeMerge], and the state, the entry list in it, stays as it
    is. *)
Theorem merge_gate st :
  (exists c, In c (mergeConflicts st) /\ resolution c = None) ->
  completeMergeDisabled st = true
  /\ clickCompleteMerge st = Some st
  /\ forall st', clickCompleteMerge st = Some st' -> entries st' = entries st.
Proof.
  intros [c [Hin Hres]].
  assert (Hd : completeMergeDisabled st = true).
  { unfold completeMergeDisabled. apply existsb_exists.
    exists c. split; [assumption|]. now rewrite Hres. }
  unfold clickCompleteMerge. rewrite Hd.
  split; [reflexivity|]. split; [reflexivity|]. now intros st' [= <-].
Qed.

(** The condition [selfConsistent] is the weakest one: a list whose merge
    with itself finds no conflict and adds no entry satisfies it. *)
Lemma In_indexed_from {A} (l : list A) x s :
  In x l -> exists i, In (i, x) (combine (seq s (length l)) l).
Proof.
  revert s; induction l as [|y l IH]; intros s; simpl; [contradiction|].
  intros [->|H].
  - exists s. now left.
  - destruct (IH (S s) H) as [i Hi]. exists i. now right.
Qed.

Lemma conflictsOf_not_identical ms es m e :
  In m ms -> In e es -> overlap m e -> areIdentical m e = false ->
  conflictsOf ms es <> [].
Proof.
  intros Hm He Hov Hid.
  destruct (In_indexed_from ms m 0 Hm) as [i Hi].
  destruct (In_indexed_from es e 0 He) as [j Hj].
  assert (Hc : exists c, In c (conflictWith j e (i, m))).
  { unfold conflictWith. rewrite Hid.
    destruct (arePhoneticallyIdentical m e); eexists; left; reflexivity. }
  destruct Hc as [c Hc].
  assert (Hin : In c (conflictsOf ms es)).
  { unfold conflictsOf. apply in_flat_map. exists (j, e). split; [exact Hj|].
    unfold conflictsOfEntry. apply in_flat_map. exists (i, m).
    split; [|exact Hc].
    apply filter_In. split; [exact Hi|]. simpl.
    now apply sharesGrapheme_overlap. }
  intros Hnil. rewrite Hnil in Hin. contradiction.
Qed.

Lemma sharesGrapheme_none l :
  existsb (sharesGrapheme []) l = false.
Proof.
  induction l as [|m l IH]; simpl; [reflexivity|].
  rewrite IH, orb_false_r. unfold sharesGrapheme.
  now induction (graphemes m).
Qed.

Lemma performMerge_step_mono l n k e :
  (n <= snd (fst (performMerge_step (l, n, k) e)))%nat.
Proof.
  unfold performMerge_step.
  destruct (negb (existsb (sharesGrapheme (lowerGraphemes e)) l));
    [simpl; lia|].
  destruct (find (sharesGrapheme (lowerGraphemes e)) l) as [m|];
    [|simpl; lia].
  destruct (areIdentical m e); simpl; lia.
Qed.

Lemma performMerge_fold_mono rest l n k :
  (n <= snd (fst (fold_left performMerge_step rest (l, n, k))))%nat.
Proof.
  revert l n k; induction rest as [|e rest IH]; intros l n k;
    cbn [fold_left]; [simpl; lia|].
  pose proof (performMerge_step_mono l n k e) as H1.
  destruct (performMerge_step (l, n, k) e) as [[l1 n1] k1]. simpl in H1.
  specialize (IH l1 n1 k1). lia.
Qed.

Lemma performMerge_counts_empty rest l n k e :
  In e rest -> graphemes e = [] ->
  (S n <= snd (fst (fold_left performMerge_step rest (l, n, k))))%nat.
Proof.
  revert l n k; induction rest as [|x rest IH]; intros l n k Hin He;
    [contradiction|]. cbn [fold_left].
  destruct Hin as [->|Hin].
  - assert (Hstep : performMerge_step (l, n, k) e
                    = (l ++ [markNew e], S n, k)).
    { unfold performMerge_step, lowerGraphemes. rewrite He. simpl.
      now rewrite sharesGrapheme_none. }
    rewrite Hstep. apply performMerge_fold_mono.
  - pose proof (performMerge_step_mono l n k x) as H1.
    destruct (performMerge_step (l, n, k) x) as [[l1 n1] k1]. simpl in H1.
    specialize (IH l1 n1 k1 Hin He). lia.
Qed.

Lemma merge_idempotent_only_if st :
  conflictsOf (entries st) (entries st) = [] ->
  (exists summary,
      mergeSummary (analyzeConflicts st (entries st)) = Some summary
      /\ newEntries summary = 0%nat) ->
  selfConsistent (entries st).
Proof.
  intros Hnil (summary & Hsum & Hnew). split.
  - apply Forall_forall. intros e He Hge.
    unfold analyzeConflicts in Hsum. rewrite Hnil in Hsum.
    unfold performMerge in Hsum.
    pose proof (performMerge_counts_empty (entries st) (entries st)
                  0%nat 0%nat e He Hge) as Hcount.
    destruct (fold_left performMerge_step (entries st) (entries st, 0%nat, 0%nat))
      as [[l1 n1] k1].
    simpl in Hsum, Hcount. inversion Hsum; subst. simpl in Hnew. lia.
  - intros m e Hm He Hov.
    destruct (areIdentical m e) eqn:Hid; [reflexivity|exfalso].
    exact (conflictsOf_not_identical _ _ m e Hm He Hov Hid Hnil).
Qed.

(** [finalizeMerge] returns a state where the conflicts name positions of
    the entry list, as those of [analyzeConflicts] do. *)
Lemma applyResolution_in_range cs l n :
  Forall (fun c => (masterIndex c < length l)%nat) cs ->
  exists l' n',
    fold_left applyResolution cs (Some (l, n)) = Some (l', n')
    /\ length l' = length l.
Proof.
  revert l n. induction cs as [|c cs IH]; intros l n Hall; simpl.
  - now exists l, n.
  - inversion Hall as [|? ? Hc Hcs]; subst.
    destruct (resolution c) as [[| |]|].
    + apply IH, Hcs.
    + destruct (array_set_in_range l (masterIndex c) (markNew (mergeEntry c)) Hc)
        as (l1 & -> & Hlen & _). simpl.
      rewrite <- Hlen in Hcs. destruct (IH l1 (S n) Hcs) as (l' & n' & H & Hl).
      exists l', n'. split; [exact H|congruence].
    + destruct (array_set_in_range l (masterIndex c)
                  (combineBoth (masterEntry c) (mergeEntry c)) Hc)
        as (l1 & -> & Hlen & _). simpl.
      rewrite <- Hlen in Hcs. destruct (IH l1 (S n) Hcs) as (l' & n' & H & Hl).
      exists l', n'. split; [exact H|congruence].
    + apply IH, Hcs.
Qed.

Lemma conflictsOf_in_range masterEntries mergeEntries :
  Forall (fun c => (masterIndex c < length masterEntries)%nat)
         (conflictsOf masterEntries mergeEntries).
Proof.
  apply Forall_forall. intros c Hc.
  apply conflictsOf_In in Hc as (Hm & _).
  apply nth_error_Some. congruence.
Qed.

Lemma finalizeMerge_total st :
  Forall (fun c => (masterIndex c < length (entries st))%nat)
         (mergeConflicts st) ->
  exists st', finalizeMerge st = Some st'.
Proof.
  intros Hcs. unfold finalizeMerge.
  destruct (applyResolution_in_range (mergeConflicts st) (entries st) 0%nat Hcs)
    as (l' & n' & -> & _).
  destruct (fold_left (addUnmatched st) (mergeFileContent st) (l', 0%nat)).
  eauto.
Qed.

Lemma includes_lower_forallb gm g :
  negb (JS.includes (map toLowerCase gm) (toLowerCase g))
  = forallb (fun mg => negb (JS.eqb (toLowerCase mg) (toLowerCase g))) gm.
Proof.
  unfold JS.includes. induction gm as [|mg gm IH]; simpl; [reflexivity|].
  rewrite negb_orb, IH. now rewrite (eqb_sym (toLowerCase g)).
Qed.

Lemma opt_or_incomingOrMaster a b : JS.opt_or a b = incomingOrMaster a b.
Proof. destruct a as [[|x s]|]; reflexivity. Qed.

Lemma combineBoth_spec m e :
  combineBoth m e
  = {| graphemes := unionGraphemes m e;
       alias := incomingOrMaster (alias e) (alias m);
       aliasSayAsType := None;
       phoneme := incomingOrMaster (phoneme e) (phoneme m);
       phonemeSayAsType := None;
       isNew := Some true |}.
Proof.
  unfold combineBoth, unionGraphemes, lowerGraphemes.
  rewrite !opt_or_incomingOrMaster. f_equal. f_equal.
  apply filter_ext. intros g. apply includes_lower_forallb.
Qed.

End Merge.

Section Scenarios.

Context {R : JsRuntime}.

Lemma conflictsOf_nil ms es :
  (forall m e, In m ms -> In e es -> overlap m e ->
               areIdentical m e = true) ->
  conflictsOf ms es = [].
Proof.
  intros Hid. destruct (conflictsOf ms es) as [|c cs] eqn:Hc;
    [reflexivity|exfalso].
  assert (Hin : In c (conflictsOf ms es)) by (rewrite Hc; now left).
  apply conflictsOf_In in Hin as (Hm & He & _ & Hov & Hne).
  apply nth_error_In in Hm. apply nth_error_In in He.
  rewrite (Hid _ _ Hm He Hov) in Hne. discriminate.
Qed.

Lemma areIdentical_word a g1 g2 ph :
  toLowerCase g1 = toLowerCase g2 ->
  areIdentical (Examples.aliased a (Examples.word g1 ph))
               (Examples.aliased a (Examples.word g2 ph)) = true.
Proof.
  intros H. unfold areIdentical, lowerGraphemes. simpl.
  now rewrite H, !eqb_refl, opt_eqb_refl.
Qed.

(** C1, as the code has it. Scenario B: "Cat" and "cat", which lower-case
    to one string, with the same phoneme and no alias (the field absent in
    both, or the same string in both), are identical to [areIdentical];
    the conflict analysis produces no conflict record, and the merge
    completes at once with no new entry and the incoming entry counted as
    identical and skipped. *)
Theorem scenario_B_identical a :
  toLowerCase (js "Cat") = toLowerCase (js "cat") ->
  let masterEntries := [Examples.aliased a Examples.Cat] in
  let mergeEntries := [Examples.aliased a Examples.cat] in
  conflictsOf masterEntries mergeEntries = []
  /\ mergeSummary (analyzeConflicts (Examples.emptyState masterEntries)
                                    mergeEntries)
     = Some {| newEntries := 0; conflictsResolved := 0;
               identicalSkipped := 1; totalProcessed := 1;
               errorsFound := 0 |}.
Proof.
  intros H. cbn zeta.
  set (m := Examples.aliased a Examples.Cat).
  set (e := Examples.aliased a Examples.cat).
  assert (Hid : areIdentical m e = true) by now apply areIdentical_word.
  assert (Hnil : conflictsOf [m] [e] = []).
  { apply conflictsOf_nil. intros m' e' [<-|[]] [<-|[]] _. exact Hid. }
  split; [assumption|].
  unfold analyzeConflicts.
  change (entries (Examples.emptyState [m])) with [m].
  rewrite Hnil. unfold performMerge.
  change (entries (Examples.emptyState [m])) with [m].
  assert (Hsh : sharesGrapheme (lowerGraphemes e) m = true).
  { apply sharesGrapheme_overlap. exists (js "Cat"), (js "cat").
    simpl. auto. }
  cbn [fold_left performMerge_step existsb find].
  rewrite Hsh. cbn [orb negb]. rewrite Hid. reflexivity.
Qed.

Lemma conflictsOf_scenario_C a1 a2 :
  conflictsOf [Examples.aliased a1 Examples.cat]
              [Examples.aliased a2 Examples.cat_kat]
  = [{| type := conflict;
        masterEntry := Examples.aliased a1 Examples.cat;
        mergeEntry := Examples.aliased a2 Examples.cat_kat;
        masterIndex := 0; mergeIndex := 0;
        commonGraphemes := [js "cat"]; resolution := None |}].
Proof.
  unfold conflictsOf, conflictsOfEntry, conflictWith, areIdentical,
    arePhoneticallyIdentical, sharesGrapheme, lowerGraphemes, JS.includes.
  simpl. rewrite !eqb_refl. simpl. rewrite !eqb_refl. simpl.
  rewrite andb_false_r. reflexivity.
Qed.

(** C4. Resolution [both] writes, at the master index of the conflict, an
    entry whose graphemes are the master's followed by the incoming
    graphemes that no master grapheme equals case-insensitively, whose
    alias and phoneme are the incoming ones where these are not empty and
    the master's otherwise, and leaves the other positions as they are.
    Scenario C: the one conflict of "cat" /kæt/ with "cat" /kat/ has type
    [conflict], and resolving it with [both] and finalizing yields the
    one entry "cat" /kat/, whether the alias of an entry is absent or a
    string. *)
Theorem both_resolution :
  (forall masterEntries mergeEntries c resolvedEntries n,
      In c (conflictsOf masterEntries mergeEntries) ->
      length resolvedEntries = length masterEntries ->
      exists m resolved',
        nth_error masterEntries (masterIndex c) = Some m
        /\ applyResolution (Some (resolvedEntries, n))
                           (withResolution c (Some both))
           = Some (resolved', S n)
        /\ nth_error resolved' (masterIndex c)
           = Some {| graphemes := unionGraphemes m (mergeEntry c);
                     alias := incomingOrMaster (alias (mergeEntry c))
                                               (alias m);
                     aliasSayAsType := None;
                     phoneme := incomingOrMaster (phoneme (mergeEntry c))
                                                 (phoneme m);
                     phonemeSayAsType := None;
                     isNew := Some true |}
        /\ forall j, j <> masterIndex c ->
                     nth_error resolved' j = nth_error resolvedEntries j)
  /\ (forall a1 a2,
      let masterEntries := [Examples.aliased a1 Examples.cat] in
      let mergeEntries := [Examples.aliased a2 Examples.cat_kat] in
      let st := analyzeConflicts
                  (withFileContent (Examples.emptyState masterEntries)
                                   mergeEntries)
                  mergeEntries in
      map type (mergeConflicts st) = [conflict]
      /\ exists st1 st2,
           handleConflictResolution st 0 both = Some st1
           /\ finalizeMerge st1 = Some st2
           /\ entries st2
              = [{| graphemes := [js "cat"];
                    alias := incomingOrMaster a2 a1;
                    aliasSayAsType := None; phoneme := Some (js "kat");
                    phonemeSayAsType := None; isNew := Some true |}]).
Proof.
  split.
  - intros ms es c resolvedEntries n Hin Hlen.
    apply conflictsOf_In in Hin as (Hm & _).
    assert (Hi : (masterIndex c < length resolvedEntries)%nat).
    { rewrite Hlen. apply nth_error_Some. congruence. }
    destruct (array_set_in_range resolvedEntries (masterIndex c)
                (combineBoth (masterEntry c) (mergeEntry c)) Hi)
      as (l' & Hset & _ & Hat & Hframe).
    exists (masterEntry c), l'. split; [assumption|].
    unfold applyResolution. simpl. rewrite Hset. simpl.
    split; [reflexivity|]. split; [|assumption].
    now rewrite Hat, combineBoth_spec.
  - intros a1 a2. cbn zeta. unfold analyzeConflicts.
    change (entries (withFileContent
                       (Examples.emptyState [Examples.aliased a1 Examples.cat])
                       [Examples.aliased a2 Examples.cat_kat]))
      with [Examples.aliased a1 Examples.cat].
    rewrite conflictsOf_scenario_C.
    split; [reflexivity|].
    do 2 eexists. split; [reflexivity|].
    unfold finalizeMerge, applyResolution, addUnmatched, combineBoth,
      sharesGrapheme, lowerGraphemes, JS.includes.
    simpl. rewrite !eqb_refl. simpl. rewrite opt_or_incomingOrMaster.
    split; reflexivity.
Qed.

(** *** Say-as tags through a merge *)

Ltac step_parse H :=
  repeat match type of H with
         | match ?x with _ => _ end = inr _ =>
             destruct x eqn:?; try discriminate H
         end.

Lemma parseMergeEntry_noSayAs lex e :
  parseMergeEntry lex = inr e -> noSayAs e /\ isNew e = None.
Proof.
  unfold parseMergeEntry, bind, check. intros H.
  step_parse H; inversion H; subst; repeat split.
Qed.

Lemma parseMergeEntries_noSayAs lexes index :
  Forall noSayAs (fst (parseMergeEntries index lexes)).
Proof.
  revert index; induction lexes as [|lex rest IH]; intros index; simpl.
  - constructor.
  - specialize (IH (S index)).
    destruct (parseMergeEntries (S index) rest) as [parsed errs].
    destruct (parseMergeEntry lex) as [err|e] eqn:He; simpl in *;
      [assumption|].
    constructor; [|assumption].
    exact (proj1 (parseMergeEntry_noSayAs _ _ He)).
Qed.

(** C9. An entry read from a merge file has no say-as tag (and no [isNew]
    mark); and the entry that resolution [merge] or [both] of a conflict
    with such an entry writes at the master index has no say-as tag,
    whatever tags the master entry had. *)
Theorem merge_drops_say_as :
  (forall lex e, parseMergeEntry lex = inr e -> noSayAs e /\ isNew e = None)
  /\ (forall lexes masterEntries c r resolvedEntries n,
        In c (conflictsOf masterEntries (fst (parseMergeEntries 0 lexes))) ->
        r = merge \/ r = both ->
        (masterIndex c < length resolvedEntries)%nat ->
        exists resolved' e',
          applyResolution (Some (resolvedEntries, n))
                          (withResolution c (Some r))
          = Some (resolved', S n)
          /\ nth_error resolved' (masterIndex c) = Some e'
          /\ noSayAs e').
Proof.
  split; [exact parseMergeEntry_noSayAs|].
  intros lexes ms c r resolvedEntries n Hin Hr Hi.
  apply conflictsOf_In in Hin as (_ & He & _).
  apply nth_error_In in He.
  pose proof (proj1 (Forall_forall _ _)
                (parseMergeEntries_noSayAs lexes 0) _ He) as [Ha Hp].
  destruct Hr as [-> | ->].
  - destruct (array_set_in_range resolvedEntries (masterIndex c)
                (markNew (mergeEntry c)) Hi) as (l' & Hset & _ & Hat & _).
    exists l', (markNew (mergeEntry c)).
    unfold applyResolution. simpl. rewrite Hset. simpl.
    repeat split; assumption.
  - destruct (array_set_in_range resolvedEntries (masterIndex c)
                (combineBoth (masterEntry c) (mergeEntry c)) Hi)
      as (l' & Hset & _ & Hat & _).
    exists l', (combineBoth (masterEntry c) (mergeEntry c)).
    unfold applyResolution. simpl. rewrite Hset. simpl.
    repeat split; assumption.
Qed.

End Scenarios.

(** ** Closed instances on the example runtime *)

Section Instances.

#[local] Existing Instance BasicLatin.runtime.

(** The counterexample to C1 as stated: the conflict analysis of Scenario
    B does not produce one conflict of type [additional_alias]; it
    produces none. *)
Lemma scenario_B_no_conflict :
  ~ exists c, conflictsOf [Examples.Cat] [Examples.cat] = [c]
              /\ type c = additional_alias.
Proof. intros [c [H _]]. vm_compute in H. discriminate. Qed.

Lemma scenario_B_identical_witness :
  toLowerCase (js "Cat") = toLowerCase (js "cat")
  /\ conflictsOf [Examples.Cat] [Examples.cat] = []
  /\ mergeSummary (analyzeConflicts (Examples.emptyState [Examples.Cat])
                                    [Examples.cat])
     = Some {| newEntries := 0; conflictsResolved := 0;
               identicalSkipped := 1; totalProcessed := 1;
               errorsFound := 0 |}.
Proof.
  split; [reflexivity|].
  exact (@scenario_B_identical BasicLatin.runtime None eq_refl).
Defined.

(** Where the alias is absent in the master entry and the empty string in
    the incoming one, as [processMergeFile] writes it, the entries of
    Scenario B differ in their alias to [areIdentical], and the analysis
    has one conflict, of type [additional_alias]. *)
Remark scenario_B_mixed_alias :
  map type (conflictsOf [Examples.Cat]
                        [Examples.aliased (Some []) Examples.cat])
  = [additional_alias].
Proof. reflexivity. Qed.

Lemma merge_gate_witness :
  (exists c, In c (mergeConflicts Examples.pendingState)
             /\ resolution c = None)
  /\ completeMergeDisabled Examples.pendingState = true
  /\ clickCompleteMerge Examples.pendingState = Some Examples.pendingState.
Proof.
  assert (H : exists c, In c (mergeConflicts Examples.pendingState)
                        /\ resolution c = None).
  { exists Examples.pendingConflict. split; [now left|reflexivity]. }
  split; [exact H|].
  destruct (@merge_gate BasicLatin.runtime Examples.pendingState H)
    as (Hd & Hc & _).
  now split.
Defined.

(** The gate of C2 is the button's: [finalizeMerge] itself, run on a state
    with a conflict that has no resolution, completes the merge. *)
Remark finalizeMerge_has_no_gate :
  exists st', finalizeMerge Examples.pendingState = Some st'
              /\ mergeConflicts st' = []
              /\ showConflictResolution st' = false.
Proof. eexists. split; [reflexivity|]. split; reflexivity. Qed.

(** The counterexample to C3 as stated: a master list with two homographs,
    merged with itself, has two conflicts, and the merge does not
    complete. *)
Lemma merge_of_homographs_conflicts :
  let l := [Examples.read_present; Examples.read_past] in
  length (conflictsOf l l) = 2%nat
  /\ mergeSummary (analyzeConflicts (Examples.emptyState l) l) = None.
Proof. split; reflexivity. Qed.

Lemma selfConsistent_cat_dog : selfConsistent [Examples.cat; Examples.dog].
Proof.
  split; [repeat constructor; discriminate|].
  intros m e [<-|[<-|[]]] [<-|[<-|[]]] Hov;
    try apply areIdentical_refl;
    apply sharesGrapheme_overlap in Hov; vm_compute in Hov; discriminate.
Qed.

Lemma merge_idempotent_witness :
  let st := Examples.emptyState [Examples.cat; Examples.dog] in
  selfConsistent (entries st)
  /\ conflictsOf (entries st) (entries st) = []
  /\ mergeConflicts (analyzeConflicts st (entries st)) = []
  /\ exists summary,
       mergeSummary (analyzeConflicts st (entries st)) = Some summary
       /\ newEntries summary = 0%nat
       /\ identicalSkipped summary = Z.of_nat (length (entries st))
       /\ totalProcessed summary = length (entries st).
Proof.
  split; [exact selfConsistent_cat_dog|].
  apply (@merge_idempotent BasicLatin.runtime (Examples.emptyState [Examples.cat; Examples.dog])).
  exact selfConsistent_cat_dog.
Defined.

Lemma both_resolution_witness :
  In Examples.pendingConflict (conflictsOf [Examples.cat] [Examples.cat_kat])
  /\ exists m resolved',
       nth_error [Examples.cat] 0 = Some m
       /\ applyResolution (Some ([Examples.cat], 0%nat))
            (withResolution Examples.pendingConflict (Some both))
          = Some (resolved', 1%nat)
       /\ nth_error resolved' 0
          = Some {| graphemes :=
                      unionGraphemes m (mergeEntry Examples.pendingConflict);
                    alias := incomingOrMaster
                               (alias (mergeEntry Examples.pendingConflict))
                               (alias m);
                    aliasSayAsType := None;
                    phoneme := incomingOrMaster
                                 (phoneme (mergeEntry Examples.pendingConflict))
                                 (phoneme m);
                    phonemeSayAsType := None;
                    isNew := Some true |}
       /\ forall j, j <> 0%nat ->
                    nth_error resolved' j = nth_error [Examples.cat] j.
Proof.
  assert (H : In Examples.pendingConflict
                 (conflictsOf [Examples.cat] [Examples.cat_kat]))
    by (now left).
  split; [exact H|].
  exact (proj1 (@both_resolution BasicLatin.runtime) [Examples.cat] [Examples.cat_kat]
               Examples.pendingConflict [Examples.cat] 0%nat H eq_refl).
Defined.

Lemma merge_drops_say_as_witness :
  exists c,
    In c (conflictsOf [Examples.cat_tagged]
            (fst (parseMergeEntries 0 [Examples.lexeme_cat_kat])))
    /\ exists resolved' e',
         applyResolution (Some ([Examples.cat_tagged], 0%nat))
                         (withResolution c (Some both))
         = Some (resolved', 1%nat)
         /\ nth_error resolved' (masterIndex c) = Some e'
         /\ noSayAs e'.
Proof.
  eexists. assert (H : In ?[c] (conflictsOf [Examples.cat_tagged]
            (fst (parseMergeEntries 0 [Examples.lexeme_cat_kat]))))
    by (vm_compute; left; reflexivity).
  split; [exact H|].
  apply (proj2 (@merge_drops_say_as BasicLatin.runtime) [Examples.lexeme_cat_kat]
               [Examples.cat_tagged] _ both [Examples.cat_tagged] 0%nat H).
  - now right.
  - vm_compute. lia.
Defined.

End Instances.

(** ** Trimming, splitting and joining *)

Lemma trimStart_length s : (length (JS.trimStart s) <= length s)%nat.
Proof.
  induction s as [|c r IH]; simpl; [lia|].
  destruct (JS.isWhiteSpace c); simpl; lia.
Qed.

Lemma trimStart_head s :
  JS.trimStart s = []
  \/ exists c r, JS.trimStart s = c :: r /\ JS.isWhiteSpace c = false.
Proof.
  induction s as [|c r IH]; simpl; [now left|].
  destruct (JS.isWhiteSpace c) eqn:Hc; [assumption|].
  right. now exists c, r.
Qed.

Lemma trimStart_fixed c r :
  JS.isWhiteSpace c = false -> JS.trimStart (c :: r) = c :: r.
Proof. intros H. simpl. now rewrite H. Qed.

Lemma trimStart_snoc l c :
  JS.isWhiteSpace c = false -> exists l', JS.trimStart (l ++ [c]) = l' ++ [c].
Proof.
  intros Hc. induction l as [|x l IH]; simpl.
  - rewrite Hc. now exists [].
  - destruct (JS.isWhiteSpace x); [assumption|].
    now exists (x :: l).
Qed.

Lemma trimEnd_head c r :
  JS.isWhiteSpace c = false -> exists r', JS.trimEnd (c :: r) = c :: r'.
Proof.
  intros Hc. unfold JS.trimEnd. simpl.
  destruct (trimStart_snoc (rev r) c Hc) as [l' Hl']. rewrite Hl'.
  rewrite rev_app_distr. simpl. now exists (rev l').
Qed.

Lemma trimEnd_length s : (length (JS.trimEnd s) <= length s)%nat.
Proof.
  unfold JS.trimEnd. rewrite length_rev.
  rewrite <- (length_rev s). apply trimStart_length.
Qed.

Lemma trimEnd_idem s : JS.trimEnd (JS.trimEnd s) = JS.trimEnd s.
Proof.
  unfold JS.trimEnd. rewrite rev_involutive. f_equal.
  destruct (trimStart_head (rev s)) as [H|(c & r & H & Hc)]; rewrite H.
  - reflexivity.
  - now apply trimStart_fixed.
Qed.

Lemma trim_idem s : JS.trim (JS.trim s) = JS.trim s.
Proof.
  unfold JS.trim.
  destruct (trimStart_head s) as [H|(c & r & H & Hc)]; rewrite H.
  - reflexivity.
  - destruct (trimEnd_head c r Hc) as [r' Hr']. rewrite Hr'.
    rewrite (trimStart_fixed c r' Hc), <- Hr'. apply trimEnd_idem.
Qed.

(** A trimmed string that is not empty starts with a code unit that is
    no white space. *)
Lemma trimmed_head c r :
  JS.trim (c :: r) = c :: r -> JS.isWhiteSpace c = false.
Proof.
  intros H. destruct (JS.isWhiteSpace c) eqn:Hc; [exfalso|reflexivity].
  assert (Hlen : (length (JS.trim (c :: r)) <= length r)%nat).
  { unfold JS.trim. simpl. rewrite Hc.
    etransitivity; [apply trimEnd_length|apply trimStart_length]. }
  rewrite H in Hlen. simpl in Hlen. lia.
Qed.

Lemma isDataLine_head c r :
  JS.isWhiteSpace c = false -> (c =? JS.HASH)%N = false ->
  isDataLine (c :: r) = true.
Proof.
  intros Hc Hh. unfold isDataLine, JS.trim.
  rewrite (trimStart_fixed c r Hc).
  destruct (trimEnd_head c r Hc) as [r' ->]. simpl. now rewrite Hh.
Qed.

Lemma split_no_sep sep s :
  JS.includesUnit s sep = false -> JS.split sep s = [s].
Proof.
  unfold JS.includesUnit. induction s as [|c r IH]; simpl; [reflexivity|].
  intros H. apply orb_false_iff in H as [Hc Hr].
  rewrite N.eqb_sym, Hc. now rewrite (IH Hr).
Qed.

Lemma split_app_sep sep s rest :
  JS.includesUnit s sep = false ->
  JS.split sep (s ++ sep :: rest) = s :: JS.split sep rest.
Proof.
  unfold JS.includesUnit. induction s as [|c r IH]; simpl.
  - intros _. now rewrite N.eqb_refl.
  - intros H. apply orb_false_iff in H as [Hc Hr].
    rewrite N.eqb_sym, Hc. now rewrite (IH Hr).
Qed.

Lemma split_join sep lines :
  lines <> [] ->
  Forall (fun l => JS.includesUnit l sep = false) lines ->
  JS.split sep (JS.join sep lines) = lines.
Proof.
  induction lines as [|x [|y r] IH]; intros Hne Hall; [congruence| |].
  - simpl. apply split_no_sep. now inversion Hall.
  - inversion Hall as [|? ? Hx Hr]; subst.
    change (JS.join sep (x :: y :: r)) with (x ++ sep :: JS.join sep (y :: r)).
    rewrite (split_app_sep _ _ _ Hx). f_equal. now apply IH.
Qed.

Lemma includesUnit_app s t c :
  JS.includesUnit (s ++ t) c = JS.includesUnit s c || JS.includesUnit t c.
Proof. unfold JS.includesUnit. apply existsb_app. Qed.

Lemma includesUnit_join sep cells c :
  (c =? sep)%N = false ->
  Forall (fun s => JS.includesUnit s c = false) cells ->
  JS.includesUnit (JS.join sep cells) c = false.
Proof.
  intros Hsep. induction cells as [|x [|y r] IH]; intros Hall.
  - reflexivity.
  - simpl. now inversion Hall.
  - inversion Hall as [|? ? Hx Hr]; subst.
    change (JS.join sep (x :: y :: r)) with (x ++ sep :: JS.join sep (y :: r)).
    rewrite includesUnit_app, Hx. simpl. rewrite Hsep. now apply IH.
Qed.

Lemma join_head sep c (h : jsstring) (rows : list jsstring) :
  exists t, JS.join sep (@cons jsstring (c :: h) rows) = c :: t.
Proof. destruct rows; simpl; eauto. Qed.


(** ** The decoders *)

Lemma cell_trimmed columns i : JS.trim (cell columns i) = cell columns i.
Proof.
  unfold cell. destruct i as [n|]; [|reflexivity].
  destruct (nth_error columns n); [apply trim_idem|reflexivity].
Qed.

Lemma orUndefined_trimmed s :
  JS.trim s = s -> trimmedOrAbsent (JS.orUndefined s).
Proof.
  intros H. unfold JS.orUndefined.
  destruct (JS.truthy s) eqn:Ht; simpl; [|exact I].
  split; [now apply truthy_nonempty|assumption].
Qed.

Lemma orUndefined_blank s : s = [] -> JS.orUndefined s = None.
Proof. now intros ->. Qed.

Lemma map_has_app m k e k' :
  map_has (m ++ [(k, e)]) k' = map_has m k' || JS.eqb k k'.
Proof.
  unfold map_has. rewrite existsb_app. simpl. now rewrite orb_false_r.
Qed.

Lemma map_push_absent m k e g :
  map_has m k = false ->
  map_push (m ++ [(k, e)]) k g = m ++ [(k, pushGrapheme e g)].
Proof.
  unfold map_has. induction m as [|[k' e'] m IH]; simpl.
  - now rewrite eqb_refl.
  - intros H. apply orb_false_iff in H as [Hk Hm].
    rewrite Hk. now rewrite (IH Hm).
Qed.

Lemma map_push_Forall (Q : LexiconEntry -> Prop) m k g :
  (forall e, Q e -> Q (pushGrapheme e g)) ->
  Forall (fun kv => Q (snd kv)) m ->
  Forall (fun kv => Q (snd kv)) (map_push m k g).
Proof.
  intros Hq. induction m as [|[k' e'] m IH]; intros Hall; simpl;
    [constructor|].
  inversion Hall as [|? ? He Hm]; subst.
  destruct (JS.eqb k' k); constructor; simpl in *; auto.
Qed.

Lemma wellDecoded_push e g :
  g <> [] -> JS.trim g = g -> wellDecoded e -> wellDecoded (pushGrapheme e g).
Proof.
  intros Hg Ht (Hne & Hgs & Hrest). unfold wellDecoded; simpl.
  split; [now destruct (graphemes e)|].
  split; [|exact Hrest].
  apply Forall_app. split; [assumption|]. now repeat constructor.
Qed.

(** What [addRow] does with a row whose grapheme cell is not blank and
    whose key is new: it adds one entry, with the grapheme and the cells
    of the row, an empty cell being an absent field. *)
Lemma addRow_new splitLine headers m line :
  let columns := splitLine line in
  let grapheme := cell columns (JS.indexOf headers (js "grapheme")) in
  let al := cell columns (JS.indexOf headers (js "alias")) in
  let alSayAs := cell columns (JS.indexOf headers (js "alias_say_as")) in
  let ph := cell columns (JS.indexOf headers (js "phoneme")) in
  let phSayAs := cell columns (JS.indexOf headers (js "phoneme_say_as")) in
  grapheme <> [] ->
  map_has m (entryKey al alSayAs ph phSayAs) = false ->
  addRow splitLine headers m line
  = m ++ [(entryKey al alSayAs ph phSayAs,
           {| graphemes := [grapheme]; alias := JS.orUndefined al;
              aliasSayAsType := JS.orUndefined alSayAs;
              phoneme := JS.orUndefined ph;
              phonemeSayAsType := JS.orUndefined phSayAs;
              isNew := None |})].
Proof.
  cbn zeta. intros Hg Hk. unfold addRow.
  apply truthy_nonempty in Hg. rewrite Hg, Hk. simpl.
  now rewrite (map_push_absent _ _ _ _ Hk).
Qed.

Lemma addRow_wellDecoded splitLine headers m line :
  Forall (fun kv => wellDecoded (snd kv)) m ->
  Forall (fun kv => wellDecoded (snd kv)) (addRow splitLine headers m line).
Proof.
  intros Hm. unfold addRow.
  set (columns := splitLine line).
  set (g := cell columns (JS.indexOf headers (js "grapheme"))).
  destruct (JS.truthy g) eqn:Hg; simpl; [|assumption].
  apply truthy_nonempty in Hg.
  assert (Hpush : forall e, wellDecoded e -> wellDecoded (pushGrapheme e g)).
  { intros e. apply wellDecoded_push; [assumption|apply cell_trimmed]. }
  match goal with |- context [map_has m ?k] => set (key := k) end.
  destruct (map_has m key) eqn:Hk.
  - now apply map_push_Forall.
  - rewrite (map_push_absent _ _ _ _ Hk).
    apply Forall_app. split; [assumption|]. constructor; [|constructor].
    simpl. unfold wellDecoded; simpl.
    split; [discriminate|]. split.
    + constructor; [|constructor]. split; [assumption|apply cell_trimmed].
    + repeat split; apply orUndefined_trimmed, cell_trimmed.
Qed.

Lemma parseRows_wellDecoded splitLine content es :
  parseRows splitLine content = inr es -> Forall wellDecoded es.
Proof.
  unfold parseRows.
  destruct (filter isDataLine _) as [|headerLine [|row rows]];
    try discriminate.
  destruct (negb _); [discriminate|]. intros [= <-].
  assert (H : forall l m,
             Forall (fun kv => wellDecoded (snd kv)) m ->
             Forall (fun kv => wellDecoded (snd kv))
                    (fold_left (addRow splitLine (splitLine headerLine)) l m)).
  { induction l as [|x l IH]; intros m Hm; simpl; [assumption|].
    apply IH. now apply addRow_wellDecoded. }
  apply Forall_map. apply (H (row :: rows) []). constructor.
Qed.

(** C10. The decoders of CSV and TSV read every cell of a data row
    trimmed ([cell]); a data row whose grapheme cell is blank after
    trimming leaves the entry map as it is, and is no error; a row with a
    new key adds an entry in which a blank alias or phoneme cell is an
    absent field; and in every entry of a decoded list, the graphemes are
    there, not empty and trimmed, and each other field is absent or not
    empty and trimmed. *)
Theorem decoders_trim_and_skip :
  (forall columns i, JS.trim (cell columns i) = cell columns i)
  /\ (forall splitLine headers m line,
        cell (splitLine line) (JS.indexOf headers (js "grapheme")) = [] ->
        addRow splitLine headers m line = m)
  /\ (forall splitLine headers m line,
        let columns := splitLine line in
        let al := cell columns (JS.indexOf headers (js "alias")) in
        let alSayAs := cell columns (JS.indexOf headers (js "alias_say_as")) in
        let ph := cell columns (JS.indexOf headers (js "phoneme")) in
        let phSayAs :=
          cell columns (JS.indexOf headers (js "phoneme_say_as")) in
        cell columns (JS.indexOf headers (js "grapheme")) <> [] ->
        map_has m (entryKey al alSayAs ph phSayAs) = false ->
        exists e,
          addRow splitLine headers m line
          = m ++ [(entryKey al alSayAs ph phSayAs, e)]
          /\ (al = [] -> alias e = None)
          /\ (ph = [] -> phoneme e = None))
  /\ (forall content es,
        parseTSV content = inr es \/ parseCSV content = inr es ->
        Forall wellDecoded es).
Proof.
  split; [exact cell_trimmed|]. split; [|split].
  - intros splitLine headers m line H. unfold addRow. now rewrite H.
  - cbn zeta. intros splitLine headers m line Hg Hk.
    eexists. split; [now apply addRow_new|].
    simpl. split; apply orUndefined_blank.
  - intros content es [H|H]; exact (parseRows_wellDecoded _ _ _ H).
Qed.

Lemma decoders_trim_and_skip_witness :
  exists es,
    parseCSV Examples.csv_with_blanks = inr es
    /\ length es = 1%nat
    /\ Forall wellDecoded es.
Proof.
  eexists. assert (H : parseCSV Examples.csv_with_blanks = inr ?[es])
    by (vm_compute; reflexivity).
  split; [exact H|]. split; [reflexivity|].
  exact (proj2 (proj2 (proj2 decoders_trim_and_skip)) _ _ (or_intror H)).
Defined.


(** ** Round trip through the CSV and TSV codecs *)

Lemma buildTSV_encodeWith es : buildTSV es = encodeWith (JS.join JS.TAB) es.
Proof. reflexivity. Qed.

Lemma buildCSV_encodeWith es : buildCSV es = encodeWith csvRow es.
Proof. reflexivity. Qed.

Lemma fold_pushGrapheme gs e g0 :
  fold_left pushGrapheme gs (created e g0) = created e (g0 ++ gs).
Proof.
  revert g0; induction gs as [|g gs IH]; intros g0; simpl.
  - now rewrite app_nil_r.
  - change (pushGrapheme (created e g0) g) with (created e (g0 ++ [g])).
    rewrite IH. now rewrite <- app_assoc.
Qed.

Section RoundTrip.

Variable splitLine : jsstring -> list jsstring.
Variable mkRow : list jsstring -> jsstring.
Variable cellOk : jsstring -> Prop.

Hypothesis split_header : splitLine (mkRow expectedHeaders) = expectedHeaders.
Hypothesis split_row : forall g e,
  cellOk g -> Forall cellOk (otherCells e) ->
  splitLine (mkRow (g :: otherCells e)) = g :: otherCells e.
Hypothesis cell_is_trimmed : forall s, cellOk s -> JS.trim s = s.
Hypothesis row_is_data : forall g others,
  cellOk g -> g <> [] -> JS.startsWithUnit g JS.HASH = false ->
  isDataLine (mkRow (g :: others)) = true.
Hypothesis row_one_line : forall g others,
  cellOk g -> Forall cellOk others ->
  JS.includesUnit (mkRow (g :: others)) JS.LF = false.
Hypothesis header_one_line :
  JS.includesUnit (mkRow expectedHeaders) JS.LF = false.
Hypothesis header_is_data : isDataLine (mkRow expectedHeaders) = true.
Hypothesis header_head : exists t, mkRow expectedHeaders = 103%N :: t.

Lemma addRow_built m g e :
  cellOk g -> g <> [] -> Forall cellOk (otherCells e) ->
  addRow splitLine expectedHeaders m (mkRow (g :: otherCells e))
  = map_push (if map_has m (rowKey e) then m
              else m ++ [(rowKey e, created e [])])
             (rowKey e) g.
Proof.
  intros Hg Hne Hcells. unfold addRow.
  rewrite (split_row _ _ Hg Hcells).
  change (JS.indexOf expectedHeaders (js "grapheme")) with (Some 0%nat).
  change (JS.indexOf expectedHeaders (js "alias")) with (Some 1%nat).
  change (JS.indexOf expectedHeaders (js "alias_say_as")) with (Some 2%nat).
  change (JS.indexOf expectedHeaders (js "phoneme")) with (Some 3%nat).
  change (JS.indexOf expectedHeaders (js "phoneme_say_as")) with (Some 4%nat).
  unfold otherCells in *. unfold cell; cbn [nth_error].
  inversion Hcells as [|? ? Ha H1]; subst.
  inversion H1 as [|? ? Has H2]; subst.
  inversion H2 as [|? ? Hp H3]; subst.
  inversion H3 as [|? ? Hps _]; subst.
  rewrite !cell_is_trimmed by assumption.
  apply truthy_nonempty in Hne. rewrite Hne. reflexivity.
Qed.

Lemma fold_rows_known m0 e ent gs :
  map_has m0 (rowKey e) = false ->
  Forall cellOk (otherCells e) ->
  Forall (fun g => cellOk g /\ g <> []
                   /\ JS.startsWithUnit g JS.HASH = false) gs ->
  fold_left (addRow splitLine expectedHeaders)
            (map (fun g => mkRow (g :: otherCells e)) gs)
            (m0 ++ [(rowKey e, ent)])
  = m0 ++ [(rowKey e, fold_left pushGrapheme gs ent)].
Proof.
  intros Hk Hcells. revert ent.
  induction gs as [|g gs IH]; intros ent Hgs; simpl; [reflexivity|].
  inversion Hgs as [|? ? (Hg & Hne & _) Hrest]; subst.
  rewrite (addRow_built _ _ _ Hg Hne Hcells).
  rewrite map_has_app, Hk, eqb_refl. simpl.
  rewrite (map_push_absent _ _ _ _ Hk). now apply IH.
Qed.

Lemma fold_rows_entry m e :
  map_has m (rowKey e) = false -> exportable cellOk e ->
  fold_left (addRow splitLine expectedHeaders) (rowsOf mkRow e) m
  = m ++ [(rowKey e, decoded e)].
Proof.
  intros Hk (Hne & Hgs & Hcells). unfold rowsOf.
  destruct (graphemes e) as [|g gs] eqn:Hge; [congruence|]. simpl.
  inversion Hgs as [|? ? (Hg & Hgne & _) Hrest]; subst.
  rewrite (addRow_built _ _ _ Hg Hgne Hcells), Hk.
  rewrite (map_push_absent _ _ _ _ Hk).
  rewrite (fold_rows_known _ _ _ _ Hk Hcells Hrest).
  change (pushGrapheme (created e []) g) with (created e [g]).
  rewrite fold_pushGrapheme. unfold decoded, created. now rewrite Hge.
Qed.

Lemma fold_rows_all es m :
  (forall e, In e es -> map_has m (rowKey e) = false) ->
  NoDup (map rowKey es) -> Forall (exportable cellOk) es ->
  fold_left (addRow splitLine expectedHeaders) (flat_map (rowsOf mkRow) es) m
  = m ++ map (fun e => (rowKey e, decoded e)) es.
Proof.
  revert m; induction es as [|e es IH]; intros m Hm Hnd Hex; simpl.
  - now rewrite app_nil_r.
  - inversion Hnd as [|? ? Hnotin Hnd']; subst.
    inversion Hex as [|? ? He Hex']; subst.
    rewrite fold_left_app.
    rewrite (fold_rows_entry _ _ (Hm e (or_introl eq_refl)) He).
    rewrite IH; [now rewrite <- app_assoc| |assumption|assumption].
    intros e' He'. rewrite map_has_app, (Hm e' (or_intror He')). simpl.
    apply eqb_neq. intros Heq. apply Hnotin. rewrite Heq.
    now apply in_map.
Qed.

Lemma rows_are_data es :
  Forall (exportable cellOk) es ->
  Forall (fun l => isDataLine l = true
                   /\ JS.includesUnit l JS.LF = false)
         (flat_map (rowsOf mkRow) es).
Proof.
  induction es as [|e es IH]; intros Hex; simpl; [constructor|].
  inversion Hex as [|? ? (Hne & Hgs & Hcells) Hex']; subst.
  apply Forall_app. split; [|now apply IH].
  unfold rowsOf. apply Forall_map.
  eapply Forall_impl; [|exact Hgs].
  intros g (Hg & Hgne & Hhash). simpl. split.
  - now apply row_is_data.
  - now apply row_one_line.
Qed.

Lemma filter_all {A} (f : A -> bool) l :
  Forall (fun x => f x = true) l -> filter f l = l.
Proof.
  induction 1 as [|x l Hx _ IH]; simpl; [reflexivity|].
  now rewrite Hx, IH.
Qed.

Lemma decode_encode es :
  es <> [] -> Forall (exportable cellOk) es -> NoDup (map rowKey es) ->
  parseRows splitLine (encodeWith mkRow es) = inr (map decoded es).
Proof.
  intros Hne Hex Hnd. unfold parseRows, encodeWith.
  pose proof (rows_are_data es Hex) as Hrows.
  set (rows := flat_map (rowsOf mkRow) es) in *.
  assert (Hrows_ne : exists r rs, rows = r :: rs).
  { destruct es as [|e es']; [congruence|].
    inversion Hex as [|? ? (Hge & _) _]; subst. subst rows. simpl.
    unfold rowsOf at 1. destruct (graphemes e); [congruence|].
    simpl. eauto. }
  destruct header_head as [t Ht].
  assert (Hbom : JS.startsWithUnit
                   (JS.join JS.LF (mkRow expectedHeaders :: rows)) JS.BOM
                 = false).
  { rewrite Ht. destruct (join_head JS.LF 103%N t rows) as [t' ->].
    reflexivity. }
  rewrite Hbom.
  rewrite split_join; [|discriminate|].
  2:{ constructor; [assumption|].
      eapply Forall_impl; [|exact Hrows]. now intros l [_ H]. }
  rewrite filter_all.
  2:{ constructor; [assumption|].
      eapply Forall_impl; [|exact Hrows]. now intros l [H _]. }
  destruct Hrows_ne as (r & rs & Hr). rewrite Hr.
  rewrite split_header.
  change (negb (forallb (JS.includes expectedHeaders) expectedHeaders))
    with false.
  cbv iota. rewrite <- Hr. subst rows. f_equal.
  rewrite fold_rows_all by (auto; intros; reflexivity).
  simpl. rewrite map_map. reflexivity.
Qed.

End RoundTrip.


(** *** The TSV codec *)

Lemma nonblank_head (g : jsstring) :
  g <> [] -> JS.trim g = g -> JS.startsWithUnit g JS.HASH = false ->
  exists c r, g = c :: r /\ JS.isWhiteSpace c = false
              /\ (c =? JS.HASH)%N = false.
Proof.
  destruct g as [|c r]; [congruence|]. intros _ Ht Hh.
  exists c, r. split; [reflexivity|]. split; [|exact Hh].
  exact (trimmed_head c r Ht).
Qed.

Lemma tsv_row_is_data g others :
  tsvCell g -> g <> [] -> JS.startsWithUnit g JS.HASH = false ->
  isDataLine (JS.join JS.TAB (g :: others)) = true.
Proof.
  intros (Ht & _) Hne Hh.
  destruct (nonblank_head g Hne Ht Hh) as (c & r & -> & Hc & Hhash).
  destruct (join_head JS.TAB c r others) as [t ->].
  now apply isDataLine_head.
Qed.

Lemma tsv_split_row g e :
  tsvCell g -> Forall tsvCell (otherCells e) ->
  JS.split JS.TAB (JS.join JS.TAB (g :: otherCells e)) = g :: otherCells e.
Proof.
  intros Hg Hcells. apply split_join; [discriminate|].
  constructor; [apply Hg|].
  eapply Forall_impl; [|exact Hcells]. now intros s (_ & _ & H).
Qed.

Lemma tsv_row_one_line g others :
  tsvCell g -> Forall tsvCell others ->
  JS.includesUnit (JS.join JS.TAB (g :: others)) JS.LF = false.
Proof.
  intros Hg Hcells. apply includesUnit_join; [reflexivity|].
  constructor; [apply Hg|].
  eapply Forall_impl; [|exact Hcells]. now intros s (_ & H & _).
Qed.

Lemma tsv_decode_encode es :
  es <> [] -> Forall (exportable tsvCell) es -> NoDup (map rowKey es) ->
  parseTSV (buildTSV es) = inr (map decoded es).
Proof.
  intros Hne Hex Hnd. rewrite buildTSV_encodeWith. unfold parseTSV.
  apply (decode_encode (JS.split JS.TAB) (JS.join JS.TAB) tsvCell);
    try assumption.
  - reflexivity.
  - exact tsv_split_row.
  - now intros s (H & _).
  - exact tsv_row_is_data.
  - exact tsv_row_one_line.
  - reflexivity.
  - reflexivity.
  - eexists. reflexivity.
Qed.

(** *** The CSV codec *)

Lemma loop_plain s rest cur res :
  JS.includesUnit s JS.QUOTE = false -> JS.includesUnit s JS.COMMA = false ->
  parseCSVLine_loop (s ++ rest) cur false res
  = parseCSVLine_loop rest (cur ++ s) false res.
Proof.
  unfold JS.includesUnit. revert cur.
  induction s as [|c s IH]; intros cur Hq Hc.
  - now rewrite app_nil_r.
  - cbn [existsb] in Hq, Hc.
    apply orb_false_iff in Hq as [Hq Hqs].
    apply orb_false_iff in Hc as [Hc Hcs].
    rewrite N.eqb_sym in Hq. rewrite N.eqb_sym in Hc.
    cbn [app parseCSVLine_loop]. rewrite Hq, Hc. cbn [andb].
    rewrite (IH _ Hqs Hcs). now rewrite <- app_assoc.
Qed.

Lemma loop_quoted s rest cur res :
  JS.startsWithUnit rest JS.QUOTE = false ->
  parseCSVLine_loop (doubleQuotes s ++ JS.QUOTE :: rest) cur true res
  = parseCSVLine_loop rest (cur ++ s) false res.
Proof.
  intros Hrest. revert cur.
  induction s as [|c s IH]; intros cur.
  - rewrite app_nil_r. simpl.
    destruct rest as [|x rest']; [reflexivity|].
    simpl in Hrest. now rewrite Hrest.
  - simpl. destruct (c =? JS.QUOTE)%N eqn:Hc.
    + apply N.eqb_eq in Hc. subst c. simpl.
      rewrite IH. now rewrite <- app_assoc.
    + simpl. rewrite Hc, andb_false_r, IH. now rewrite <- app_assoc.
Qed.

Lemma loop_cell s rest cur res :
  JS.startsWithUnit rest JS.QUOTE = false ->
  parseCSVLine_loop (escapeCSV s ++ rest) cur false res
  = parseCSVLine_loop rest (cur ++ s) false res.
Proof.
  intros Hrest. unfold escapeCSV.
  destruct s as [|c s]; [now rewrite app_nil_r|].
  cbn [JS.truthy negb].
  destruct (JS.includesUnit (c :: s) JS.COMMA
            || JS.includesUnit (c :: s) JS.QUOTE
            || JS.includesUnit (c :: s) JS.LF
            || JS.includesUnit (c :: s) JS.CR) eqn:Hq.
  - change ((JS.QUOTE :: doubleQuotes (c :: s) ++ [JS.QUOTE]) ++ rest)
      with (JS.QUOTE :: (doubleQuotes (c :: s) ++ [JS.QUOTE]) ++ rest).
    rewrite <- app_assoc.
    change ([JS.QUOTE] ++ rest) with (JS.QUOTE :: rest).
    rewrite <- (loop_quoted (c :: s) rest cur res Hrest).
    destruct (doubleQuotes (c :: s) ++ JS.QUOTE :: rest) eqn:Hd;
      [now destruct (doubleQuotes (c :: s))|].
    reflexivity.
  - apply orb_false_iff in Hq as [Hq _].
    apply orb_false_iff in Hq as [Hq _].
    apply orb_false_iff in Hq as [Hcomma Hquote].
    now apply loop_plain.
Qed.

Lemma csvRow_cons x y r :
  csvRow (x :: y :: r) = escapeCSV x ++ JS.COMMA :: csvRow (y :: r).
Proof. reflexivity. Qed.

Lemma parse_cells cells res :
  cells <> [] ->
  parseCSVLine_loop (csvRow cells) [] false res = res ++ cells.
Proof.
  revert res. induction cells as [|x [|y r] IH]; intros res Hne;
    [congruence| |].
  - unfold csvRow. simpl.
    rewrite <- (app_nil_r (escapeCSV x)).
    now rewrite loop_cell.
  - rewrite csvRow_cons, loop_cell by reflexivity.
    simpl. rewrite IH by discriminate. now rewrite <- app_assoc.
Qed.

Lemma parseCSVLine_csvRow cells :
  cells <> [] -> parseCSVLine (csvRow cells) = cells.
Proof. intros H. unfold parseCSVLine. now rewrite parse_cells. Qed.

Lemma includesUnit_doubleQuotes s :
  JS.includesUnit s JS.LF = false ->
  JS.includesUnit (doubleQuotes s) JS.LF = false.
Proof.
  unfold JS.includesUnit, doubleQuotes.
  induction s as [|c s IH]; simpl; [reflexivity|].
  intros H. apply orb_false_iff in H as [Hc Hs].
  rewrite existsb_app, (IH Hs), orb_false_r.
  destruct (c =? JS.QUOTE)%N; simpl; [reflexivity|].
  now rewrite Hc.
Qed.

Lemma includesUnit_escapeCSV s :
  JS.includesUnit s JS.LF = false ->
  JS.includesUnit (escapeCSV s) JS.LF = false.
Proof.
  intros H. unfold escapeCSV.
  destruct (negb (JS.truthy s)); [reflexivity|].
  destruct (_ || _); [|assumption].
  change (JS.QUOTE :: doubleQuotes s ++ [JS.QUOTE])
    with ([JS.QUOTE] ++ doubleQuotes s ++ [JS.QUOTE]).
  rewrite !includesUnit_app, (includesUnit_doubleQuotes s H). reflexivity.
Qed.

Lemma escapeCSV_head c r :
  JS.isWhiteSpace c = false -> (c =? JS.HASH)%N = false ->
  exists c' r', escapeCSV (c :: r) = c' :: r'
                /\ JS.isWhiteSpace c' = false /\ (c' =? JS.HASH)%N = false.
Proof.
  intros Hc Hh. unfold escapeCSV. cbn [JS.truthy negb].
  destruct (_ || _).
  - exists JS.QUOTE. eexists. repeat split.
  - now exists c, r.
Qed.

Lemma csv_row_is_data g others :
  csvCell g -> g <> [] -> JS.startsWithUnit g JS.HASH = false ->
  isDataLine (csvRow (g :: others)) = true.
Proof.
  intros (Ht & _) Hne Hh.
  destruct (nonblank_head g Hne Ht Hh) as (c & r & -> & Hc & Hhash).
  destruct (escapeCSV_head c r Hc Hhash) as (c' & r' & He & Hc' & Hh').
  unfold csvRow. cbn [map]. rewrite He.
  destruct (join_head JS.COMMA c' r' (map escapeCSV others)) as [t ->].
  now apply isDataLine_head.
Qed.

Lemma csv_row_one_line g others :
  csvCell g -> Forall csvCell others ->
  JS.includesUnit (csvRow (g :: others)) JS.LF = false.
Proof.
  intros Hg Hcells. unfold csvRow.
  apply includesUnit_join; [reflexivity|].
  apply Forall_map. constructor.
  - apply includesUnit_escapeCSV, Hg.
  - eapply Forall_impl; [|exact Hcells].
    intros s (_ & H). now apply includesUnit_escapeCSV.
Qed.

Lemma csv_decode_encode es :
  es <> [] -> Forall (exportable csvCell) es -> NoDup (map rowKey es) ->
  parseCSV (buildCSV es) = inr (map decoded es).
Proof.
  intros Hne Hex Hnd. rewrite buildCSV_encodeWith. unfold parseCSV.
  apply (decode_encode parseCSVLine csvRow csvCell); try assumption.
  - reflexivity.
  - intros g e _ _. now apply parseCSVLine_csvRow.
  - now intros s (H & _).
  - exact csv_row_is_data.
  - exact csv_row_one_line.
  - reflexivity.
  - reflexivity.
  - eexists. reflexivity.
Qed.

Lemma orEmpty_orUndefined s : JS.orEmpty (JS.orUndefined s) = s.
Proof. now destruct s. Qed.

Lemma sameFields_decoded e : sameFields e (decoded e).
Proof.
  unfold sameFields, decoded; simpl.
  now rewrite !orEmpty_orUndefined.
Qed.

Lemma Forall2_decoded es : Forall2 sameFields es (map decoded es).
Proof.
  induction es; simpl; constructor; [apply sameFields_decoded|assumption].
Qed.

(** C8, as the code has it. For a list of entries that is not empty, in
    which no two entries have the same key of the decoders (alias, alias
    say-as, phoneme and phoneme say-as, joined by bars), and in which
    every entry has a grapheme, every grapheme is not empty and does not
    start with a hash sign, and every cell is trimmed and has no line feed
    (and, for TSV, no tab): decoding the TSV text, and decoding the CSV
    text, of the list returns its entries, in order, with the same
    graphemes, alias, alias say-as, phoneme and phoneme say-as, an empty
    field being an absent one. *)
Theorem codecs_roundtrip es :
  es <> [] -> NoDup (map rowKey es) ->
  (Forall (exportable tsvCell) es ->
     exists ds, parseTSV (buildTSV es) = inr ds /\ Forall2 sameFields es ds)
  /\ (Forall (exportable csvCell) es ->
     exists ds, parseCSV (buildCSV es) = inr ds /\ Forall2 sameFields es ds).
Proof.
  intros Hne Hnd. split; intros Hex; exists (map decoded es);
    (split; [|apply Forall2_decoded]).
  - now apply tsv_decode_encode.
  - now apply csv_decode_encode.
Qed.

(** The counterexample to C8 as stated: "dog" and "hound", two entries
    with one phoneme, both within the content invariant, come back from
    the TSV text, and from the CSV text, as one entry with two graphemes. *)
Lemma roundtrip_groups_entries :
  let es := [Examples.dog; Examples.hound] in
  Forall contentInvariant es
  /\ parseTSV (buildTSV es) = inr [Examples.dog_hound]
  /\ parseCSV (buildCSV es) = inr [Examples.dog_hound]
  /\ ~ Forall2 sameFields es [Examples.dog_hound].
Proof.
  cbn zeta. split; [|split; [|split]].
  - repeat constructor; try discriminate; right; discriminate.
  - reflexivity.
  - reflexivity.
  - intros H. inversion H as [|? ? ? ? _ Hrest]; subst. inversion Hrest.
Qed.

Lemma tsvCell_computed s :
  JS.eqb (JS.trim s) s && negb (JS.includesUnit s JS.LF)
  && negb (JS.includesUnit s JS.TAB) = true ->
  tsvCell s.
Proof.
  intros H. apply andb_true_iff in H as [H Htab].
  apply andb_true_iff in H as [Ht Hlf].
  apply eqb_eq in Ht. apply negb_true_iff in Hlf, Htab. now repeat split.
Qed.

Lemma exportable_word g ph :
  g <> [] -> JS.startsWithUnit g JS.HASH = false ->
  tsvCell g -> tsvCell ph -> exportable tsvCell (Examples.word g ph).
Proof.
  intros Hne Hh Hg Hph. unfold exportable, otherCells; simpl.
  assert (He : tsvCell []) by (now apply tsvCell_computed).
  split; [discriminate|]. split.
  - constructor; [exact (conj Hg (conj Hne Hh))|constructor].
  - exact (Forall_cons _ He (Forall_cons _ He (Forall_cons _ Hph
             (Forall_cons _ He (Forall_nil _))))).
Qed.

Lemma tsvCell_csvCell s : tsvCell s -> csvCell s.
Proof. intros (H1 & H2 & _). now split. Qed.

Lemma exportable_tsv_csv e : exportable tsvCell e -> exportable csvCell e.
Proof.
  intros (Hne & Hgs & Hcells). split; [assumption|]. split.
  - eapply Forall_impl; [|exact Hgs].
    intros g (Hg & H). split; [now apply tsvCell_csvCell|exact H].
  - eapply Forall_impl; [|exact Hcells]. exact tsvCell_csvCell.
Qed.

Lemma codecs_roundtrip_witness :
  let es := [Examples.cat; Examples.dog] in
  (exists ds, parseTSV (buildTSV es) = inr ds /\ Forall2 sameFields es ds)
  /\ (exists ds, parseCSV (buildCSV es) = inr ds /\ Forall2 sameFields es ds).
Proof.
  cbn zeta.
  assert (Hne : [Examples.cat; Examples.dog] <> []) by discriminate.
  assert (Hnd : NoDup (map rowKey [Examples.cat; Examples.dog])).
  { repeat constructor; simpl; intuition discriminate. }
  assert (Hex : Forall (exportable tsvCell) [Examples.cat; Examples.dog]).
  { constructor; [|constructor; [|constructor]];
      apply exportable_word; try discriminate; try reflexivity;
      now apply tsvCell_computed. }
  destruct (codecs_roundtrip [Examples.cat; Examples.dog] Hne Hnd)
    as [Htsv Hcsv].
  split; [exact (Htsv Hex)|].
  apply Hcsv. eapply Forall_impl; [|exact Hex]. exact exportable_tsv_csv.
Defined.

(** ** The validation errors and the handlers of the entry panel *)

Lemma obj_get_set m k v j :
  obj_get (obj_set m k v) j = if (j =? k)%nat then Some v else obj_get m j.
Proof.
  induction m as [|[k' v'] r IH]; simpl.
  - rewrite (Nat.eqb_sym k j). reflexivity.
  - destruct (Nat.ltb_spec k k') as [Hlt|Hge]; simpl.
    + rewrite (Nat.eqb_sym k j). reflexivity.
    + destruct (Nat.eqb_spec k k') as [->|Hne]; simpl.
      * rewrite (Nat.eqb_sym k' j). now destruct (j =? k')%nat.
      * rewrite IH. destruct (Nat.eqb_spec k' j) as [->|Hj]; [|reflexivity].
        destruct (Nat.eqb_spec j k); [congruence|reflexivity].
Qed.

Lemma obj_get_delete m k j :
  obj_get (obj_delete m k) j = if (j =? k)%nat then None else obj_get m j.
Proof.
  unfold obj_delete. induction m as [|[k' v'] r IH]; simpl.
  - now destruct (j =? k)%nat.
  - destruct (Nat.eqb_spec k' k) as [->|Hne]; simpl.
    + rewrite IH. rewrite (Nat.eqb_sym k j). now destruct (j =? k)%nat.
    + rewrite IH. destruct (Nat.eqb_spec k' j) as [->|Hj]; [|reflexivity].
      destruct (Nat.eqb_spec j k); [congruence|reflexivity].
Qed.

Lemma obj_get_key m k v : obj_get m k = Some v -> In k (obj_keys m).
Proof.
  induction m as [|[k' v'] r IH]; simpl; [discriminate|].
  destruct (Nat.eqb_spec k' k) as [->|Hne]; [now left|].
  intros H. right. now apply IH.
Qed.

Lemma obj_keys_get m k :
  In k (obj_keys m) <-> exists v, obj_get m k = Some v.
Proof.
  split; [|intros [v H]; now apply (obj_get_key m k v)].
  induction m as [|[k' v'] r IH]; simpl; [contradiction|].
  destruct (Nat.eqb_spec k' k) as [->|Hne]; [eauto|].
  intros [H|H]; [congruence|now apply IH].
Qed.

Lemma shiftedErrors_fold prev sel j ks acc :
  obj_get
    (fold_left
       (fun newErrors index =>
          match obj_get prev index with
          | Some errs =>
              if (index <? sel)%nat then obj_set newErrors index errs
              else if (sel <? index)%nat
                   then obj_set newErrors (index - 1) errs
                   else newErrors
          | None => newErrors
          end) ks acc) j
  = match obj_get prev (indexBeforeDelete sel j) with
    | Some errs =>
        if existsb (Nat.eqb (indexBeforeDelete sel j)) ks then Some errs
        else obj_get acc j
    | None => obj_get acc j
    end.
Proof.
  revert acc. induction ks as [|k ks IH]; intros acc.
  - simpl. now destruct (obj_get prev (indexBeforeDelete sel j)).
  - cbn [fold_left existsb]. rewrite IH. clear IH.
    unfold indexBeforeDelete.
    destruct (Nat.ltb_spec j sel) as [Hj|Hj].
    + destruct (obj_get prev j) as [errs|] eqn:Hget.
      * destruct (existsb (Nat.eqb j) ks); [now rewrite orb_true_r|].
        rewrite orb_false_r.
        destruct (Nat.eqb_spec j k) as [<-|Hne].
        -- rewrite Hget. destruct (Nat.ltb_spec j sel); [|lia].
           rewrite obj_get_set, Nat.eqb_refl. reflexivity.
        -- destruct (obj_get prev k) as [errs'|]; [|reflexivity].
           destruct (Nat.ltb_spec k sel).
           ++ rewrite obj_get_set.
              destruct (Nat.eqb_spec j k); [congruence|reflexivity].
           ++ destruct (Nat.ltb_spec sel k); [|reflexivity].
              rewrite obj_get_set.
              destruct (Nat.eqb_spec j (k - 1)); [lia|reflexivity].
      * destruct (obj_get prev k) as [errs'|] eqn:Hk; [|reflexivity].
        destruct (Nat.ltb_spec k sel).
        -- rewrite obj_get_set.
           destruct (Nat.eqb_spec j k); [congruence|reflexivity].
        -- destruct (Nat.ltb_spec sel k); [|reflexivity].
           rewrite obj_get_set.
           destruct (Nat.eqb_spec j (k - 1)); [lia|reflexivity].
    + destruct (obj_get prev (S j)) as [errs|] eqn:Hget.
      * destruct (existsb (Nat.eqb (S j)) ks); [now rewrite orb_true_r|].
        rewrite orb_false_r.
        destruct (Nat.eqb_spec (S j) k) as [<-|Hne].
        -- rewrite Hget. destruct (Nat.ltb_spec (S j) sel); [lia|].
           destruct (Nat.ltb_spec sel (S j)); [|lia].
           rewrite obj_get_set.
           replace (S j - 1)%nat with j by lia.
           now rewrite Nat.eqb_refl.
        -- destruct (obj_get prev k) as [errs'|]; [|reflexivity].
           destruct (Nat.ltb_spec k sel).
           ++ rewrite obj_get_set.
              destruct (Nat.eqb_spec j k); [lia|reflexivity].
           ++ destruct (Nat.ltb_spec sel k); [|reflexivity].
              rewrite obj_get_set.
              destruct (Nat.eqb_spec j (k - 1)); [lia|reflexivity].
      * destruct (obj_get prev k) as [errs'|] eqn:Hk; [|reflexivity].
        destruct (Nat.ltb_spec k sel).
        -- rewrite obj_get_set.
           destruct (Nat.eqb_spec j k); [lia|reflexivity].
        -- destruct (Nat.ltb_spec sel k); [|reflexivity].
           rewrite obj_get_set.
           destruct (Nat.eqb_spec j (k - 1)) as [Heq|]; [|reflexivity].
           assert (k = S j) by lia. congruence.
Qed.

Lemma shiftedErrors_get prev sel j :
  obj_get (shiftedErrors prev sel) j = obj_get prev (indexBeforeDelete sel j).
Proof.
  unfold shiftedErrors. rewrite shiftedErrors_fold. simpl.
  destruct (obj_get prev (indexBeforeDelete sel j)) as [errs|] eqn:Hget;
    [|reflexivity].
  apply obj_get_key in Hget.
  destruct (existsb _ _) eqn:Hex; [reflexivity|].
  exfalso. apply Bool.not_true_iff_false in Hex. apply Hex.
  apply existsb_exists. eexists. split; [exact Hget|apply Nat.eqb_refl].
Qed.

Lemma nth_error_removeAt {A} (l : list A) sel j :
  nth_error (JS.removeAt l sel) j = nth_error l (indexBeforeDelete sel j).
Proof.
  unfold indexBeforeDelete.
  revert sel j. induction l as [|x l IH]; intros sel j.
  - destruct sel as [|sel]; simpl.
    + now destruct j.
    + destruct (j <? S sel)%nat; now destruct j.
  - destruct sel as [|sel]; [reflexivity|].
    destruct j as [|j]; [reflexivity|].
    simpl JS.removeAt. simpl nth_error at 1. rewrite IH.
    change (S j <? S sel)%nat with (j <? sel)%nat.
    now destruct (j <? sel)%nat.
Qed.

(** X1. [handleDeleteEntry] removes the selected entry and clears the
    selection, and the validation errors follow their entries: at every
    position of the new list stands the entry, with the errors, that was
    at that position before the deleted index, or one further after
    it. *)
Theorem handleDeleteEntry_realigns st sel :
  selectedIndex (selection st) = Some sel ->
  let st' := handleDeleteEntry st in
  selectedIndex (selection st') = None
  /\ forall j,
       nth_error (sel_entries (selection st')) j
       = nth_error (sel_entries (selection st)) (indexBeforeDelete sel j)
       /\ obj_get (validationErrors st') j
          = obj_get (validationErrors st) (indexBeforeDelete sel j).
Proof.
  intros Hsel. unfold handleDeleteEntry. rewrite Hsel. cbn zeta. simpl.
  split; [reflexivity|]. intros j. split.
  - apply nth_error_removeAt.
  - apply shiftedErrors_get.
Qed.

Lemma updateValidationErrors_get prev entryIndex entry j :
  obj_get (updateValidationErrors prev entryIndex entry) j
  = if (j =? entryIndex)%nat
    then match validateEntry entry entryIndex with
         | [] => None
         | errors => Some errors
         end
    else obj_get prev j.
Proof.
  unfold updateValidationErrors.
  destruct (validateEntry entry entryIndex) as [|m ms]; simpl.
  - apply obj_get_delete.
  - apply obj_get_set.
Qed.

(** X2. The validation errors are a map from index to messages that
    writes and deletions keep apart: after [updateValidationErrors] the
    index of the entry carries the messages of [validateEntry] where
    there are any and is no key where there are none, every other index
    carries what it carried, and after a second validation of the same
    entry the map is as after the first. *)
Theorem updateValidationErrors_lookup prev entryIndex entry :
  (forall j,
      obj_get (updateValidationErrors prev entryIndex entry) j
      = if (j =? entryIndex)%nat
        then match validateEntry entry entryIndex with
             | [] => None
             | errors => Some errors
             end
        else obj_get prev j)
  /\ (In entryIndex
         (obj_keys (updateValidationErrors prev entryIndex entry))
      <-> validateEntry entry entryIndex <> [])
  /\ (forall j,
        obj_get (updateValidationErrors
                   (updateValidationErrors prev entryIndex entry)
                   entryIndex entry) j
        = obj_get (updateValidationErrors prev entryIndex entry) j).
Proof.
  split; [apply updateValidationErrors_get|]. split.
  - rewrite obj_keys_get, updateValidationErrors_get, Nat.eqb_refl.
    destruct (validateEntry entry entryIndex); split; intros H;
      first [ discriminate | congruence | now destruct H as [v H]
            | now exists (s :: l) ].
  - intros j. rewrite !updateValidationErrors_get.
    now destruct (j =? entryIndex)%nat.
Qed.

(** *** Edits in place *)

Lemma length_replaceAt {A} (l : list A) i x :
  length (replaceAt l i x) = length l.
Proof.
  revert i; induction l as [|y l IH]; intros [|i]; simpl; auto.
Qed.

Lemma nth_error_replaceAt_eq {A} (l : list A) i x cur :
  nth_error l i = Some cur -> nth_error (replaceAt l i x) i = Some x.
Proof.
  revert i; induction l as [|y l IH]; intros [|i]; simpl; try discriminate;
    auto.
Qed.

Lemma nth_error_replaceAt_neq {A} (l : list A) i j x :
  j <> i -> nth_error (replaceAt l i x) j = nth_error l j.
Proof.
  revert i j; induction l as [|y l IH]; intros [|i] [|j] H; simpl;
    try reflexivity; try congruence.
  apply IH. congruence.
Qed.

Lemma removeAt_replaceAt {A} (l : list A) i x :
  JS.removeAt (replaceAt l i x) i = JS.removeAt l i.
Proof.
  revert i; induction l as [|y l IH]; intros [|i]; simpl; try reflexivity.
  now rewrite IH.
Qed.

Section EditsInPlace.

Context {R : JsRuntime}.





End EditsInPlace.

(** *** The phoneme box *)

Lemma forallb_filter {A} (f : A -> bool) l : forallb f (filter f l) = true.
Proof.
  induction l as [|x l IH]; simpl; [reflexivity|].
  destruct (f x) eqn:Hx; simpl; [now rewrite Hx|assumption].
Qed.




Lemma invalidPhonemeMessage_raised entry entryIndex :
  In invalidPhonemeMessage (validateEntry entry entryIndex)
  <-> JS.truthy (trimmedField (phoneme entry))
      && JS.opt_truthy (phoneme entry)
      && negb (ipaPattern_test (JS.orEmpty (phoneme entry))) = true.
Proof.
  unfold validateEntry, invalidPhonemeMessage. cbn zeta.
  rewrite !in_app_iff.
  destruct (JS.truthy (trimmedField (phoneme entry))
            && JS.opt_truthy (phoneme entry)
            && negb (ipaPattern_test (JS.orEmpty (phoneme entry)))).
  - split; [reflexivity|]. intros _. right. right. now left.
  - split; [|discriminate]. intros [H|[H|H]].
    + destruct (hasValidGrapheme entry); simpl in H; [contradiction|].
      destruct H as [H|[]]; discriminate.
    + destruct (negb _ && negb _); simpl in H; [|contradiction].
      destruct H as [H|[]]; discriminate.
    + destruct H.
Qed.

(** X5. After [handlePhonemeChange] the selected entry has the filtered
    value as its phoneme, the third rule of validation does not fire for
    it, and the message of that rule is not among the errors kept under
    its index, whatever was typed. The message is the one that
    [validateEntry] gives for a phoneme that is not blank and does not
    match the pattern. *)
Theorem phoneme_edit_never_invalid st value st' sel :
  selectedIndex (selection st) = Some sel ->
  handlePhonemeChange st value = Some st' ->
  (exists e',
      nth_error (sel_entries (selection st')) sel = Some e'
      /\ phoneme e' = Some (fst (filterPhonemeInput value))
      /\ ~ In invalidPhonemeMessage (validateEntry e' sel))
  /\ (forall errs, obj_get (validationErrors st') sel = Some errs ->
                   ~ In invalidPhonemeMessage errs)
  /\ (forall entry entryIndex,
        In invalidPhonemeMessage (validateEntry entry entryIndex)
        <-> JS.truthy (trimmedField (phoneme entry))
            && JS.opt_truthy (phoneme entry)
            && negb (ipaPattern_test (JS.orEmpty (phoneme entry))) = true).
Proof.
  intros Hsel. unfold handlePhonemeChange.
  destruct (filterPhonemeInput value) as [filtered bad] eqn:Hf.
  rewrite Hsel. unfold writeSelected. rewrite Hsel.
  destruct (nth_error (sel_entries (selection st)) sel) as [cur|] eqn:Hnth;
    [|discriminate].
  cbn zeta. simpl. intros [= <-]. simpl.
  assert (Hfiltered : filtered = filter validIpaChar value).
  { unfold filterPhonemeInput in Hf. now injection Hf as <- _. }
  assert (Hok : ~ In invalidPhonemeMessage
                     (validateEntry (withPhoneme cur filtered) sel)).
  { rewrite invalidPhonemeMessage_raised. intros H.
    apply andb_true_iff in H as [H H3].
    apply andb_true_iff in H as [_ H2].
    simpl in H2, H3. unfold ipaPattern_test in H3.
    rewrite H2, Hfiltered, forallb_filter in H3. discriminate. }
  split; [|split].
  - exists (withPhoneme cur filtered). split; [|split].
    + eapply nth_error_replaceAt_eq; eassumption.
    + reflexivity.
    + exact Hok.
  - intros errs. rewrite updateValidationErrors_get, Nat.eqb_refl.
    destruct (validateEntry (withPhoneme cur filtered) sel) eqn:Hv;
      [discriminate|].
    now intros [= <-].
  - apply invalidPhonemeMessage_raised.
Qed.

(** *** The selection after an insertion *)

Lemma removeAt_splice {A} (l : list A) i x :
  (i <= length l)%nat -> JS.removeAt (JS.splice_insert l i x) i = l.
Proof.
  unfold JS.splice_insert. revert i.
  induction l as [|y l IH]; intros [|i] Hi; simpl in *; try reflexivity;
    try lia.
  f_equal. apply IH. lia.
Qed.

Lemma nth_error_splice {A} (l : list A) i x :
  (i <= length l)%nat -> nth_error (JS.splice_insert l i x) i = Some x.
Proof.
  unfold JS.splice_insert. revert i.
  induction l as [|y l IH]; intros [|i] Hi; simpl in *; try reflexivity;
    try lia.
  apply IH. lia.
Qed.

Lemma array_set_written {A} (l l' : list A) i v :
  JS.array_set l i v = Some l' -> nth_error l' i = Some v.
Proof.
  unfold JS.array_set.
  destruct (Nat.ltb_spec i (length l)) as [Hlt|Hge].
  - intros H.
    destruct (array_set_in_range l i v Hlt) as (l2 & Hset & _ & Hn & _).
    unfold JS.array_set in Hset.
    destruct (Nat.ltb_spec i (length l)); [|lia]. congruence.
  - destruct (Nat.eqb_spec i (length l)) as [->|]; [|discriminate].
    intros [= <-]. rewrite nth_error_app2 by lia.
    now rewrite Nat.sub_diag.
Qed.

Section SelectionFollows.

Context {R : JsRuntime}.

Lemma findInsertionIndex_le entries x :
  (findInsertionIndex entries x <= length entries)%nat.
Proof.
  induction entries as [|e rest IH].
  - unfold findInsertionIndex; simpl. lia.
  - rewrite findInsertionIndex_cons.
    destruct (_ <? 0)%Z; simpl; lia.
Qed.

(** X6. After [handleNewEntry] the selection is the position of the
    placeholder entry, and the other entries are the list as it was.
    After [handleGraphemeChange] the selection is the position of the
    edited entry, whose grapheme at the edited index is the value, and
    the other entries are the ones of the list as it was, in their
    order: the selection follows the entry where the edit moves it. *)
Theorem selection_follows_entry :
  (forall st,
      exists i,
        selectedIndex (handleNewEntry st) = Some i
        /\ nth_error (sel_entries (handleNewEntry st)) i = Some blankEntry
        /\ JS.removeAt (sel_entries (handleNewEntry st)) i = sel_entries st)
  /\ (forall st gIdx value st' sel,
        selectedIndex st = Some sel ->
        handleGraphemeChange st gIdx value = Some st' ->
        exists cur e' i,
          nth_error (sel_entries st) sel = Some cur
          /\ withGrapheme cur gIdx value = Some e'
          /\ nth_error (graphemes e') gIdx = Some value
          /\ selectedIndex st' = Some i
          /\ nth_error (sel_entries st') i = Some e'
          /\ JS.removeAt (sel_entries st') i
             = JS.removeAt (sel_entries st) sel).
Proof.
  split.
  - intros st. unfold handleNewEntry; simpl.
    eexists. split; [reflexivity|].
    pose proof (findInsertionIndex_le (sel_entries st) blankEntry) as Hle.
    split; [now apply nth_error_splice|now apply removeAt_splice].
  - intros st gIdx value st' sel Hsel. unfold handleGraphemeChange.
    rewrite Hsel.
    destruct (nth_error (sel_entries st) sel) as [cur|] eqn:Hnth;
      [|discriminate].
    destruct (withGrapheme cur gIdx value) as [e'|] eqn:Hw; [|discriminate].
    assert (Hg : nth_error (graphemes e') gIdx = Some value).
    { unfold withGrapheme in Hw.
      destruct (JS.array_set (graphemes cur) gIdx value) as [gs|] eqn:Hset;
        [|discriminate].
      injection Hw as <-. simpl. eapply array_set_written; eassumption. }
    destruct ((gIdx =? 0)%nat && JS.truthy (JS.trim value)
              && negb (JS.eqb value NEW_ENTRY)).
    + intros [= <-]. simpl. exists cur, e'. eexists.
      pose proof (findInsertionIndex_le (JS.removeAt (sel_entries st) sel) e')
        as Hle.
      repeat (split; [first [reflexivity|assumption]|]).
      split; [now apply nth_error_splice|now apply removeAt_splice].
    + intros [= <-]. simpl. exists cur, e', sel.
      repeat (split; [first [reflexivity|assumption]|]).
      split; [eapply nth_error_replaceAt_eq; eassumption
             |apply removeAt_replaceAt].
Qed.

End SelectionFollows.

(** *** The list after a merge *)

Section MergeResult.

Context {R : JsRuntime}.

Lemma insertEntry_perm x l : Permutation (x :: l) (insertEntry x l).
Proof.
  induction l as [|y r IH]; simpl; [reflexivity|].
  destruct (_ <=? 0)%Z; [reflexivity|].
  rewrite perm_swap. now constructor.
Qed.

Lemma sortEntries_perm l : Permutation l (sortEntries l).
Proof.
  induction l as [|x l IH]; simpl; [constructor|].
  rewrite <- insertEntry_perm. now constructor.
Qed.

Lemma performMerge_fold es l n k :
  exists added skipped,
    fold_left performMerge_step es (l, n, k)
    = (l ++ map markNew added, (n + length added)%nat, (k + skipped)%nat)
    /\ incl added es
    /\ (forall e, In e added ->
          existsb (sharesGrapheme (lowerGraphemes e)) l = false)
    /\ (length added + skipped <= length es)%nat.
Proof.
  revert l n k. induction es as [|e es IH]; intros l n k.
  - exists [], 0%nat. simpl. rewrite app_nil_r, !Nat.add_0_r.
    repeat split; [apply incl_refl|contradiction|lia].
  - cbn [fold_left]. unfold performMerge_step at 2.
    destruct (existsb (sharesGrapheme (lowerGraphemes e)) l) eqn:Hmatch;
      simpl negb; cbv iota.
    + assert (Hstep : exists d,
                 (match find (sharesGrapheme (lowerGraphemes e)) l with
                  | Some matchingEntry =>
                      if areIdentical matchingEntry e
                      then (l, n, S k) else (l, n, k)
                  | None => (l, n, k)
                  end) = (l, n, (k + d)%nat) /\ (d <= 1)%nat).
      { destruct (find _ l) as [m|].
        - destruct (areIdentical m e).
          + exists 1%nat. split; [f_equal; lia|lia].
          + exists 0%nat. split; [f_equal; lia|lia].
        - exists 0%nat. split; [f_equal; lia|lia]. }
      destruct Hstep as (d & -> & Hd).
      destruct (IH l n (k + d)%nat) as (added & skipped & Hf & Hin & Hno & Hle).
      exists added, (d + skipped)%nat. rewrite Hf.
      split; [f_equal; lia|]. split; [now apply incl_tl|].
      split; [assumption|simpl; lia].
    + destruct (IH (l ++ [markNew e]) (S n) k)
        as (added & skipped & Hf & Hin & Hno & Hle).
      exists (e :: added), skipped. rewrite Hf.
      split; [simpl; rewrite <- app_assoc; simpl; f_equal; f_equal; lia|].
      split; [now apply incl_cons_inv_both || (intros x [->|Hx];
                [now left|right; now apply Hin])|].
      split; [|simpl; lia].
      intros x [<-|Hx]; [assumption|].
      specialize (Hno x Hx). rewrite existsb_app in Hno.
      now apply orb_false_iff in Hno.
Qed.

(** X7. The fast path of the merge never changes or removes an entry of
    the master list: the list after [performMerge] is a rearrangement of
    the master entries and of marked copies of some incoming entries,
    none of which shares a grapheme with a master entry; the summary
    counts these copies as new, and the new and the skipped entries
    together are at most the entries processed. *)
Theorem performMerge_keeps_master st es :
  exists added summary,
    mergeSummary (performMerge st es) = Some summary
    /\ Permutation (entries st ++ map markNew added)
                   (entries (performMerge st es))
    /\ incl added es
    /\ (forall e m, In e added -> In m (entries st) -> ~ overlap m e)
    /\ newEntries summary = length added
    /\ totalProcessed summary = length es
    /\ (0 <= identicalSkipped summary)%Z
    /\ (Z.of_nat (newEntries summary) + identicalSkipped summary
        <= Z.of_nat (totalProcessed summary))%Z.
Proof.
  destruct (performMerge_fold es (entries st) 0 0)
    as (added & skipped & Hf & Hin & Hno & Hle).
  unfold performMerge. rewrite Hf. simpl.
  exists added. eexists. split; [reflexivity|]. simpl.
  split; [apply sortEntries_perm|]. split; [assumption|]. split.
  - intros e m He Hm Hov. apply sharesGrapheme_overlap in Hov.
    specialize (Hno e He).
    assert (Hex : existsb (sharesGrapheme (lowerGraphemes e)) (entries st)
                  = true).
    { apply existsb_exists. exists m. now split. }
    congruence.
  - repeat split; lia.
Qed.

Context {C : JsCollation R}.

Lemma insertEntry_ordered x l : ordered l -> ordered (insertEntry x l).
Proof.
  unfold ordered. induction 1 as [|y r Hr IH Hhd]; simpl.
  - repeat constructor.
  - destruct (Z.leb_spec (localeCompare (firstGraphemeKey x)
                                        (firstGraphemeKey y)) 0) as [Hle|Hgt].
    + constructor; [now constructor|]. now constructor.
    + constructor; [assumption|].
      assert (Hyx : entryLe y x).
      { unfold entryLe. apply localeCompare_total. lia. }
      destruct Hhd as [|z r' Hyz]; simpl.
      * now constructor.
      * destruct (_ <=? 0)%Z; now constructor.
Qed.

Lemma sortEntries_ordered l : ordered (sortEntries l).
Proof.
  induction l as [|x l IH]; simpl; [constructor|].
  now apply insertEntry_ordered.
Qed.

(** X8. Whatever the order of the master list and of the merge file, the
    entry list that a merge leaves is in order, on the fast path
    ([performMerge]) and after the resolution of conflicts
    ([finalizeMerge]): the sort that ends both puts any list in
    non-decreasing case-insensitive first-grapheme order and keeps its
    entries. *)
Theorem merge_result_ordered :
  (forall l, ordered (sortEntries l) /\ Permutation l (sortEntries l))
  /\ (forall st es, ordered (entries (performMerge st es)))
  /\ (forall st es, mergeConflicts (analyzeConflicts st es) = [] ->
                    ordered (entries (analyzeConflicts st es)))
  /\ (forall st st', finalizeMerge st = Some st' -> ordered (entries st')).
Proof.
  assert (Hperform : forall st es, ordered (entries (performMerge st es))).
  { intros st es. unfold performMerge.
    destruct (fold_left performMerge_step es (entries st, 0%nat, 0%nat))
      as [[l n] k].
    simpl. apply sortEntries_ordered. }
  split; [|split; [|split]].
  - intros l. split; [apply sortEntries_ordered|apply sortEntries_perm].
  - exact Hperform.
  - intros st es. unfold analyzeConflicts.
    destruct (conflictsOf (entries st) es); [intros _; apply Hperform|].
    simpl. discriminate.
  - intros st st'. unfold finalizeMerge.
    destruct (fold_left applyResolution (mergeConflicts st)
                        (Some (entries st, 0%nat))) as [[resolved n]|];
      [|discriminate].
    destruct (fold_left (addUnmatched st) (mergeFileContent st) (resolved, 0%nat))
      as [l k].
    intros [= <-]. simpl. apply sortEntries_ordered.
Qed.

End MergeResult.

(** ** The merge preview and the conflict list *)

Ltac tuple_eq := repeat first [reflexivity | lia | apply f_equal2].

Section PreviewProofs.

Context {R : JsRuntime}.

Lemma previewPair_fold e ms c s p :
  exists p',
    fold_left (previewPair e) ms (c, s, p)
    = ((c + length (filter (fun m => negb (areIdentical m e)) ms))%nat,
       (s + length (filter (fun m => areIdentical m e) ms))%nat,
       p ++ p')
    /\ length p' = length (filter (fun m => negb (areIdentical m e)) ms).
Proof.
  revert c s p. induction ms as [|m ms IH]; intros c s p.
  - exists []. simpl. now rewrite app_nil_r, !Nat.add_0_r.
  - cbn [fold_left]. unfold previewPair at 2.
    destruct (areIdentical m e) eqn:Hid.
    + destruct (IH c (S s) p) as (p' & -> & Hlen).
      exists p'. simpl. rewrite Hid. simpl.
      split; [tuple_eq|assumption].
    + assert (Hstep : exists i,
        (if arePhoneticallyIdentical m e
         then (S c, s,
               p ++ [{| issueType := issue_conflict;
                        message := js "Case difference: "
                                   ++ quotedGraphemes e
                                   ++ js " vs existing " ++ quotedGraphemes m
                                   ++ js " (same phoneme)";
                        issueEntry := Some e |}])
         else
           (S c, s,
            p ++ [{| issueType := issue_conflict;
                     message := js "Conflict: " ++ quotedGraphemes e
                                ++ js " vs existing " ++ quotedGraphemes m
                                ++ js " ("
                                ++ (if JS.opt_eqb (phoneme m) (phoneme e)
                                       && negb (JS.opt_eqb
                                                  (optLower (alias m))
                                                  (optLower (alias e)))
                                    then js "different aliases"
                                    else js "different phonemes")
                                ++ js ")";
                     issueEntry := Some e |}]))
        = (S c, s, p ++ [i])).
      { destruct (arePhoneticallyIdentical m e); eexists; reflexivity. }
      destruct Hstep as (i & Hstep). cbv zeta. rewrite Hstep.
      destruct (IH (S c) s (p ++ [i])) as (p' & -> & Hlen).
      exists (i :: p'). simpl. rewrite Hid. simpl.
      rewrite <- app_assoc. simpl.
      split; [tuple_eq|now rewrite Hlen].
Qed.

Lemma conflictWith_length i e jm :
  length (conflictWith i e jm)
  = if areIdentical (snd jm) e then 0%nat else 1%nat.
Proof.
  destruct jm as [j m]. unfold conflictWith. simpl.
  destruct (areIdentical m e); [reflexivity|].
  now destruct (arePhoneticallyIdentical m e).
Qed.

Lemma flat_map_conflictWith_length i e lm :
  length (flat_map (conflictWith i e) lm)
  = length (filter (fun m => negb (areIdentical m e)) (map snd lm)).
Proof.
  induction lm as [|jm lm IH]; simpl; [reflexivity|].
  rewrite length_app, conflictWith_length, IH.
  now destruct (areIdentical (snd jm) e).
Qed.

Lemma map_snd_combine_seq {A} (l : list A) s :
  map snd (combine (seq s (length l)) l) = l.
Proof.
  revert s; induction l as [|x l IH]; intros s; simpl; [reflexivity|].
  now rewrite IH.
Qed.

Lemma map_snd_filter_indexed {A} (f : A -> bool) (l : list A) :
  map snd (filter (fun im => f (snd im)) (indexed l)) = filter f l.
Proof.
  unfold indexed. generalize 0%nat.
  induction l as [|x l IH]; intros s; simpl; [reflexivity|].
  destruct (f x); simpl; now rewrite IH.
Qed.

Lemma conflictsOfEntry_length ms ie :
  length (conflictsOfEntry ms ie)
  = length (filter (fun m => negb (areIdentical m (snd ie)))
                   (filter (sharesGrapheme (lowerGraphemes (snd ie))) ms)).
Proof.
  destruct ie as [i e]. unfold conflictsOfEntry. simpl.
  rewrite flat_map_conflictWith_length.
  now rewrite (map_snd_filter_indexed
                 (sharesGrapheme (lowerGraphemes e)) ms).
Qed.

Lemma filter_nil_existsb {A} (f : A -> bool) l :
  (0 <? length (filter f l))%nat = existsb f l.
Proof.
  induction l as [|x l IH]; simpl; [reflexivity|].
  destruct (f x); simpl; [reflexivity|assumption].
Qed.

Lemma previewEntry_fold ms es n c s p :
  exists p',
    fold_left (previewEntry ms) es (n, c, s, p)
    = ((n + length (filter (unmatched ms) es))%nat,
       (c + length (flat_map (conflictsOfEntry ms)
                             (combine (seq 0 (length es)) es)))%nat,
       (s + length (flat_map
                      (fun e => filter (fun m => areIdentical m e)
                                  (filter (sharesGrapheme (lowerGraphemes e))
                                          ms)) es))%nat,
       p ++ p')
    /\ length p'
       = length (flat_map (conflictsOfEntry ms)
                          (combine (seq 0 (length es)) es)).
Proof.
  assert (Hshift : forall (l : list LexiconEntry) a b,
    length (flat_map (conflictsOfEntry ms) (combine (seq a (length l)) l))
    = length (flat_map (conflictsOfEntry ms) (combine (seq b (length l)) l))).
  { induction l as [|x l IH]; intros a b; [reflexivity|].
    cbn [length seq combine flat_map].
    rewrite !length_app, !conflictsOfEntry_length. cbn [snd].
    now rewrite (IH (S a) (S b)). }
  revert n c s p. induction es as [|e es IH]; intros n c s p.
  - exists []. simpl. now rewrite app_nil_r, !Nat.add_0_r.
  - cbn [fold_left]. unfold previewEntry at 2. cbv zeta.
    rewrite filter_nil_existsb.
    cbn [length seq combine flat_map filter].
    rewrite !length_app, conflictsOfEntry_length. cbn [snd].
    rewrite (Hshift es 1%nat 0%nat).
    unfold unmatched at 1.
    destruct (existsb (sharesGrapheme (lowerGraphemes e)) ms) eqn:Hm.
    + destruct (previewPair_fold e
                  (filter (sharesGrapheme (lowerGraphemes e)) ms) c s p)
        as (p1 & -> & Hlen1).
      destruct (IH n
                  (c + length (filter (fun m => negb (areIdentical m e))
                     (filter (sharesGrapheme (lowerGraphemes e)) ms)))%nat
                  (s + length (filter (fun m => areIdentical m e)
                     (filter (sharesGrapheme (lowerGraphemes e)) ms)))%nat
                  (p ++ p1)) as (p2 & -> & Hlen2).
      exists (p1 ++ p2). simpl negb. cbv iota.
      rewrite <- app_assoc, length_app.
      split; [tuple_eq|lia].
    + assert (Hnone : filter (sharesGrapheme (lowerGraphemes e)) ms = []).
      { pose proof (filter_nil_existsb
                      (sharesGrapheme (lowerGraphemes e)) ms) as H.
        rewrite Hm in H.
        destruct (filter (sharesGrapheme (lowerGraphemes e)) ms);
          [reflexivity|discriminate]. }
      rewrite Hnone. simpl.
      destruct (IH (S n) c s p) as (p2 & -> & Hlen2).
      exists p2.
      split; [tuple_eq|lia].
Qed.

Lemma analyzeMergePreview_counts st es :
  preview_conflicts (analyzeMergePreview st es)
  = length (conflictsOf (entries st) es)
  /\ preview_newEntries (analyzeMergePreview st es)
     = length (filter (unmatched (entries st)) es)
  /\ length (potentialIssues (analyzeMergePreview st es))
     = (length (conflictsOf (entries st) es)
        + if (0 <? length (mergeDetailedErrors st))%nat then 1 else 0)%nat.
Proof.
  unfold analyzeMergePreview.
  destruct (previewEntry_fold (entries st) es 0 0 0 []) as (p & Hf & Hlen).
  rewrite Hf. simpl.
  change (combine (seq 0 (length es)) es) with (indexed es) in *.
  fold (conflictsOf (entries st) es) in *.
  split; [reflexivity|]. split; [reflexivity|].
  rewrite length_app, Hlen.
  now destruct (0 <? length (mergeDetailedErrors st))%nat.
Qed.

Lemma analyzeMergePreview_errors st es :
  preview_errors (analyzeMergePreview st es)
  = length (mergeDetailedErrors st)
  /\ autoMerged (analyzeMergePreview st es) = 0%nat.
Proof.
  unfold analyzeMergePreview.
  destruct (fold_left _ es _) as [[[n c] s] p]. now simpl.
Qed.

(** X9. The conflicts that the merge preview counts are the conflicts
    that the resolution dialog lists: the count is the length of the
    conflict list of [analyzeConflicts], every counted conflict has one
    issue, and the blocking issue is there exactly when detailed errors
    are; the new entries of the preview are the incoming entries that
    share no grapheme with a master entry; nothing is ever counted as
    merged automatically. A preview without conflicts is a merge that
    completes at once. *)
Theorem preview_counts_conflicts st es :
  let preview := analyzeMergePreview st es in
  preview_conflicts preview = length (conflictsOf (entries st) es)
  /\ preview_newEntries preview
     = length (filter (unmatched (entries st)) es)
  /\ length (potentialIssues preview)
     = (preview_conflicts preview
        + if (0 <? preview_errors preview)%nat then 1 else 0)%nat
  /\ preview_errors preview = length (mergeDetailedErrors st)
  /\ autoMerged preview = 0%nat
  /\ (preview_conflicts preview = 0%nat ->
      analyzeConflicts st es = performMerge st es).
Proof.
  cbv zeta.
  destruct (analyzeMergePreview_counts st es) as (Hc & Hn & Hi).
  destruct (analyzeMergePreview_errors st es) as (He & Ha).
  rewrite Hc, Hn, Hi, He, Ha.
  repeat (split; [reflexivity|]).
  intros H0. unfold analyzeConflicts.
  destruct (conflictsOf (entries st) es); [reflexivity|discriminate].
Qed.

Lemma existsb_app_false {A} (f : A -> bool) l l' :
  existsb f (l ++ l') = false -> existsb f l = false.
Proof. rewrite existsb_app. now intros H%orb_false_iff. Qed.

Lemma performMerge_fold_new es l0 extra n k :
  (snd (fst (fold_left performMerge_step es (l0 ++ extra, n, k)))
   <= n + length (filter (unmatched l0) es))%nat.
Proof.
  revert extra n k. induction es as [|e es IH]; intros extra n k.
  - simpl. lia.
  - cbn [fold_left filter]. unfold performMerge_step at 2.
    destruct (existsb (sharesGrapheme (lowerGraphemes e)) (l0 ++ extra))
      eqn:Hm; simpl negb; cbv iota.
    + assert (Hstep : exists k',
        (match find (sharesGrapheme (lowerGraphemes e)) (l0 ++ extra) with
         | Some matchingEntry =>
             if areIdentical matchingEntry e
             then (l0 ++ extra, n, S k) else (l0 ++ extra, n, k)
         | None => (l0 ++ extra, n, k)
         end) = (l0 ++ extra, n, k')).
      { destruct (find _ _) as [m|]; [destruct (areIdentical m e)|];
          eexists; reflexivity. }
      destruct Hstep as (k' & ->).
      specialize (IH extra n k').
      destruct (unmatched l0 e); simpl; lia.
    + apply existsb_app_false in Hm.
      unfold unmatched at 1. rewrite Hm. simpl.
      rewrite <- app_assoc.
      specialize (IH (extra ++ [markNew e]) (S n) k). lia.
Qed.

(** X10. The fast path adds at most the entries that the preview
    announced as new: an incoming entry that shares a grapheme with a
    master entry is never added, and one that shares a grapheme with an
    incoming entry added before it is not added again. *)
Theorem performMerge_within_preview st es :
  exists summary,
    mergeSummary (performMerge st es) = Some summary
    /\ (newEntries summary
        <= preview_newEntries (analyzeMergePreview st es))%nat
    /\ (length (entries (performMerge st es))
        = length (entries st) + newEntries summary)%nat.
Proof.
  pose proof (performMerge_fold_new es (entries st) [] 0 0) as Hnew.
  rewrite app_nil_r in Hnew.
  destruct (performMerge_fold es (entries st) 0 0)
    as (added & skipped & Hf & _ & _ & _).
  rewrite (proj1 (proj2 (analyzeMergePreview_counts st es))).
  unfold performMerge. rewrite Hf in *. simpl in *.
  eexists. split; [reflexivity|]. simpl. split; [lia|].
  rewrite <- (Permutation_length (sortEntries_perm _)).
  now rewrite length_app, length_map.
Qed.

End PreviewProofs.

(** ** Conflict records and their resolution *)

Section Resolution.

Context {R : JsRuntime}.

Lemma conflictWith_In i e j m c :
  In c (conflictWith i e (j, m)) ->
  areIdentical m e = false
  /\ c = {| type :=
              if JS.opt_eqb (phoneme m) (phoneme e)
                 && negb (JS.opt_eqb (optLower (alias m)) (optLower (alias e)))
              then additional_alias else conflict;
            masterEntry := m; mergeEntry := e; masterIndex := j;
            mergeIndex := i;
            commonGraphemes :=
              filter (fun mg => JS.includes (lowerGraphemes e)
                                            (toLowerCase mg))
                     (graphemes m);
            resolution := None |}.
Proof.
  unfold conflictWith.
  destruct (areIdentical m e) eqn:Hid; [contradiction|].
  split; [reflexivity|].
  destruct (arePhoneticallyIdentical m e) eqn:Hph.
  - destruct H as [<-|[]].
    unfold areIdentical in Hid. unfold arePhoneticallyIdentical in Hph.
    apply andb_true_iff in Hph as [Hg Hp]. rewrite Hg, Hp in Hid.
    rewrite Hp. simpl in Hid. rewrite andb_true_r in Hid. rewrite Hid.
    reflexivity.
  - now destruct H as [<-|[]].
Qed.

(** X11. Every record of the conflict list names the master entry at
    its master index and the incoming entry at its merge index, which
    are not identical, carries no resolution yet, and lists as common
    graphemes the master graphemes that the incoming entry has
    case-insensitively, at least one. Its type is [additional_alias]
    exactly when the phonemes are equal and the aliases differ
    case-insensitively, and [conflict] otherwise. *)
Theorem conflict_records_sound masterEntries mergeEntries c :
  In c (conflictsOf masterEntries mergeEntries) ->
  nth_error masterEntries (masterIndex c) = Some (masterEntry c)
  /\ nth_error mergeEntries (mergeIndex c) = Some (mergeEntry c)
  /\ resolution c = None
  /\ areIdentical (masterEntry c) (mergeEntry c) = false
  /\ commonGraphemes c
     = filter (fun mg => JS.includes (lowerGraphemes (mergeEntry c))
                                     (toLowerCase mg))
              (graphemes (masterEntry c))
  /\ commonGraphemes c <> []
  /\ (type c = additional_alias
      <-> JS.opt_eqb (phoneme (masterEntry c)) (phoneme (mergeEntry c)) = true
          /\ JS.opt_eqb (optLower (alias (masterEntry c)))
                        (optLower (alias (mergeEntry c))) = false).
Proof.
  unfold conflictsOf. rewrite in_flat_map.
  intros [[i e] [Hie Hc]]. unfold conflictsOfEntry in Hc.
  rewrite in_flat_map in Hc. destruct Hc as [[j m] [Hjm Hc]].
  apply filter_In in Hjm as [Hjm Hsh]. cbn [snd] in Hsh.
  apply indexed_In in Hie. apply indexed_In in Hjm.
  apply conflictWith_In in Hc as [Hid ->]. cbn.
  repeat (split; [first [assumption|reflexivity]|]).
  split.
  - unfold sharesGrapheme in Hsh. apply existsb_exists in Hsh as [mg [Hmg H]].
    intros Hnil.
    assert (Hin : In mg (filter (fun mg => JS.includes (lowerGraphemes e)
                                             (toLowerCase mg)) (graphemes m))).
    { apply filter_In. now split. }
    rewrite Hnil in Hin. contradiction.
  - destruct (JS.opt_eqb (phoneme m) (phoneme e));
      destruct (JS.opt_eqb (optLower (alias m)) (optLower (alias e))); simpl;
      split; try discriminate; try tauto; intros [? ?]; discriminate.
Qed.

Lemma applyResolution_count cs l n :
  Forall (fun c => (masterIndex c < length l)%nat) cs ->
  exists l',
    fold_left applyResolution cs (Some (l, n))
    = Some (l', (n + length (filter resolved cs))%nat)
    /\ length l' = length l.
Proof.
  revert l n. induction cs as [|c cs IH]; intros l n Hall.
  - exists l. simpl. now rewrite Nat.add_0_r.
  - inversion Hall as [|? ? Hc Hcs]; subst.
    cbn [fold_left filter]. unfold resolved at 1. unfold applyResolution at 2.
    destruct (resolution c) as [[| |]|].
    + destruct (IH l (S n) Hcs) as (l' & -> & Hlen).
      exists l'. simpl. split; [do 2 f_equal; lia|assumption].
    + destruct (array_set_in_range l (masterIndex c) (markNew (mergeEntry c)) Hc)
        as (l1 & -> & Hlen & _). simpl option_map.
      rewrite <- Hlen in Hcs. destruct (IH l1 (S n) Hcs) as (l' & -> & Hl).
      exists l'. simpl. split; [do 2 f_equal; lia|congruence].
    + destruct (array_set_in_range l (masterIndex c)
                  (combineBoth (masterEntry c) (mergeEntry c)) Hc)
        as (l1 & -> & Hlen & _). simpl option_map.
      rewrite <- Hlen in Hcs. destruct (IH l1 (S n) Hcs) as (l' & -> & Hl).
      exists l'. simpl. split; [do 2 f_equal; lia|congruence].
    + destruct (IH l n Hcs) as (l' & -> & Hlen).
      exists l'. split; [reflexivity|assumption].
Qed.

Lemma addUnmatched_step st l k e :
  addUnmatched st (l, k) e
  = if appended st e then (l ++ [markNew e], S k) else (l, k).
Proof. reflexivity. Qed.

Lemma addUnmatched_fold st es l k :
  fold_left (addUnmatched st) es (l, k)
  = (l ++ map markNew (filter (appended st) es),
     (k + length (filter (appended st) es))%nat).
Proof.
  revert l k. induction es as [|e es IH]; intros l k.
  - simpl. now rewrite app_nil_r, Nat.add_0_r.
  - cbn [fold_left filter]. rewrite addUnmatched_step.
    destruct (appended st e).
    + rewrite IH. simpl. rewrite <- app_assoc. simpl. f_equal. lia.
    + apply IH.
Qed.

Lemma appended_unmatched st es :
  (length (filter (appended st) es)
   <= length (filter (unmatched (entries st)) es))%nat.
Proof.
  induction es as [|e es IH]; [simpl; lia|].
  cbn [filter]. unfold appended at 1.
  destruct (unmatched (entries st) e).
  - destruct (negb _); simpl; lia.
  - rewrite andb_false_r. exact IH.
Qed.

Lemma unmatched_no_overlap l e m :
  unmatched l e = true -> In m l -> ~ overlap m e.
Proof.
  unfold unmatched. intros H Hm Hov. apply negb_true_iff in H.
  apply sharesGrapheme_overlap in Hov.
  assert (Hex : existsb (sharesGrapheme (lowerGraphemes e)) l = true)
    by (apply existsb_exists; eauto).
  congruence.
Qed.

(** X12. Where every conflict names a position of the entry list, as the
    conflicts of [analyzeConflicts] do, [finalizeMerge] completes; the
    resolutions replace entries in place, so the list grows by the new
    entries of the summary and by nothing else; the summary counts as
    resolved the conflicts that have a resolution; the new entries are
    incoming entries that share no grapheme with a master entry; and the
    conflict list and the merge file are cleared. *)
Theorem finalizeMerge_accounts st :
  Forall (fun c => (masterIndex c < length (entries st))%nat)
         (mergeConflicts st) ->
  exists st' summary,
    finalizeMerge st = Some st'
    /\ mergeSummary st' = Some summary
    /\ length (entries st')
       = (length (entries st) + newEntries summary)%nat
    /\ conflictsResolved summary
       = length (filter resolved (mergeConflicts st))
    /\ (newEntries summary
        <= length (filter (unmatched (entries st)) (mergeFileContent st)))%nat
    /\ totalProcessed summary = length (mergeFileContent st)
    /\ mergeConflicts st' = [] /\ mergeFileContent st' = []
    /\ showConflictResolution st' = false.
Proof.
  intros Hcs. unfold finalizeMerge.
  destruct (applyResolution_count (mergeConflicts st) (entries st) 0%nat Hcs)
    as (l' & -> & Hlen).
  rewrite addUnmatched_fold. simpl.
  eexists. eexists. split; [reflexivity|]. simpl.
  split; [reflexivity|]. split.
  - rewrite <- (Permutation_length (sortEntries_perm _)).
    now rewrite length_app, length_map, Hlen.
  - split; [reflexivity|]. split; [apply appended_unmatched|auto].
Qed.

Lemma applyResolution_master cs l n :
  (forall c, In c cs -> resolution c = Some master) ->
  fold_left applyResolution cs (Some (l, n))
  = Some (l, (n + length cs)%nat).
Proof.
  revert n. induction cs as [|c cs IH]; intros n Hall; simpl.
  - now rewrite Nat.add_0_r.
  - rewrite (Hall c) by now left.
    rewrite IH by (intros; apply Hall; now right).
    do 2 f_equal. lia.
Qed.

Lemma completeMergeDisabled_resolved st :
  completeMergeDisabled st = false
  <-> Forall (fun c => resolution c <> None) (mergeConflicts st).
Proof.
  unfold completeMergeDisabled.
  induction (mergeConflicts st) as [|c cs IH]; simpl.
  - split; [constructor|reflexivity].
  - destruct (resolution c) eqn:Hr; simpl.
    + rewrite IH. split.
      * intros H. constructor; [congruence|assumption].
      * intros H. now inversion H.
    + split; [discriminate|]. intros H. inversion H. congruence.
Qed.

(** X13. Keep Master for all, then Complete Merge: the merge completes,
    every conflict counts as resolved, every entry of the master list
    stays as it was, and the list gains only marked copies of incoming
    entries that share no grapheme with a master entry; the result is
    the sorted list of these. *)
Theorem keep_all_master st :
  exists st' added summary,
    clickCompleteMerge (resolveAllConflicts st master) = Some st'
    /\ entries st' = sortEntries (entries st ++ map markNew added)
    /\ incl added (mergeFileContent st)
    /\ (forall e m, In e added -> In m (entries st) -> ~ overlap m e)
    /\ mergeSummary st' = Some summary
    /\ conflictsResolved summary = length (mergeConflicts st)
    /\ newEntries summary = length added.
Proof.
  set (st1 := resolveAllConflicts st master).
  assert (Hall : forall c, In c (mergeConflicts st1) ->
                           resolution c = Some master).
  { unfold st1, resolveAllConflicts; simpl. intros c Hc.
    apply in_map_iff in Hc as [c0 [<- _]]. reflexivity. }
  assert (Hgate : completeMergeDisabled st1 = false).
  { apply completeMergeDisabled_resolved, Forall_forall.
    intros c Hc. rewrite (Hall c Hc). discriminate. }
  unfold clickCompleteMerge. rewrite Hgate. unfold finalizeMerge.
  rewrite (applyResolution_master _ _ _ Hall), addUnmatched_fold.
  eexists. eexists. eexists. split; [reflexivity|]. simpl.
  split; [reflexivity|]. split.
  - intros e He. now apply filter_In in He.
  - split.
    + intros e m He Hm. apply filter_In in He as [_ He].
      unfold appended in He. apply andb_true_iff in He as [_ He].
      now apply (unmatched_no_overlap (entries st)).
    + split; [reflexivity|]. simpl. now rewrite length_map.
Qed.

(** X14. The gate of the Complete Merge button opens exactly when every
    conflict has a resolution. Resolving all conflicts at once opens
    it, and so does resolving the additional aliases and then the other
    conflicts; a bulk resolution by type leaves the conflicts of the
    other type as they are; and [handleConflictResolution] writes the
    resolution of the one conflict it names and changes nothing else. *)
Theorem resolution_opens_gate st :
  (completeMergeDisabled st = false
   <-> Forall (fun c => resolution c <> None) (mergeConflicts st))
  /\ (forall r, completeMergeDisabled (resolveAllConflicts st r) = false)
  /\ (forall r1 r2,
        completeMergeDisabled
          (resolveAllConflictsOnly (resolveAllAdditionalAliases st r1) r2)
        = false)
  /\ (forall t r c,
        In c (mergeConflicts st) -> type c <> t ->
        In c (mergeConflicts (resolveAllOfType t st r)))
  /\ (forall i r st',
        handleConflictResolution st i r = Some st' ->
        entries st' = entries st
        /\ (exists c, nth_error (mergeConflicts st) i = Some c
                      /\ nth_error (mergeConflicts st') i
                         = Some (withResolution c (Some r)))
        /\ forall j, j <> i ->
             nth_error (mergeConflicts st') j
             = nth_error (mergeConflicts st) j).
Proof.
  split; [apply completeMergeDisabled_resolved|]. split; [|split; [|split]].
  - intros r. apply completeMergeDisabled_resolved, Forall_forall.
    unfold resolveAllConflicts; simpl. intros c Hc.
    apply in_map_iff in Hc as [c0 [<- _]]. discriminate.
  - intros r1 r2. apply completeMergeDisabled_resolved, Forall_forall.
    unfold resolveAllConflictsOnly, resolveAllAdditionalAliases,
      resolveAllOfType; simpl.
    intros c Hc. apply in_map_iff in Hc as [c1 [<- Hc1]].
    apply in_map_iff in Hc1 as [c0 [<- _]]. simpl.
    destruct (type c0); discriminate.
  - intros t r c Hc Ht. unfold resolveAllOfType; simpl.
    apply in_map_iff. exists c. split; [|assumption].
    destruct c as [ty m e j i cg res]; simpl in *.
    unfold withResolution; simpl.
    destruct ty, t; try congruence.
  - intros i r st'. unfold handleConflictResolution.
    destruct (nth_error (mergeConflicts st) i) as [c|] eqn:Hc;
      [|discriminate].
    intros [= <-]. simpl. split; [reflexivity|]. split.
    + exists c. split; [reflexivity|].
      eapply nth_error_replaceAt_eq; eassumption.
    + intros j Hj. now apply nth_error_replaceAt_neq.
Qed.

(** X15. Errors block the merge: whenever [processMergeFile] records a
    detailed error (the file does not parse, has no lexicon element, is
    of another language, or some entry of it is refused), it runs no
    conflict analysis and no merge, and the entry list, the conflict
    list, the dialog and the summary stay as they were. *)
Theorem merge_blocked_by_errors st newLexiconLang xml :
  mergeDetailedErrors (processMergeFile st newLexiconLang xml) <> [] ->
  entries (processMergeFile st newLexiconLang xml) = entries st
  /\ mergeConflicts (processMergeFile st newLexiconLang xml)
     = mergeConflicts st
  /\ showConflictResolution (processMergeFile st newLexiconLang xml)
     = showConflictResolution st
  /\ mergeSummary (processMergeFile st newLexiconLang xml) = mergeSummary st.
Proof.
  unfold processMergeFile.
  destruct xml as [x|]; [|now simpl].
  destruct (negb (truthyVal x) || negb (truthyVal _)); [now simpl|].
  destruct (negb _); [now simpl|].
  destruct (parseMergeEntries 0 _) as [parsed errs].
  destruct errs as [|d errs]; [|now simpl].
  destruct parsed as [|e parsed]; simpl; [now intros _|].
  intros H. now contradiction H.
Qed.

End Resolution.

(** ** Reading the merge file *)

Ltac step_parsed H :=
  repeat match type of H with
         | match ?x with _ => _ end = inr _ =>
             destruct x eqn:?; try discriminate H
         end.

Lemma existsb_false_Forall {A} (f : A -> bool) l :
  existsb f l = false <-> Forall (fun x => f x = false) l.
Proof.
  induction l as [|x l IH]; simpl.
  - split; [constructor|reflexivity].
  - rewrite orb_false_iff, IH. split.
    + intros [? ?]. now constructor.
    + intros H. now inversion H.
Qed.

Lemma existsb_concat_false {A} (f : A -> bool) (ls : list (list A)) :
  existsb f (List.concat ls) = false ->
  Forall (fun l => existsb f l = false) ls.
Proof.
  induction ls as [|l ls IH]; simpl; [constructor|].
  rewrite existsb_app. intros [? ?]%orb_false_iff.
  constructor; auto.
Qed.

Lemma check_ok {E} (b : bool) (e : E) (u : unit) :
  (if b then inr tt else inl e) = inr u -> b = true.
Proof. now destruct b. Qed.

(** X16. An entry that [processMergeFile] accepts from a merge file is
    within the content invariant of the data model: it has a grapheme,
    and an alias or a phoneme that is not empty. Each of its graphemes
    is not blank, has at most a hundred code units and no quote,
    ampersand or control character; and its alias and phoneme are
    strings, the empty one for a missing element. *)
Theorem parseMergeEntry_accepts lex e :
  parseMergeEntry lex = inr e ->
  contentInvariant e
  /\ Forall cleanGrapheme (graphemes e)
  /\ (exists al ph, alias e = Some al /\ phoneme e = Some ph).
Proof.
  unfold parseMergeEntry, bind, check. intros H.
  step_parsed H; inversion H; subst; clear H; simpl;
    repeat match goal with
           | Hc : (if ?b then inr tt else inl _) = inr _ |- _ =>
               apply check_ok in Hc
           end.
  match goal with Hc : negb (length _ =? 0)%nat = true |- _ =>
    rename Hc into Hn end.
  match goal with Hc : forallb _ _ = true |- _ => rename Hc into Hb end.
  match goal with Hc : JS.truthy _ || JS.truthy _ = true |- _ =>
    rename Hc into Hp end.
  match goal with Hc : negb (existsb _ (List.concat _)) = true |- _ =>
    rename Hc into Hq end.
  match goal with Hc : negb (existsb (existsb isControlUnit) _) = true |- _ =>
    rename Hc into Hk end.
  match goal with Hc : negb (existsb _ _) = true |- _ => rename Hc into Hl end.
  apply negb_true_iff in Hn, Hq, Hk, Hl.
  apply Nat.eqb_neq in Hn.
  apply existsb_concat_false in Hq.
  apply existsb_false_Forall in Hk, Hl.
  rewrite forallb_forall in Hb.
  rewrite Forall_forall in Hq, Hk, Hl.
  split; [|split; [|eauto]].
  - split.
    + simpl. intros Hnil. apply Hn. now rewrite Hnil.
    + simpl. apply orb_true_iff in Hp as [Hp|Hp]; apply truthy_nonempty in Hp; auto.
  - apply Forall_forall. intros g Hg.
    specialize (Hb g Hg). specialize (Hq g Hg).
    specialize (Hk g Hg). specialize (Hl g Hg). cbv beta in *.
    apply andb_true_iff in Hb as [_ Hb]. apply truthy_nonempty in Hb.
    apply Nat.ltb_ge in Hl.
    apply existsb_false_Forall in Hq, Hk.
    rewrite Forall_forall in Hq, Hk.
    split; [assumption|]. split; [assumption|].
    apply Forall_forall. intros c Hcin.
    specialize (Hq c Hcin). specialize (Hk c Hcin). cbv beta in *.
    apply orb_false_iff in Hq as [Hq1 Hq2].
    apply N.eqb_neq in Hq1, Hq2. auto.
Qed.



Section SelfMerge.

Context {R : JsRuntime}.

(** X18. The merge of a list with itself is clean, with no conflict and
    no new entry, exactly when every entry of the list has a grapheme
    and the entries that share a grapheme case-insensitively are
    identical. *)
Theorem self_merge_clean_iff st :
  (conflictsOf (entries st) (entries st) = []
   /\ exists summary,
        mergeSummary (analyzeConflicts st (entries st)) = Some summary
        /\ newEntries summary = 0%nat)
  <-> selfConsistent (entries st).
Proof.
  split.
  - intros [Hnil Hsum]. now apply merge_idempotent_only_if.
  - intros Hsc. pose proof (conflictsOf_self_nil _ Hsc) as Hnil.
    split; [assumption|].
    unfold analyzeConflicts. rewrite Hnil. unfold performMerge.
    rewrite performMerge_self by auto. simpl.
    eexists. split; reflexivity.
Qed.

End SelfMerge.

(** ** The decoders on an export *)

Lemma map_has_push m k g k' :
  map_has (map_push m k g) k' = map_has m k'.
Proof.
  unfold map_has. induction m as [|[k0 e0] m IH]; simpl; [reflexivity|].
  destruct (JS.eqb k0 k); simpl; [reflexivity|]. now rewrite IH.
Qed.

Lemma map_has_pushAll m k gs k' :
  map_has (fold_left (fun m' g => map_push m' k g) gs m) k' = map_has m k'.
Proof.
  revert m. induction gs as [|g gs IH]; intros m; simpl; [reflexivity|].
  now rewrite IH, map_has_push.
Qed.

Section Regroup.

Variable splitLine : jsstring -> list jsstring.
Variable mkRow : list jsstring -> jsstring.
Variable cellOk : jsstring -> Prop.

Hypothesis split_header : splitLine (mkRow expectedHeaders) = expectedHeaders.
Hypothesis split_row : forall g e,
  cellOk g -> Forall cellOk (otherCells e) ->
  splitLine (mkRow (g :: otherCells e)) = g :: otherCells e.
Hypothesis cell_is_trimmed : forall s, cellOk s -> JS.trim s = s.
Hypothesis row_is_data : forall g others,
  cellOk g -> g <> [] -> JS.startsWithUnit g JS.HASH = false ->
  isDataLine (mkRow (g :: others)) = true.
Hypothesis row_one_line : forall g others,
  cellOk g -> Forall cellOk others ->
  JS.includesUnit (mkRow (g :: others)) JS.LF = false.
Hypothesis header_one_line :
  JS.includesUnit (mkRow expectedHeaders) JS.LF = false.
Hypothesis header_is_data : isDataLine (mkRow expectedHeaders) = true.
Hypothesis header_head : exists t, mkRow expectedHeaders = 103%N :: t.

Lemma fold_rows_present m e gs :
  map_has m (rowKey e) = true ->
  Forall cellOk (otherCells e) ->
  Forall (fun g => cellOk g /\ g <> []
                   /\ JS.startsWithUnit g JS.HASH = false) gs ->
  fold_left (addRow splitLine expectedHeaders)
            (map (fun g => mkRow (g :: otherCells e)) gs) m
  = fold_left (fun m' g => map_push m' (rowKey e) g) gs m.
Proof.
  intros Hk Hcells. revert m Hk.
  induction gs as [|g gs IH]; intros m Hk Hgs; simpl; [reflexivity|].
  inversion Hgs as [|? ? (Hg & Hne & _) Hrest]; subst.
  rewrite (addRow_built splitLine mkRow cellOk split_row cell_is_trimmed
             _ _ _ Hg Hne Hcells), Hk.
  apply IH; [now rewrite map_has_push|assumption].
Qed.

Lemma fold_rows_absorb m e :
  exportable cellOk e ->
  fold_left (addRow splitLine expectedHeaders) (rowsOf mkRow e) m
  = absorb m e.
Proof.
  intros (Hne & Hgs & Hcells). unfold rowsOf, absorb.
  destruct (graphemes e) as [|g gs] eqn:Hge; [congruence|]. simpl.
  inversion Hgs as [|? ? (Hg & Hgne & _) Hrest]; subst.
  rewrite (addRow_built splitLine mkRow cellOk split_row cell_is_trimmed
             _ _ _ Hg Hgne Hcells).
  apply fold_rows_present; [|assumption|assumption].
  rewrite map_has_push.
  destruct (map_has m (rowKey e)) eqn:Hk; [assumption|].
  now rewrite map_has_app, eqb_refl, orb_true_r.
Qed.

Lemma fold_rows_regroup es m :
  Forall (exportable cellOk) es ->
  fold_left (addRow splitLine expectedHeaders) (flat_map (rowsOf mkRow) es) m
  = fold_left absorb es m.
Proof.
  revert m; induction es as [|e es IH]; intros m Hex; simpl; [reflexivity|].
  inversion Hex as [|? ? He Hex']; subst.
  rewrite fold_left_app, (fold_rows_absorb _ _ He). now apply IH.
Qed.

Lemma decode_regroups es :
  es <> [] -> Forall (exportable cellOk) es ->
  parseRows splitLine (encodeWith mkRow es) = inr (regrouped es).
Proof.
  intros Hne Hex. unfold parseRows, encodeWith.
  pose proof (rows_are_data mkRow cellOk row_is_data row_one_line es Hex)
    as Hrows.
  set (rows := flat_map (rowsOf mkRow) es) in *.
  assert (Hrows_ne : exists r rs, rows = r :: rs).
  { destruct es as [|e es']; [congruence|].
    inversion Hex as [|? ? (Hge & _) _]; subst. subst rows. simpl.
    unfold rowsOf at 1. destruct (graphemes e); [congruence|].
    simpl. eauto. }
  destruct header_head as [t Ht].
  assert (Hbom : JS.startsWithUnit
                   (JS.join JS.LF (mkRow expectedHeaders :: rows)) JS.BOM
                 = false).
  { rewrite Ht. destruct (join_head JS.LF 103%N t rows) as [t' ->].
    reflexivity. }
  rewrite Hbom.
  rewrite split_join; [|discriminate|].
  2:{ constructor; [assumption|].
      eapply Forall_impl; [|exact Hrows]. now intros l [_ H]. }
  rewrite filter_all.
  2:{ constructor; [assumption|].
      eapply Forall_impl; [|exact Hrows]. now intros l [H _]. }
  destruct Hrows_ne as (r & rs & Hr). rewrite Hr.
  rewrite split_header.
  change (negb (forallb (JS.includes expectedHeaders) expectedHeaders))
    with false.
  cbv iota. rewrite <- Hr. subst rows. f_equal.
  now rewrite fold_rows_regroup.
Qed.

End Regroup.

Lemma tsv_decode_regroups es :
  es <> [] -> Forall (exportable tsvCell) es ->
  parseTSV (buildTSV es) = inr (regrouped es).
Proof.
  intros Hne Hex. rewrite buildTSV_encodeWith. unfold parseTSV.
  apply (decode_regroups (JS.split JS.TAB) (JS.join JS.TAB) tsvCell);
    try assumption.
  - reflexivity.
  - exact tsv_split_row.
  - now intros s (H & _).
  - exact tsv_row_is_data.
  - exact tsv_row_one_line.
  - reflexivity.
  - reflexivity.
  - eexists. reflexivity.
Qed.

Lemma csv_decode_regroups es :
  es <> [] -> Forall (exportable csvCell) es ->
  parseCSV (buildCSV es) = inr (regrouped es).
Proof.
  intros Hne Hex. rewrite buildCSV_encodeWith. unfold parseCSV.
  apply (decode_regroups parseCSVLine csvRow csvCell); try assumption.
  - reflexivity.
  - intros g e _ _. now apply parseCSVLine_csvRow.
  - now intros s (H & _).
  - exact csv_row_is_data.
  - exact csv_row_one_line.
  - reflexivity.
  - reflexivity.
  - eexists. reflexivity.
Qed.

(** *** The regrouped list *)

Lemma pushAll_absent m k e gs :
  map_has m k = false ->
  fold_left (fun m' g => map_push m' k g) gs (m ++ [(k, e)])
  = m ++ [(k, fold_left pushGrapheme gs e)].
Proof.
  intros Hk. revert e. induction gs as [|g gs IH]; intros e; simpl;
    [reflexivity|].
  now rewrite (map_push_absent _ _ _ _ Hk), IH.
Qed.

Lemma absorb_absent m e :
  map_has m (rowKey e) = false ->
  absorb m e = m ++ [(rowKey e, decoded e)].
Proof.
  intros Hk. unfold absorb. rewrite Hk, (pushAll_absent _ _ _ _ Hk).
  now rewrite fold_pushGrapheme.
Qed.

Lemma regroup_distinct es m :
  (forall e, In e es -> map_has m (rowKey e) = false) ->
  NoDup (map rowKey es) ->
  fold_left absorb es m = m ++ map (fun e => (rowKey e, decoded e)) es.
Proof.
  revert m; induction es as [|e es IH]; intros m Hm Hnd; simpl.
  - now rewrite app_nil_r.
  - inversion Hnd as [|? ? Hnotin Hnd']; subst.
    rewrite (absorb_absent _ _ (Hm e (or_introl eq_refl))).
    rewrite IH; [now rewrite <- app_assoc| |assumption].
    intros e' He'. rewrite map_has_app, (Hm e' (or_intror He')). simpl.
    apply eqb_neq. intros Heq. apply Hnotin. rewrite Heq.
    now apply in_map.
Qed.

Lemma map_push_graphemes m k g :
  map_has m k = true ->
  Permutation (allGraphemes (map snd (map_push m k g)))
              (g :: allGraphemes (map snd m)).
Proof.
  unfold allGraphemes, map_has.
  induction m as [|[k0 e0] m IH]; simpl; [discriminate|].
  destruct (JS.eqb k0 k); simpl.
  - intros _. rewrite <- app_assoc. simpl.
    rewrite <- Permutation_middle. reflexivity.
  - intros H. rewrite (IH H). now rewrite <- Permutation_middle.
Qed.

Lemma pushAll_graphemes m k gs :
  map_has m k = true ->
  Permutation
    (allGraphemes (map snd (fold_left (fun m' g => map_push m' k g) gs m)))
    (allGraphemes (map snd m) ++ gs).
Proof.
  revert m. induction gs as [|g gs IH]; intros m Hk; simpl.
  - now rewrite app_nil_r.
  - rewrite IH by now rewrite map_has_push.
    rewrite (map_push_graphemes _ _ _ Hk).
    now rewrite <- Permutation_middle.
Qed.

Lemma map_push_length m k g : length (map_push m k g) = length m.
Proof.
  induction m as [|[k0 e0] m IH]; simpl; [reflexivity|].
  destruct (JS.eqb k0 k); simpl; [reflexivity|now rewrite IH].
Qed.

Lemma pushAll_length m k gs :
  length (fold_left (fun m' g => map_push m' k g) gs m) = length m.
Proof.
  revert m. induction gs as [|g gs IH]; intros m; simpl; [reflexivity|].
  now rewrite IH, map_push_length.
Qed.

Lemma absorb_shape es m :
  Permutation (allGraphemes (map snd (fold_left absorb es m)))
              (allGraphemes (map snd m) ++ allGraphemes es)
  /\ (length (fold_left absorb es m) <= length m + length es)%nat.
Proof.
  revert m. induction es as [|e es IH]; intros m; simpl.
  - rewrite app_nil_r. split; [reflexivity|lia].
  - destruct (IH (absorb m e)) as [Hp Hl]. split.
    + rewrite Hp. unfold absorb.
      destruct (map_has m (rowKey e)) eqn:Hk.
      * rewrite (pushAll_graphemes _ _ _ Hk). now rewrite app_assoc.
      * rewrite pushAll_graphemes
          by now rewrite map_has_app, eqb_refl, orb_true_r.
        rewrite map_app. unfold allGraphemes at 1.
        rewrite flat_map_app. simpl. rewrite !app_nil_r.
        now rewrite app_assoc.
    + assert (Ha : (length (absorb m e) <= S (length m))%nat).
      { unfold absorb. rewrite pushAll_length.
        destruct (map_has m (rowKey e)); [lia|].
        rewrite length_app. simpl. lia. }
      lia.
Qed.

(** X19. What the round trip through the TSV text, and through the CSV
    text, returns for any list of exportable entries: the list with the
    entries of one key (alias, alias say-as, phoneme and phoneme say-as)
    merged into the first of them, which takes their graphemes in
    order. No grapheme is lost or added, there are at most as many
    entries as before, and where the keys are distinct the entries come
    back one by one. *)
Theorem roundtrip_regroups es :
  es <> [] ->
  (Forall (exportable tsvCell) es ->
     parseTSV (buildTSV es) = inr (regrouped es))
  /\ (Forall (exportable csvCell) es ->
     parseCSV (buildCSV es) = inr (regrouped es))
  /\ Permutation (allGraphemes (regrouped es)) (allGraphemes es)
  /\ (length (regrouped es) <= length es)%nat
  /\ (NoDup (map rowKey es) -> regrouped es = map decoded es).
Proof.
  intros Hne.
  split; [now apply tsv_decode_regroups|].
  split; [now apply csv_decode_regroups|].
  destruct (absorb_shape es []) as [Hp Hl]. unfold regrouped.
  split; [exact Hp|]. split; [now rewrite length_map|].
  intros Hnd. rewrite regroup_distinct by auto. simpl.
  now rewrite map_map.
Qed.

(** *** Export *)

Lemma parseRows_bom splitLine content :
  JS.startsWithUnit content JS.BOM = false ->
  parseRows splitLine (JS.BOM :: content) = parseRows splitLine content.
Proof.
  intros H. unfold parseRows. rewrite H. reflexivity.
Qed.

Lemma buildCSV_no_bom es : JS.startsWithUnit (buildCSV es) JS.BOM = false.
Proof.
  unfold buildCSV.
  destruct (join_head JS.LF 103%N
              (tl (JS.join JS.COMMA expectedHeaders))
              (flat_map
                 (fun entry =>
                    map (fun grapheme =>
                           JS.join JS.COMMA
                                   (map escapeCSV
                                        (grapheme :: otherCells entry)))
                        (graphemes entry)) es)) as [t Ht].
  change (103%N :: tl (JS.join JS.COMMA expectedHeaders))
    with (JS.join JS.COMMA expectedHeaders) in Ht.
  cbv zeta. rewrite Ht. reflexivity.
Qed.

Lemma dropLast_lastn {A} n (l : list A) : dropLast n l ++ lastn n l = l.
Proof. unfold dropLast, lastn. apply firstn_skipn. Qed.

(** X20. Export in a format other than XML writes the CSV text of the
    entry list behind a byte-order mark, under the name of the current
    file with a final [.xml] or [.tsv], in any case, replaced by
    [.csv]; and the CSV decoder reads the exported text as it reads the
    CSV text itself: for exportable entries it returns the regrouped
    list, the entries one by one where their keys are distinct. *)
Theorem export_reads_back xml es currentFile :
  es <> [] -> Forall (exportable csvCell) es ->
  let file := handleExportFormat format_tsv xml es currentFile in
  download_content file = JS.BOM :: buildCSV es
  /\ parseCSV (download_content file) = parseCSV (buildCSV es)
  /\ parseCSV (download_content file) = inr (regrouped es)
  /\ (NoDup (map rowKey es) ->
      exists ds, parseCSV (download_content file) = inr ds
                 /\ Forall2 sameFields es ds)
  /\ exists base,
       download_name file = base ++ js ".csv"
       /\ (base = currentFile
           \/ exists suffix,
                currentFile = base ++ suffix
                /\ (map canonicalUnit suffix = js ".XML"
                    \/ map canonicalUnit suffix = js ".TSV")).
Proof.
  intros Hne Hex. cbn zeta. unfold handleExportFormat. simpl.
  assert (Hbom : parseCSV (JS.BOM :: buildCSV es) = parseCSV (buildCSV es)).
  { apply parseRows_bom, buildCSV_no_bom. }
  split; [reflexivity|]. split; [exact Hbom|].
  split; [rewrite Hbom; now apply csv_decode_regroups|]. split.
  - intros Hnd. exists (map decoded es). split; [|apply Forall2_decoded].
    rewrite Hbom. now apply csv_decode_encode.
  - exists (stripExportSuffix currentFile). split; [reflexivity|].
    unfold stripExportSuffix.
    destruct (endsWithIgnoreCase currentFile (js ".xml")) eqn:Hx; simpl.
    + right. exists (lastn 4 currentFile).
      unfold endsWithIgnoreCase in Hx. apply andb_true_iff in Hx as [Hl Hx].
      apply Nat.leb_le in Hl. apply eqb_eq in Hx.
      split; [symmetry; apply dropLast_lastn|left; exact Hx].
    + destruct (endsWithIgnoreCase currentFile (js ".tsv")) eqn:Ht;
        [|now left].
      right. exists (lastn 4 currentFile).
      unfold endsWithIgnoreCase in Ht. apply andb_true_iff in Ht as [Hl Ht].
      apply Nat.leb_le in Hl. apply eqb_eq in Ht.
      split; [symmetry; apply dropLast_lastn|right; exact Ht].
Qed.

(** *** Comment lines and blank lines *)

Lemma join_starts_bom (l : jsstring) (ls : list jsstring) :
  JS.startsWithUnit l JS.BOM = false ->
  JS.startsWithUnit (JS.join JS.LF (l :: ls)) JS.BOM = false.
Proof.
  intros H. destruct ls as [|l' ls]; [exact H|].
  cbn [JS.join]. destruct l as [|c r]; [reflexivity|exact H].
Qed.

Lemma filter_idem {A} (f : A -> bool) l : filter f (filter f l) = filter f l.
Proof.
  induction l as [|x l IH]; simpl; [reflexivity|].
  destruct (f x) eqn:Hx; simpl; [now rewrite Hx, IH|assumption].
Qed.

Lemma lines_of_join lines :
  lines <> [] -> Forall plainLine lines ->
  JS.startsWithUnit (JS.join JS.LF lines) JS.BOM = false
  /\ JS.split JS.LF (JS.join JS.LF lines) = lines.
Proof.
  intros Hne Hall. split.
  - destruct lines as [|l ls]; [congruence|].
    inversion Hall as [|? ? [_ Hb] _]; subst.
    now apply join_starts_bom.
  - apply split_join; [assumption|].
    eapply Forall_impl; [|exact Hall]. now intros l [H _].
Qed.

(** X21. The decoders skip comment lines and blank lines wherever they
    stand: a file and the file without its lines that are blank or
    start, after white space, with a hash sign decode to the same
    result, be it a list of entries or an error. The lines are any
    lines without a byte-order mark at their start. *)
Theorem comments_are_skipped splitLine lines :
  lines <> [] -> Forall plainLine lines ->
  parseRows splitLine (JS.join JS.LF lines)
  = parseRows splitLine (JS.join JS.LF (filter isDataLine lines)).
Proof.
  intros Hne Hall.
  destruct (lines_of_join lines Hne Hall) as [Hbom Hsplit].
  unfold parseRows at 1. rewrite Hbom, Hsplit.
  destruct (filter isDataLine lines) as [|d ds] eqn:Hd.
  - reflexivity.
  - assert (Hall' : Forall plainLine (d :: ds)).
    { rewrite <- Hd. apply Forall_forall. intros l Hl.
      apply filter_In in Hl as [Hl _].
      exact (proj1 (Forall_forall _ _) Hall l Hl). }
    destruct (lines_of_join (d :: ds) ltac:(discriminate) Hall')
      as [Hbom' Hsplit'].
    assert (Hfix : filter isDataLine (d :: ds) = d :: ds).
    { rewrite <- Hd. apply filter_idem. }
    unfold parseRows. rewrite Hbom', Hsplit', Hfix. reflexivity.
Qed.

(** X22. A row of the CSV text reads back cell by cell: [parseCSVLine]
    returns the cells from which [buildCSV] wrote the row, whatever
    code units they hold, commas and quotes included; a cell without
    comma, quote, line feed and carriage return is written as it is;
    and a row of the TSV text splits into its cells where no cell holds
    a tab. *)
Theorem csv_row_reads_back :
  (forall cells, cells <> [] -> parseCSVLine (csvRow cells) = cells)
  /\ (forall value,
        JS.includesUnit value JS.COMMA = false ->
        JS.includesUnit value JS.QUOTE = false ->
        JS.includesUnit value JS.LF = false ->
        JS.includesUnit value JS.CR = false ->
        escapeCSV value = value)
  /\ (forall cells,
        cells <> [] ->
        Forall (fun s => JS.includesUnit s JS.TAB = false) cells ->
        JS.split JS.TAB (JS.join JS.TAB cells) = cells).
Proof.
  split; [exact parseCSVLine_csvRow|]. split.
  - intros value Hc Hq Hl Hr. unfold escapeCSV.
    rewrite Hc, Hq, Hl, Hr. simpl. now destruct value.
  - intros cells Hne Hall. now apply split_join.
Qed.

(** ** The lexicon file: new, save, save as, duplicate *)

Lemma lastn_app {A} (a b : list A) : lastn (length b) (a ++ b) = b.
Proof.
  unfold lastn. rewrite length_app.
  replace (length a + length b - length b)%nat with (length a) by lia.
  rewrite skipn_app, Nat.sub_diag, skipn_all. reflexivity.
Qed.

Lemma dropLast_app {A} (a b : list A) : dropLast (length b) (a ++ b) = a.
Proof.
  unfold dropLast. rewrite length_app.
  replace (length a + length b - length b)%nat with (length a) by lia.
  rewrite firstn_app, Nat.sub_diag, firstn_all. simpl.
  now rewrite app_nil_r.
Qed.

Lemma endsWith_app a b : endsWith (a ++ b) b = true.
Proof.
  unfold endsWith. rewrite lastn_app, eqb_refl, andb_true_r.
  apply Nat.leb_le. rewrite length_app. lia.
Qed.

Lemma endsWith_split s suffix :
  endsWith s suffix = true -> s = dropLast (length suffix) s ++ suffix.
Proof.
  unfold endsWith. intros H. apply andb_true_iff in H as [_ H].
  apply eqb_eq in H. rewrite <- H at 2. symmetry. apply dropLast_lastn.
Qed.

Lemma nameUnit_no_slash stem :
  forallb nameUnit stem = true ->
  JS.includesUnit stem SLASH = false /\ JS.includesUnit stem BACKSLASH = false.
Proof.
  unfold JS.includesUnit.
  induction stem as [|c r IH]; cbn [forallb existsb]; [auto|].
  intros H. apply andb_true_iff in H as [Hc Hr].
  destruct (IH Hr) as [H1 H2]. rewrite H1, H2, !orb_false_r.
  split.
  - destruct (N.eqb_spec SLASH c) as [<-|]; [discriminate Hc|reflexivity].
  - destruct (N.eqb_spec BACKSLASH c) as [<-|]; [discriminate Hc|reflexivity].
Qed.

Lemma validLexiconName_shape name :
  validLexiconName name = true ->
  exists stem, name = stem ++ js ".xml" /\ stem <> []
               /\ forallb nameUnit stem = true.
Proof.
  unfold validLexiconName. intros H.
  apply andb_true_iff in H as [H Hall]. apply andb_true_iff in H as [He Hne].
  exists (dropLast 4 name). split; [exact (endsWith_split _ _ He)|].
  split; [now apply truthy_nonempty|assumption].
Qed.

Lemma withBlob_In name prev : In name (withBlob name prev).
Proof.
  unfold withBlob. destruct (JS.includes prev name) eqn:H; [|now left].
  now apply includes_In.
Qed.

Section FileProofs.

Context {R : JsRuntime}.

(** X23. A name that [handleCreateNewLexicon] accepts is a stem of
    letters, digits, hyphens and underscores, not empty, followed by
    [.xml]: it holds no slash and no further dot. The new lexicon is the
    one placeholder entry, with nothing saved and no validation error;
    its file is in the list of files; and until an entry is edited
    [handleSaveLexicon] refuses to save it and leaves it as it is. *)
Theorem new_lexicon_needs_an_entry ws newLexiconName ws' :
  handleCreateNewLexicon ws newLexiconName = inr ws' ->
  (exists stem, currentFile ws' = stem ++ js ".xml" /\ stem <> []
                /\ forallb nameUnit stem = true)
  /\ JS.includesUnit (currentFile ws') SLASH = false
  /\ JS.includesUnit (currentFile ws') BACKSLASH = false
  /\ In (currentFile ws') (blobList ws')
  /\ ws_entries ws' = [placeholderEntry]
  /\ savedEntries ws' = []
  /\ validationErrors (editor ws') = []
  /\ isEmptyLexicon (ws_entries ws') = true
  /\ forall failure,
       handleSaveLexicon ws' failure
       = (ws', save_refused (js "Cannot save: Add at least one real entry.")).
Proof.
  unfold handleCreateNewLexicon.
  destruct (negb (JS.truthy (JS.trim newLexiconName))); [discriminate|].
  destruct (negb (JS.truthy (newLexiconLang ws))); [discriminate|].
  cbv zeta.
  set (finalName := if negb (endsWith (toLowerCase (JS.trim newLexiconName))
                                      (js ".xml"))
                    then JS.trim newLexiconName ++ js ".xml"
                    else JS.trim newLexiconName).
  destruct (validLexiconName finalName) eqn:Hvalid; [|discriminate].
  simpl. intros [= <-]. cbn [currentFile blobList savedEntries editor].
  destruct (validLexiconName_shape _ Hvalid) as (stem & Hname & Hne & Hall).
  split; [exists stem; auto|].
  destruct (nameUnit_no_slash _ Hall) as [Hs Hb].
  rewrite Hname, !includesUnit_app, Hs, Hb.
  split; [reflexivity|]. split; [reflexivity|].
  rewrite <- Hname. split; [apply withBlob_In|].
  split; [reflexivity|]. split; [reflexivity|]. split; [reflexivity|].
  split; [reflexivity|].
  intros failure. unfold handleSaveLexicon.
  cbn [currentFile]. rewrite Hname.
  destruct stem as [|c stem]; [congruence|]. reflexivity.
Qed.

(** X24. [handleSaveLexicon] calls [saveLexicon] exactly when there is a
    current file, the lexicon is more than the one placeholder entry and
    no validation error is kept; otherwise it leaves the entries and the
    saved entries as they are. After a call that returns, the entries
    are the saved entries: the entries as they were, field by field,
    without their [isNew] marks, no validation error is left, and the
    file is the same; after a call that fails, nothing has changed. *)
Theorem save_gate ws failure :
  let ws' := fst (handleSaveLexicon ws failure) in
  let outcome := snd (handleSaveLexicon ws failure) in
  (attempted outcome = true
   <-> currentFile ws <> [] /\ isOnlyPlaceholder (ws_entries ws) = false
       /\ validationErrors (editor ws) = [])
  /\ (attempted outcome = false ->
      ws_entries ws' = ws_entries ws /\ savedEntries ws' = savedEntries ws
      /\ validationErrors (editor ws') = validationErrors (editor ws))
  /\ ((exists message, outcome = save_done message) ->
      failure = None
      /\ savedEntries ws' = ws_entries ws'
      /\ ws_entries ws' = map cleanedEntry (ws_entries ws)
      /\ Forall2 sameFields (ws_entries ws) (ws_entries ws')
      /\ Forall (fun e => isNew e = None) (ws_entries ws')
      /\ validationErrors (editor ws') = []
      /\ currentFile ws' = currentFile ws)
  /\ ((exists message, outcome = save_failed message) -> ws' = ws).
Proof.
  cbv zeta. unfold handleSaveLexicon.
  destruct (JS.truthy (currentFile ws)) eqn:Hfile; simpl.
  2:{ apply truthy_false in Hfile.
      split; [split; [discriminate|now intros [H _]]|].
      split; [auto|]. split; intros [m H]; discriminate. }
  apply truthy_nonempty in Hfile.
  destruct (isOnlyPlaceholder (ws_entries ws)) eqn:Hph; simpl.
  { split; [split; [discriminate|now intros (_ & H & _)]|].
    split; [auto|]. split; intros [m H]; discriminate. }
  destruct (validationErrors (editor ws)) as [|kv errs] eqn:Herrs; simpl.
  - destruct failure as [m|]; simpl.
    + split; [split; auto|]. split; [discriminate|].
      split; [intros [m' H]; discriminate|reflexivity].
    + split; [split; auto|]. split; [discriminate|].
      split; [|intros [m' H]; discriminate].
      intros _. unfold ws_entries; simpl.
      repeat (split; [reflexivity|]).
      split; [|split; [|auto]].
      * induction (sel_entries (selection (editor ws))) as [|e l IH];
          simpl; constructor; [|assumption].
        unfold sameFields; simpl. auto.
      * apply Forall_forall. intros e He.
        apply in_map_iff in He as [e0 [<- _]]. reflexivity.
  - split; [split; [discriminate|now intros (_ & _ & H)]|].
    split; [intros _; unfold ws_entries; simpl; auto|].
    split; intros [m H]; discriminate.
Qed.

Lemma insertDetail_In d l x :
  In x (insertDetail d l) <-> x = d \/ In x l.
Proof.
  induction l as [|y l IH]; simpl; [intuition|].
  destruct (_ <=? _)%nat; simpl; [intuition|].
  rewrite IH. intuition.
Qed.

Lemma sortDetails_In l x : In x (sortDetails l) <-> In x l.
Proof.
  induction l as [|y l IH]; simpl; [reflexivity|].
  rewrite insertDetail_In, IH. intuition.
Qed.

Lemma insertDetail_least d l :
  Forall (fun x => (match l with
                    | y :: _ => detail_index y
                    | [] => detail_index d
                    end <= detail_index x)%nat) l ->
  match insertDetail d l with
  | y :: _ => Forall (fun x => (detail_index y <= detail_index x)%nat)
                     (insertDetail d l)
  | [] => True
  end.
Proof.
  destruct l as [|y l]; simpl.
  - intros _. constructor; [lia|constructor].
  - intros H. destruct (Nat.leb_spec (detail_index d) (detail_index y)).
    + constructor; [lia|]. eapply Forall_impl; [|exact H].
      simpl. intros x Hx. lia.
    + apply Forall_forall. intros x Hx.
      change (In x (insertDetail d (y :: l))) in Hx ||
        (assert (Hx' : In x (y :: insertDetail d l)) by exact Hx).
      destruct Hx as [<-|Hx]; [lia|].
      apply insertDetail_In in Hx as [->|Hx]; [lia|].
      rewrite Forall_forall in H. apply H. now right.
Qed.

Lemma sortDetails_least l :
  match sortDetails l with
  | y :: _ => Forall (fun x => (detail_index y <= detail_index x)%nat)
                     (sortDetails l)
  | [] => True
  end.
Proof.
  induction l as [|d l IH]; simpl; [exact I|].
  apply insertDetail_least.
  destruct (sortDetails l) as [|y r]; [constructor|exact IH].
Qed.

(** X25. Where validation errors keep [handleSaveLexicon] from saving,
    it selects the first entry with errors: the selected index carries
    errors, and no smaller index does. The entries, the saved entries
    and the errors stay as they are. *)
Theorem save_selects_first_error ws failure :
  currentFile ws <> [] -> isOnlyPlaceholder (ws_entries ws) = false ->
  validationErrors (editor ws) <> [] ->
  let ws' := fst (handleSaveLexicon ws failure) in
  exists i message,
    selectedIndex (selection (editor ws')) = Some i
    /\ snd (handleSaveLexicon ws failure) = save_refused message
    /\ In i (obj_keys (validationErrors (editor ws)))
    /\ (forall j, In j (obj_keys (validationErrors (editor ws))) ->
                  (i <= j)%nat)
    /\ ws_entries ws' = ws_entries ws
    /\ savedEntries ws' = savedEntries ws
    /\ validationErrors (editor ws') = validationErrors (editor ws).
Proof.
  intros Hfile Hph Herrs. cbv zeta. unfold handleSaveLexicon.
  apply truthy_nonempty in Hfile. rewrite Hfile, Hph. simpl.
  destruct (validationErrors (editor ws)) as [|kv errs] eqn:He;
    [congruence|]. cbn [obj_keys map length Nat.ltb Nat.leb]. cbv iota.
  set (details := errorDetailsOf (ws_entries ws) (kv :: errs)).
  assert (Hin : forall d, In d details ->
                          In (detail_index d) (obj_keys (kv :: errs))).
  { intros d Hd. unfold details, errorDetailsOf in Hd.
    apply sortDetails_In, in_map_iff in Hd as [ie [<- Hie]].
    cbn [detail_index]. unfold obj_keys. now apply in_map. }
  assert (Hall : forall j, In j (obj_keys (kv :: errs)) ->
                           exists d, In d details /\ detail_index d = j).
  { intros j Hj. unfold obj_keys in Hj. apply in_map_iff in Hj as [ie [<- Hie]].
    eexists. split.
    - unfold details, errorDetailsOf. apply sortDetails_In, in_map_iff.
      exists ie. split; [reflexivity|exact Hie].
    - reflexivity. }
  pose proof (sortDetails_least
                (map (fun ie =>
                        {| detail_index := fst ie;
                           detail_grapheme :=
                             detailLabel (ws_entries ws) (fst ie);
                           detail_errors := String.concat ", " (snd ie) |})
                     (kv :: errs))) as Hleast.
  fold (errorDetailsOf (ws_entries ws) (kv :: errs)) in Hleast.
  fold details in Hleast.
  destruct details as [|d ds] eqn:Hd.
  - exfalso. destruct (Hall (fst kv)) as [d [[] _]]. now left.
  - simpl. exists (detail_index d). eexists.
    split; [reflexivity|]. split; [reflexivity|].
    split; [apply Hin; now left|]. split; [|auto].
    intros j Hj. destruct (Hall j Hj) as (x & Hx & <-).
    exact (proj1 (Forall_forall _ _) Hleast x Hx).
Qed.

Lemma saveAsName_xml saveAsFilename :
  endsWith (saveAsName saveAsFilename) (js ".xml") = true.
Proof.
  unfold saveAsName. cbv zeta. destruct (negb _); apply endsWith_app.
Qed.

(** X26. [handleSaveAsConfirm] never saves over a file of the list
    without asking. Where it saves, the name ends with [.xml], holds no
    slash and no backslash, is not the name of the current file and is
    not in the list of existing files, and becomes the current file;
    where the name is in the list it only opens the overwrite dialog for
    it; in every other case it leaves the workspace as it is. *)
Theorem save_as_asks_before_overwrite ws saveAsFilename existingFiles :
  let ws' := fst (handleSaveAsConfirm ws saveAsFilename existingFiles) in
  match snd (handleSaveAsConfirm ws saveAsFilename existingFiles) with
  | saved_as name =>
      name = saveAsName saveAsFilename
      /\ endsWith name (js ".xml") = true
      /\ JS.includesUnit name SLASH = false
      /\ JS.includesUnit name BACKSLASH = false
      /\ name <> currentFile ws
      /\ ~ In name existingFiles
      /\ ws' = withCurrentFile ws name
  | ask_overwrite name =>
      name = saveAsName saveAsFilename /\ In name existingFiles
      /\ name <> currentFile ws /\ ws' = ws
  | name_empty => JS.trim saveAsFilename = [] /\ ws' = ws
  | name_has_slash | same_file => ws' = ws
  end.
Proof.
  cbv zeta. unfold handleSaveAsConfirm.
  destruct (JS.truthy (JS.trim saveAsFilename)) eqn:Hname; simpl.
  2:{ apply truthy_false in Hname. auto. }
  destruct (JS.includesUnit (saveAsName saveAsFilename) SLASH) eqn:Hs;
    simpl; [reflexivity|].
  destruct (JS.includesUnit (saveAsName saveAsFilename) BACKSLASH) eqn:Hb;
    simpl; [reflexivity|].
  destruct (JS.eqb (saveAsName saveAsFilename) (currentFile ws)) eqn:Hsame;
    simpl; [reflexivity|].
  apply eqb_neq in Hsame.
  destruct (JS.includes existingFiles (saveAsName saveAsFilename)) eqn:Hex;
    simpl.
  - apply includes_In in Hex. auto.
  - repeat (split; [first [reflexivity|assumption|apply saveAsName_xml]|]).
    split; [|reflexivity].
    intros Hin. apply includes_In in Hin. congruence.
Qed.

Lemma map_keeps_order (f : LexiconEntry -> LexiconEntry) l :
  (forall e, firstGraphemeKey (f e) = firstGraphemeKey e) ->
  ordered l -> ordered (map f l).
Proof.
  intros Hkey. unfold ordered. induction 1 as [|e l Hl IH Hhd]; simpl;
    constructor; [assumption|].
  destruct Hhd as [|y r Hle]; simpl; constructor.
  unfold entryLe in *. now rewrite !Hkey.
Qed.

(** X27. Duplicating a lexicon keeps the graphemes, the alias and the
    phoneme of every entry, in the order of the list, and drops its
    say-as types and its [isNew] mark; so a list in order stays in
    order. The copy is named [duplicate-of-], the name of the file
    without a final [.xml] in any case, [.xml]; it is in the list of
    files, nothing of it is saved, and no entry is selected. With
    unsaved changes, or without a current file, nothing is
    duplicated. *)
Theorem duplicate_drops_say_as ws :
  (currentFile ws <> [] ->
   let ws' := handleDuplicateLexicon ws false in
   ws_entries ws' = map duplicatedEntry (ws_entries ws)
   /\ Forall2 (fun e d => graphemes d = graphemes e /\ alias d = alias e
                          /\ phoneme d = phoneme e /\ noSayAs d
                          /\ isNew d = None)
              (ws_entries ws) (ws_entries ws')
   /\ (ordered (ws_entries ws) -> ordered (ws_entries ws'))
   /\ currentFile ws'
      = js "duplicate-of-" ++ stripXmlSuffix (currentFile ws) ++ js ".xml"
   /\ In (currentFile ws') (blobList ws')
   /\ savedEntries ws' = []
   /\ validationErrors (editor ws') = []
   /\ selectedIndex (selection (editor ws')) = None)
  /\ handleDuplicateLexicon ws true = ws
  /\ (currentFile ws = [] -> handleDuplicateLexicon ws false = ws).
Proof.
  split; [|split].
  - intros Hfile. cbv zeta. unfold handleDuplicateLexicon.
    apply truthy_nonempty in Hfile. rewrite Hfile. simpl.
    unfold ws_entries; simpl.
    split; [reflexivity|]. split.
    + induction (sel_entries (selection (editor ws))) as [|e l IH]; simpl;
        constructor; [|assumption].
      unfold noSayAs; simpl. repeat split.
    + split; [now apply map_keeps_order|].
      split; [reflexivity|]. split; [apply withBlob_In|auto].
  - reflexivity.
  - intros Hfile. unfold handleDuplicateLexicon. now rewrite Hfile.
Qed.

End FileProofs.

(** ** Search *)

Section SearchProofs.

Context {R : JsRuntime}.

Lemma indexed_hits {A} (l : list A) s :
  map (fun ie : nat * A => (snd ie, fst ie)) (combine (seq s (length l)) l)
  = combine l (seq s (length l)).
Proof.
  revert s. induction l as [|x l IH]; intros s; simpl; [reflexivity|].
  now rewrite IH.
Qed.

Lemma combine_seq_maps {A} (l : list A) s :
  map fst (combine l (seq s (length l))) = l
  /\ map snd (combine l (seq s (length l))) = seq s (length l).
Proof.
  revert s. induction l as [|x l IH]; intros s; simpl; [auto|].
  destruct (IH (S s)) as [-> ->]. auto.
Qed.

Lemma filter_hits_sorted {A} (f : A * nat -> bool) (l : list A) s :
  StronglySorted lt (map snd (filter f (combine l (seq s (length l)))))
  /\ Forall (fun i => (s <= i)%nat)
            (map snd (filter f (combine l (seq s (length l))))).
Proof.
  revert s. induction l as [|x l IH]; intros s; simpl.
  - split; constructor.
  - destruct (IH (S s)) as [Hs Hge].
    destruct (f (x, s)); simpl.
    + split.
      * constructor; [assumption|].
        eapply Forall_impl; [|exact Hge]. simpl. intros; lia.
      * constructor; [lia|].
        eapply Forall_impl; [|exact Hge]. simpl. intros; lia.
    + split; [assumption|].
      eapply Forall_impl; [|exact Hge]. simpl. intros; lia.
Qed.

Lemma In_hits {A} (l : list A) x i :
  In (x, i) (map (fun ie : nat * A => (snd ie, fst ie)) (indexed l))
  <-> nth_error l i = Some x.
Proof.
  split.
  - intros H. apply in_map_iff in H as [[j y] [[= -> ->] Hin]].
    now apply indexed_In.
  - intros H. apply in_map_iff. exists (i, x). split; [reflexivity|].
    unfold indexed.
    assert (Hgen : forall s, In ((s + i)%nat, x)
                                (combine (seq s (length l)) l)).
    { revert i H. induction l as [|y l IH]; intros [|i] H s; simpl in *;
        try discriminate.
      - injection H as ->. left. f_equal. lia.
      - right. replace (s + S i)%nat with (S s + i)%nat by lia.
        now apply IH. }
    exact (Hgen 0%nat).
Qed.

(** X28. Every row that the search lists carries the index of its entry
    in the entry list, so that selecting a hit selects that entry; the
    hits come in the order of the list, each entry at most once. A
    blank query lists all entries; any other query lists exactly the
    entries that hold the lower-cased query in a lower-cased grapheme,
    or in an alias or a phoneme that is not empty. *)
Theorem search_hits_indexed entries searchQuery :
  let hits := filteredEntries entries searchQuery in
  (forall e i, In (e, i) hits -> nth_error entries i = Some e)
  /\ StronglySorted lt (map snd hits)
  /\ (JS.trim searchQuery = [] ->
      map fst hits = entries /\ map snd hits = seq 0 (length entries))
  /\ (JS.trim searchQuery <> [] ->
      forall e i, In (e, i) hits
                  <-> nth_error entries i = Some e
                      /\ matchesQuery searchQuery e = true).
Proof.
  cbv zeta. unfold filteredEntries. cbv zeta.
  destruct (JS.truthy (JS.trim searchQuery)) eqn:Hq; simpl.
  - apply truthy_nonempty in Hq. split; [|split; [|split]].
    + intros e i H. apply filter_In in H as [H _]. now apply In_hits.
    + unfold indexed. rewrite indexed_hits.
      apply filter_hits_sorted.
    + congruence.
    + intros _ e i. rewrite filter_In, In_hits. reflexivity.
  - apply truthy_false in Hq. split; [|split; [|split]].
    + intros e i H. now apply In_hits.
    + unfold indexed. rewrite indexed_hits.
      pose proof (filter_hits_sorted (fun _ => true) entries 0) as [H _].
      rewrite filter_all in H; [exact H|].
      apply Forall_forall. reflexivity.
    + intros _. unfold indexed. rewrite indexed_hits.
      apply combine_seq_maps.
    + congruence.
Qed.

End SearchProofs.

(** ** The backend: old backups and the environment *)

Lemma insertBackup_perm x l : Permutation (x :: l) (insertBackup x l).
Proof.
  induction l as [|y r IH]; simpl; [reflexivity|].
  destruct (_ <=? 0)%Z; [reflexivity|].
  rewrite perm_swap. now constructor.
Qed.

Lemma sortBackups_perm l : Permutation l (sortBackups l).
Proof.
  induction l as [|x l IH]; simpl; [constructor|].
  rewrite <- insertBackup_perm. now constructor.
Qed.

Lemma insertBackup_sorted x l :
  Sorted newerFirst l -> Sorted newerFirst (insertBackup x l).
Proof.
  induction 1 as [|y r Hr IH Hhd]; simpl.
  - repeat constructor.
  - destruct (Z.leb_spec (lastModified y - lastModified x) 0).
    + constructor; [now constructor|]. constructor. unfold newerFirst. lia.
    + constructor; [assumption|].
      destruct Hhd as [|z r' Hyz]; simpl.
      * constructor. unfold newerFirst. lia.
      * destruct (_ <=? 0)%Z; constructor; unfold newerFirst in *; lia.
Qed.

Lemma sortBackups_sorted l : StronglySorted newerFirst (sortBackups l).
Proof.
  apply Sorted_StronglySorted.
  - intros a b c. unfold newerFirst. lia.
  - induction l as [|x l IH]; simpl; [constructor|].
    now apply insertBackup_sorted.
Qed.

Lemma StronglySorted_split {A} (R : A -> A -> Prop) n l :
  StronglySorted R l ->
  forall a b, In a (firstn n l) -> In b (skipn n l) -> R a b.
Proof.
  intros Hs. revert n. induction Hs as [|x l Hl IH Hx]; intros n a b.
  - now rewrite firstn_nil.
  - destruct n as [|n]; simpl; [contradiction|].
    intros [<-|Ha] Hb.
    + rewrite Forall_forall in Hx. apply Hx.
      rewrite <- (firstn_skipn n l). apply in_or_app. now right.
    + now apply (IH n).
Qed.

Lemma filter_partition_perm {A} (f : A -> bool) l :
  Permutation l (filter f l ++ filter (fun x => negb (f x)) l).
Proof.
  induction l as [|x l IH]; simpl; [constructor|].
  destruct (f x); simpl.
  - now constructor.
  - rewrite <- Permutation_middle. now constructor.
Qed.

(** X29. [cleanupOldBackups] deletes nothing while there are at most
    twenty backups. Beyond twenty, it asks to delete all but twenty of
    them, and never one of the twenty newest: every backup it asks to
    delete was modified no later than every backup it keeps. No backup
    is lost otherwise: the backups left and the backups deleted are the
    backups listed; and where no deletion fails, twenty are left. *)
Theorem cleanup_keeps_newest backupBlobs deleteFails :
  let kept := firstn MAX_BACKUPS (sortBackups backupBlobs) in
  let deleted :=
    filter (fun b => negb (deleteFails b)) (backupsToDelete backupBlobs) in
  let remaining := cleanupOldBackups backupBlobs deleteFails in
  Permutation backupBlobs (remaining ++ deleted)
  /\ ((length backupBlobs <= MAX_BACKUPS)%nat ->
      remaining = backupBlobs /\ backupsToDelete backupBlobs = [])
  /\ ((MAX_BACKUPS < length backupBlobs)%nat ->
      length (backupsToDelete backupBlobs)
      = (length backupBlobs - MAX_BACKUPS)%nat
      /\ incl kept remaining
      /\ length kept = MAX_BACKUPS)
  /\ (forall a b, In a kept -> In b (backupsToDelete backupBlobs) ->
                  (lastModified b <= lastModified a)%Z)
  /\ ((forall b, deleteFails b = false) ->
      length remaining = Nat.min (length backupBlobs) MAX_BACKUPS).
Proof.
  cbv zeta. unfold cleanupOldBackups, backupsToDelete.
  pose proof (sortBackups_perm backupBlobs) as Hperm.
  pose proof (Permutation_length Hperm) as Hlen.
  destruct (Nat.ltb_spec MAX_BACKUPS (length backupBlobs)) as [Hgt|Hle].
  - split; [|split; [|split; [|split]]].
    + rewrite Hperm at 1.
      rewrite <- (firstn_skipn MAX_BACKUPS (sortBackups backupBlobs)) at 1.
      rewrite <- app_assoc. apply Permutation_app_head.
      apply filter_partition_perm.
    + lia.
    + intros _. split; [rewrite length_skipn; lia|]. split.
      * intros b Hb. apply in_or_app. now left.
      * rewrite length_firstn. lia.
    + intros a b Ha Hb.
      exact (StronglySorted_split newerFirst MAX_BACKUPS _
               (sortBackups_sorted backupBlobs) a b Ha Hb).
    + intros Hok. rewrite length_app, length_firstn.
      assert (Hnone : filter deleteFails
                        (skipn MAX_BACKUPS (sortBackups backupBlobs)) = []).
      { induction (skipn MAX_BACKUPS (sortBackups backupBlobs)) as [|x l IH];
          simpl; [reflexivity|]. now rewrite Hok. }
      rewrite Hnone. cbn [length]. lia.
  - split; [|split; [|split; [|split]]].
    + simpl. now rewrite app_nil_r.
    + auto.
    + lia.
    + intros a b _ [].
    + intros _. lia.
Qed.

Lemma opt_truthy_keySet v : JS.opt_truthy v = true <-> keySet v.
Proof.
  unfold keySet. destruct v as [s|]; simpl.
  - rewrite truthy_nonempty. split.
    + intros H. now exists s.
    + now intros (s' & [= <-] & H).
  - split; [discriminate|]. now intros (s & H & _).
Qed.

Lemma orNull_truthy v : JS.opt_truthy (orNull v) = JS.opt_truthy v.
Proof. unfold orNull. now destruct (JS.opt_truthy v) eqn:H. Qed.

(** X30. [detectEnvironment] never answers [unknown]: where neither
    Kubernetes nor Vercel is detected, the answer is [localhost],
    whatever the other variables hold. [getApiKeys] returns no keys
    exactly when none of the three keys is set to a string that is not
    empty; the keys it returns are the variables that are set, an empty
    one counting as absent, with the detected environment as their
    source. *)
Theorem environment_is_known env :
  detectEnvironment env <> unknown
  /\ (getApiKeys env = None
      <-> ~ keySet (azure_storage_key env) /\ ~ keySet (azure_tts_key env)
          /\ ~ keySet (elevenlabs_tts_key env))
  /\ (forall keys,
        getApiKeys env = Some keys ->
        source keys = detectEnvironment env
        /\ azureStorageKey keys = orNull (azure_storage_key env)
        /\ ttsApiKey keys = orNull (azure_tts_key env)
        /\ elevenlabsTtsKey keys = orNull (elevenlabs_tts_key env)
        /\ (keySet (azureStorageKey keys) \/ keySet (ttsApiKey keys)
            \/ keySet (elevenlabsTtsKey keys))).
Proof.
  split; [|split].
  - unfold detectEnvironment.
    destruct (JS.opt_truthy (KUBERNETES_SERVICE_HOST env)); simpl;
      [discriminate|].
    destruct (JS.opt_truthy (KUBERNETES_PORT env)); [discriminate|].
    destruct (_ || _); [discriminate|].
    rewrite orb_true_r. discriminate.
  - unfold getApiKeys. cbv zeta. rewrite !orNull_truthy.
    rewrite <- !opt_truthy_keySet.
    destruct (JS.opt_truthy (azure_storage_key env));
      destruct (JS.opt_truthy (azure_tts_key env));
      destruct (JS.opt_truthy (elevenlabs_tts_key env)); simpl;
      (split; intros H;
       first [ discriminate
             | reflexivity
             | exfalso; destruct H as (H1 & H2 & H3);
               first [ now apply H1 | now apply H2 | now apply H3 ]
             | repeat split; discriminate ]).
  - intros keys. unfold getApiKeys. cbv zeta.
    destruct (_ || _) eqn:Hany; [|discriminate].
    intros [= <-]. simpl. repeat (split; [reflexivity|]).
    rewrite <- !opt_truthy_keySet.
    apply orb_true_iff in Hany as [Hany|Hany]; [|auto].
    apply orb_true_iff in Hany as [Hany|Hany]; auto.
Qed.

(** ** Closed instances of the further properties *)

Lemma handleDeleteEntry_realigns_witness :
  selectedIndex (selection Samples.panel) = Some 1%nat
  /\ selectedIndex (selection (handleDeleteEntry Samples.panel)) = None
  /\ nth_error (sel_entries (selection (handleDeleteEntry Samples.panel))) 1
     = Some Examples.hound
  /\ obj_get (validationErrors (handleDeleteEntry Samples.panel)) 1
     = Some Samples.noPronunciation.
Proof.
  assert (H : selectedIndex (selection Samples.panel) = Some 1%nat)
    by reflexivity.
  split; [exact H|].
  destruct (handleDeleteEntry_realigns Samples.panel 1 H) as [Hsel Hat].
  split; [exact Hsel|].
  destruct (Hat 1%nat) as [He Herr].
  split; [rewrite He|rewrite Herr]; reflexivity.
Defined.


Lemma phoneme_edit_never_invalid_witness :
  exists st',
    handlePhonemeChange Samples.panel (js "dɒ9g!") = Some st'
    /\ phonemeInputWarning st' = true
    /\ exists e',
         nth_error (sel_entries (selection st')) 1 = Some e'
         /\ phoneme e' = Some (fst (filterPhonemeInput (js "dɒ9g!")))
         /\ ~ In invalidPhonemeMessage (validateEntry e' 1).
Proof.
  eexists.
  assert (H : handlePhonemeChange Samples.panel (js "dɒ9g!") = Some ?[st'])
    by (vm_compute; reflexivity).
  split; [exact H|]. split; [reflexivity|].
  exact (proj1 (phoneme_edit_never_invalid Samples.panel (js "dɒ9g!") _ 1%nat
                  eq_refl H)).
Defined.

Lemma selection_follows_entry_witness :
  exists st' cur e' i,
    @handleGraphemeChange BasicLatin.runtime (selection Samples.panel) 0
                          (js "ant") = Some st'
    /\ nth_error (sel_entries (selection Samples.panel)) 1 = Some cur
    /\ withGrapheme cur 0 (js "ant") = Some e'
    /\ nth_error (graphemes e') 0 = Some (js "ant")
    /\ selectedIndex st' = Some i
    /\ nth_error (sel_entries st') i = Some e'
    /\ JS.removeAt (sel_entries st') i
       = JS.removeAt (sel_entries (selection Samples.panel)) 1.
Proof.
  eexists.
  assert (H : @handleGraphemeChange BasicLatin.runtime
                (selection Samples.panel) 0 (js "ant") = Some ?[st'])
    by (vm_compute; reflexivity).
  destruct (proj2 (@selection_follows_entry BasicLatin.runtime)
              (selection Samples.panel) 0%nat (js "ant") _ 1%nat eq_refl H)
    as (cur & e' & i & Hrest).
  exists cur, e', i. split; [exact H|exact Hrest].
Defined.

Lemma merge_result_ordered_witness :
  @ordered BasicLatin.runtime
    (@sortEntries BasicLatin.runtime
       [Examples.hound; Examples.dog; Examples.cat])
  /\ Permutation [Examples.hound; Examples.dog; Examples.cat]
       (@sortEntries BasicLatin.runtime
          [Examples.hound; Examples.dog; Examples.cat]).
Proof.
  exact (proj1 (@merge_result_ordered BasicLatin.runtime BasicLatin_collation)
               [Examples.hound; Examples.dog; Examples.cat]).
Defined.

Lemma conflict_records_sound_witness :
  exists c,
    In c (@conflictsOf BasicLatin.runtime [Examples.cat] [Examples.cat_kat])
    /\ nth_error [Examples.cat] (masterIndex c) = Some (masterEntry c)
    /\ nth_error [Examples.cat_kat] (mergeIndex c) = Some (mergeEntry c)
    /\ resolution c = None
    /\ commonGraphemes c <> [].
Proof.
  eexists.
  assert (H : In ?[c] (@conflictsOf BasicLatin.runtime [Examples.cat]
                                    [Examples.cat_kat]))
    by (vm_compute; left; reflexivity).
  split; [exact H|].
  destruct (@conflict_records_sound BasicLatin.runtime _ _ _ H)
    as (H1 & H2 & H3 & _ & _ & H6 & _).
  exact (conj H1 (conj H2 (conj H3 H6))).
Defined.

Lemma finalizeMerge_accounts_witness :
  Forall (fun c => (masterIndex c < length (entries Examples.pendingState))%nat)
         (mergeConflicts Examples.pendingState)
  /\ exists st' summary,
       @finalizeMerge BasicLatin.runtime Examples.pendingState = Some st'
       /\ mergeSummary st' = Some summary
       /\ length (entries st')
          = (length (entries Examples.pendingState) + newEntries summary)%nat.
Proof.
  assert (H : Forall (fun c => (masterIndex c
                                < length (entries Examples.pendingState))%nat)
                     (mergeConflicts Examples.pendingState)).
  { repeat constructor. }
  split; [exact H|].
  destruct (@finalizeMerge_accounts BasicLatin.runtime Examples.pendingState H)
    as (st' & summary & H1 & H2 & H3 & _).
  exists st', summary. exact (conj H1 (conj H2 H3)).
Defined.

Lemma merge_blocked_by_errors_witness :
  let st := Examples.emptyState [Examples.cat] in
  mergeDetailedErrors
    (@processMergeFile BasicLatin.runtime st (js "en-US") None) <> []
  /\ entries (@processMergeFile BasicLatin.runtime st (js "en-US") None)
     = entries st.
Proof.
  cbn zeta.
  assert (H : mergeDetailedErrors
                (@processMergeFile BasicLatin.runtime
                   (Examples.emptyState [Examples.cat]) (js "en-US") None)
              <> []) by discriminate.
  split; [exact H|].
  exact (proj1 (@merge_blocked_by_errors BasicLatin.runtime _ _ _ H)).
Defined.

Lemma parseMergeEntry_accepts_witness :
  exists e,
    parseMergeEntry Examples.lexeme_cat_kat = inr e
    /\ contentInvariant e /\ Forall cleanGrapheme (graphemes e).
Proof.
  eexists.
  assert (H : parseMergeEntry Examples.lexeme_cat_kat = inr ?[e])
    by (vm_compute; reflexivity).
  split; [exact H|].
  destruct (parseMergeEntry_accepts _ _ H) as (H1 & H2 & _).
  exact (conj H1 H2).
Defined.

Lemma exportable_dog_hound :
  Forall (exportable tsvCell) [Examples.dog; Examples.hound].
Proof.
  constructor; [|constructor; [|constructor]];
    apply exportable_word; try discriminate; try reflexivity;
    now apply tsvCell_computed.
Qed.

Lemma roundtrip_regroups_witness :
  parseTSV (buildTSV [Examples.dog; Examples.hound])
  = inr (regrouped [Examples.dog; Examples.hound])
  /\ parseCSV (buildCSV [Examples.dog; Examples.hound])
     = inr (regrouped [Examples.dog; Examples.hound])
  /\ regrouped [Examples.dog; Examples.hound] = [Examples.dog_hound].
Proof.
  assert (Hne : [Examples.dog; Examples.hound] <> []) by discriminate.
  destruct (roundtrip_regroups [Examples.dog; Examples.hound] Hne)
    as (Htsv & Hcsv & _).
  split; [exact (Htsv exportable_dog_hound)|].
  split; [|reflexivity].
  apply Hcsv. eapply Forall_impl; [|exact exportable_dog_hound].
  exact exportable_tsv_csv.
Defined.

Lemma export_reads_back_witness :
  let file :=
    handleExportFormat format_tsv [] [Examples.dog; Examples.hound]
                       (js "animals.XML") in
  parseCSV (download_content file) = inr [Examples.dog_hound]
  /\ download_name file = js "animals.csv".
Proof.
  cbn zeta.
  assert (Hne : [Examples.dog; Examples.hound] <> []) by discriminate.
  assert (Hex : Forall (exportable csvCell) [Examples.dog; Examples.hound]).
  { eapply Forall_impl; [|exact exportable_dog_hound].
    exact exportable_tsv_csv. }
  destruct (export_reads_back [] [Examples.dog; Examples.hound]
              (js "animals.XML") Hne Hex) as (_ & _ & Hread & _).
  split; [exact Hread|reflexivity].
Defined.

Lemma comments_are_skipped_witness :
  parseCSV (JS.join JS.LF Samples.csv_with_comment)
  = parseCSV (JS.join JS.LF (filter isDataLine Samples.csv_with_comment))
  /\ filter isDataLine Samples.csv_with_comment
     = [JS.join JS.COMMA expectedHeaders; js "cat,,,kat,"].
Proof.
  assert (Hne : Samples.csv_with_comment <> []) by discriminate.
  assert (Hall : Forall plainLine Samples.csv_with_comment).
  { repeat constructor. }
  split; [|reflexivity].
  exact (comments_are_skipped parseCSVLine _ Hne Hall).
Defined.

Lemma new_lexicon_needs_an_entry_witness :
  exists ws',
    @handleCreateNewLexicon BasicLatin.runtime Samples.workspace
                            (js " birds ") = inr ws'
    /\ currentFile ws' = js "birds.xml"
    /\ forall failure,
         handleSaveLexicon ws' failure
         = (ws', save_refused (js "Cannot save: Add at least one real entry.")).
Proof.
  eexists.
  assert (H : @handleCreateNewLexicon BasicLatin.runtime Samples.workspace
                (js " birds ") = inr ?[ws'])
    by (vm_compute; reflexivity).
  split; [exact H|]. split; [reflexivity|].
  exact (proj2 (proj2 (proj2 (proj2 (proj2 (proj2 (proj2 (proj2
           (@new_lexicon_needs_an_entry BasicLatin.runtime _ _ _ H))))))))).
Defined.

Lemma save_selects_first_error_witness :
  exists i message,
    selectedIndex (selection (editor (fst (handleSaveLexicon Samples.workspace
                                                             None))))
    = Some i
    /\ snd (handleSaveLexicon Samples.workspace None) = save_refused message
    /\ i = 0%nat.
Proof.
  assert (H1 : currentFile Samples.workspace <> []) by discriminate.
  assert (H2 : isOnlyPlaceholder (ws_entries Samples.workspace) = false)
    by reflexivity.
  assert (H3 : validationErrors (editor Samples.workspace) <> [])
    by discriminate.
  destruct (save_selects_first_error Samples.workspace None H1 H2 H3)
    as (i & message & Hsel & Hout & _ & Hleast & _).
  exists i, message. split; [exact Hsel|]. split; [exact Hout|].
  specialize (Hleast 0%nat (or_introl eq_refl)). lia.
Defined.

Lemma duplicate_drops_say_as_witness :
  let ws' := handleDuplicateLexicon Samples.workspace false in
  currentFile ws' = js "duplicate-of-animals.xml"
  /\ ws_entries ws' = map duplicatedEntry (ws_entries Samples.workspace)
  /\ savedEntries ws' = [].
Proof.
  cbn zeta.
  assert (H : currentFile Samples.workspace <> []) by discriminate.
  destruct (proj1 (@duplicate_drops_say_as BasicLatin.runtime
                     Samples.workspace) H)
    as (H1 & _ & _ & H4 & _ & H6 & _).
  split; [rewrite H4; reflexivity|]. split; [exact H1|exact H6].
Defined.
